(** * bsdoc: the import-aliases plugin (plugins/import-aliases.js)

    A shallow embedding of the JSDoc plugin that collects the import
    aliases of every file, indexes the exports of every file, resolves the
    aliases and rewrites the type names of the doclets.

    Conventions of the embedding.
    - A JavaScript string is a [string]; every [ascii] stands for one
      UTF-16 code unit below 256, so the development ranges over Latin-1
      text.
    - A JavaScript [Map] is an association list kept in insertion order
      ([JsMap]), the order in which the loops of the source go through it:
      [set] overwrites in place or appends.
    - A regular expression of the source is a term of [Regex.regex], run by
      a backtracking matcher that tries the alternatives in the order of
      ECMAScript.
    - The module-level registry [fileinfoByFile] and the in-place updates of
      the [FileInfo] objects it holds are made explicit: a handler takes the
      registry and returns the new one.  A [FileInfo] object is the entry of
      the registry under its path.
    - A thrown exception is the [Err] branch of [result].
    - The string-valued fields of a doclet ([kind], [name], [longname],
      [scope], [meta.code.name], [meta.code.type], [meta.code.value]) are
      strings and [meta.code] is there whenever [meta] is; [meta] itself
      and the type-bearing fields may be absent.
    - Node's [path.dirname] and [path.resolve] are parameters of the
      plugin; [Posix] gives them for the runs on concrete files. *)

From Stdlib Require Import String Ascii List Bool Arith NArith Lia.
From Stdlib Require Import DecimalString.
Import ListNotations.
Open Scope string_scope.

Set Implicit Arguments.

(** ** Results of code that may throw *)

Inductive error : Type :=
| TypeError
| ParseError (msg : string).

Inductive result (A : Type) : Type :=
| Ok (a : A)
| Err (e : error).
Arguments Ok {A} a.
Arguments Err {A} e.

Definition bind {A B : Type} (r : result A) (f : A -> result B) : result B :=
  match r with
  | Ok a => f a
  | Err e => Err e
  end.

Notation "x <- c1 ;; c2" := (bind c1 (fun x => c2))
  (at level 61, c1 at next level, right associativity).

(** [for (const x of xs) x' = f(x)], stopping at the first exception. *)
Fixpoint mapM {A B : Type} (f : A -> result B) (xs : list A) : result (list B) :=
  match xs with
  | [] => Ok []
  | x :: xs' => y <- f x ;; ys <- mapM f xs' ;; Ok (y :: ys)
  end.

(** ** JavaScript strings *)

Module Js.

Definition code (c : ascii) : N := N_of_ascii c.

Definition between (lo hi : N) (c : ascii) : bool :=
  (lo <=? code c)%N && (code c <=? hi)%N.

(** [\w] *)
Definition is_word (c : ascii) : bool :=
  between 97 122 c || between 65 90 c || between 48 57 c || (code c =? 95)%N.

(** [\s]: WhiteSpace and LineTerminator code units below 256
    (TAB, LF, VT, FF, CR, SP, NBSP). *)
Definition is_space (c : ascii) : bool :=
  between 9 13 c || (code c =? 32)%N || (code c =? 160)%N.

(** [.] without the [s] flag: everything but a line terminator. *)
Definition is_dot (c : ascii) : bool :=
  negb ((code c =? 10)%N || (code c =? 13)%N).

Definition is_char (a : ascii) (c : ascii) : bool := Ascii.eqb a c.

(** A string is truthy when it is not empty. *)
Definition truthy (s : string) : bool :=
  match s with
  | EmptyString => false
  | String _ _ => true
  end.

(** [s.slice(n)] for [0 <= n]. *)
Fixpoint slice (n : nat) (s : string) : string :=
  match n, s with
  | O, _ => s
  | S n', String _ s' => slice n' s'
  | S _, EmptyString => EmptyString
  end.

(** The first [n] code units of [s]. *)
Fixpoint take (n : nat) (s : string) : string :=
  match n, s with
  | S n', String c s' => String c (take n' s')
  | _, _ => EmptyString
  end.

(** [s.startsWith(p)] *)
Definition startsWith (s p : string) : bool := String.prefix p s.

(** [s.endsWith(p)] *)
Definition endsWith (s p : string) : bool :=
  Nat.leb (String.length p) (String.length s) &&
  String.eqb (slice (String.length s - String.length p) s) p.

(** [s.trimStart()] *)
Fixpoint trimStart (s : string) : string :=
  match s with
  | String c s' => if is_space c then trimStart s' else s
  | EmptyString => EmptyString
  end.

(** [s.trimEnd()]: a code unit is dropped when it is a space and all that
    follows it was dropped. *)
Fixpoint trimEnd (s : string) : string :=
  match s with
  | String c s' =>
      match trimEnd s' with
      | EmptyString => if is_space c then EmptyString else String c EmptyString
      | t => String c t
      end
  | EmptyString => EmptyString
  end.

(** [s.trim()] *)
Definition trim (s : string) : string := trimEnd (trimStart s).

(** [s.split(sep)] for a one-unit separator: the pieces between the
    separators; the empty string gives one empty piece. *)
Fixpoint split (sep : ascii) (s : string) : list string :=
  match s with
  | EmptyString => [EmptyString]
  | String c s' =>
      if Ascii.eqb c sep then EmptyString :: split sep s'
      else match split sep s' with
           | p :: ps => String c p :: ps
           | [] => [String c EmptyString]
           end
  end.

(** [xs.join(sep)] on an array of strings. *)
Definition join (sep : string) (xs : list string) : string :=
  String.concat sep xs.

(** The decimal rendering of a non-negative integer inside a template. *)
Definition of_number (n : N) : string :=
  NilEmpty.string_of_uint (N.to_uint n).

End Js.

(** ** JavaScript maps, in insertion order *)

Module JsMap.

Definition t (V : Type) : Type := list (string * V).

Definition empty {V : Type} : t V := [].

Fixpoint get {V : Type} (k : string) (m : t V) : option V :=
  match m with
  | [] => None
  | (k', v) :: m' => if String.eqb k k' then Some v else get k m'
  end.

Definition has {V : Type} (k : string) (m : t V) : bool :=
  match get k m with
  | Some _ => true
  | None => false
  end.

(** [m.set(k, v)]: an existing key keeps its place. *)
Fixpoint set {V : Type} (k : string) (v : V) (m : t V) : t V :=
  match m with
  | [] => [(k, v)]
  | (k', v') :: m' =>
      if String.eqb k k' then (k, v) :: m' else (k', v') :: set k v m'
  end.

Definition size {V : Type} (m : t V) : nat := List.length m.

Definition keys {V : Type} (m : t V) : list string := List.map fst m.

Definition values {V : Type} (m : t V) : list V := List.map snd m.

End JsMap.

(** ** Regular expressions, matched by backtracking *)

Module Regex.

Inductive regex : Type :=
| Chr (p : ascii -> bool)          (* one code unit of a class *)
| Eps
| Seq (r1 r2 : regex)
| Alt (r1 r2 : regex)              (* [r1] first, then [r2] *)
| Star (greedy : bool) (r : regex) (* [r*] or [r*?] *)
| Group (i : nat) (r : regex)      (* capturing group number [i] *)
| End.                             (* [$] without the [m] flag *)

(** [r+], [r?] and a literal text. *)
Definition Plus (r : regex) : regex := Seq r (Star true r).
Definition Opt (r : regex) : regex := Alt r Eps.
Fixpoint Lit (s : string) : regex :=
  match s with
  | EmptyString => Eps
  | String c s' => Seq (Chr (Js.is_char c)) (Lit s')
  end.

(** The captures, most recent first. *)
Definition caps : Type := list (nat * string).

Fixpoint capture (i : nat) (c : caps) : option string :=
  match c with
  | [] => None
  | (j, s) :: c' => if Nat.eqb i j then Some s else capture i c'
  end.

(** The text consumed between the input [s] and its suffix [s']. *)
Definition consumed (s s' : string) : string :=
  Js.take (String.length s - String.length s') s.

Definition cont : Type := string -> caps -> option (string * caps).

(** The iterations of a star whose body is matched by [body]: at most [n]
    of them, each of which has to consume something, as in ECMAScript; a
    greedy star tries one more iteration before it goes on with [k], a lazy
    one goes on with [k] first.  No expression of the source has a group
    inside a star, so the captures are not reset between iterations. *)
Fixpoint star_loop (body : string -> caps -> cont -> option (string * caps))
    (greedy : bool) (k : cont) (n : nat) (s : string) (c : caps)
  : option (string * caps) :=
  match n with
  | O => k s c
  | S n' =>
      let again s' c' :=
        if Nat.ltb (String.length s') (String.length s)
        then star_loop body greedy k n' s' c'
        else None in
      if greedy then
        match body s c again with
        | Some x => Some x
        | None => k s c
        end
      else
        match k s c with
        | Some x => Some x
        | None => body s c again
        end
  end.

(** [run r s c k]: match [r] at the head of [s], then go on with [k] on the
    rest of the input; [None] makes the matcher backtrack. *)
Fixpoint run (r : regex) (s : string) (c : caps) (k : cont)
  : option (string * caps) :=
  match r with
  | Chr p =>
      match s with
      | String a s' => if p a then k s' c else None
      | EmptyString => None
      end
  | Eps => k s c
  | Seq r1 r2 => run r1 s c (fun s' c' => run r2 s' c' k)
  | Alt r1 r2 =>
      match run r1 s c k with
      | Some x => Some x
      | None => run r2 s c k
      end
  | Star greedy r' => star_loop (run r') greedy k (String.length s) s c
  | Group i r' =>
      run r' s c (fun s' c' => k s' ((i, consumed s s') :: c'))
  | End =>
      match s with
      | EmptyString => k s c
      | String _ _ => None
      end
  end.

Record found : Type := {
  before : string;   (* the input in front of the match *)
  matched : string;  (* match[0] *)
  groups : caps;     (* match[1], match[2], ... *)
  after : string     (* the input behind the match *)
}.

(** [RegExp.prototype.exec] from the head of [s]: the leftmost match. *)
Fixpoint exec (r : regex) (s : string) : option found :=
  match run r s [] (fun s' c => Some (s', c)) with
  | Some (rest, c) =>
      Some {| before := EmptyString; matched := consumed s rest;
              groups := c; after := rest |}
  | None =>
      match s with
      | EmptyString => None
      | String a s' =>
          match exec r s' with
          | Some f =>
              Some {| before := String a (before f); matched := matched f;
                      groups := groups f; after := after f |}
          | None => None
          end
      end
  end.

(** [s.matchAll(r)] for a global [r]: the successive matches, each searched
    from the end of the one before; after an empty match the search moves
    on by one code unit. *)
Fixpoint matchAll_from (n : nat) (r : regex) (s : string) : list found :=
  match n with
  | O => []
  | S n' =>
      match exec r s with
      | None => []
      | Some f =>
          f :: match matched f, after f with
               | EmptyString, EmptyString => []
               | EmptyString, String _ rest => matchAll_from n' r rest
               | String _ _, rest => matchAll_from n' r rest
               end
      end
  end.

Definition matchAll (r : regex) (s : string) : list found :=
  matchAll_from (S (String.length s)) r s.

End Regex.

(** ** The data of the plugin *)

(** A resolution slot of [localImportAliases]: the request
    [[file, exported]] stored by the scanners, and what [resolveImports]
    puts in its place, a longname or [null]. *)
Inductive slot : Type :=
| Request (file exported : string)
| Resolved (longname : string)
| Failed.

Record FileInfo : Type := {
  filename : string;
  localImportAliases : JsMap.t slot;
  longnamesByDeclaration : JsMap.t string;
  mappings : JsMap.t string;
  exports : JsMap.t string
}.

(** [new FileInfo(filename)] *)
Definition new_FileInfo (filename : string) : FileInfo :=
  {| filename := filename;
     localImportAliases := JsMap.empty;
     longnamesByDeclaration := JsMap.empty;
     mappings := JsMap.empty;
     exports := JsMap.empty |}.

Definition set_localImportAliases (fi : FileInfo) (a : JsMap.t slot) : FileInfo :=
  {| filename := filename fi;
     localImportAliases := a;
     longnamesByDeclaration := longnamesByDeclaration fi;
     mappings := mappings fi;
     exports := exports fi |}.

Definition set_longnamesByDeclaration (fi : FileInfo) (l : JsMap.t string) : FileInfo :=
  {| filename := filename fi;
     localImportAliases := localImportAliases fi;
     longnamesByDeclaration := l;
     mappings := mappings fi;
     exports := exports fi |}.

Definition set_mappings (fi : FileInfo) (m : JsMap.t string) : FileInfo :=
  {| filename := filename fi;
     localImportAliases := localImportAliases fi;
     longnamesByDeclaration := longnamesByDeclaration fi;
     mappings := m;
     exports := exports fi |}.

Definition set_exports (fi : FileInfo) (e : JsMap.t string) : FileInfo :=
  {| filename := filename fi;
     localImportAliases := localImportAliases fi;
     longnamesByDeclaration := longnamesByDeclaration fi;
     mappings := mappings fi;
     exports := e |}.

(** [fileinfoByFile] *)
Definition Registry : Type := JsMap.t FileInfo.

(** [doclet.meta.code] *)
Record Code : Type := {
  code_name : string;
  code_type : string;
  code_value : string
}.

(** [doclet.meta] *)
Record Meta : Type := {
  meta_path : string;
  meta_filename : string;
  meta_lineno : N;
  meta_code : Code
}.

(** An entry of [params], [properties] or [returns]: its [type], when
    present, holds the array [type.names]. *)
Record Typed : Type := {
  type_names : option (list string)
}.

Record Doclet : Type := {
  d_kind : string;
  d_name : string;
  d_longname : string;
  d_scope : string;
  d_meta : option Meta;
  d_augments : option (list string);
  d_properties : option (list Typed);
  d_params : option (list Typed);
  d_returns : option (list Typed)
}.

(** ** The regular expressions of the source *)

Module Patterns.
Import Regex.

Fixpoint Cat (rs : list regex) : regex :=
  match rs with
  | [] => Eps
  | [r] => r
  | r :: rs' => Seq r (Cat rs')
  end.

Definition w : regex := Chr Js.is_word.
Definition s : regex := Chr Js.is_space.
Definition quote : regex :=
  Chr (fun c => Js.is_char "'" c || Js.is_char "034" c).
Definition not_quote : regex :=
  Chr (fun c => negb (Js.is_char "'" c || Js.is_char "034" c)).
Definition not_brace : regex :=
  Chr (fun c => negb (Js.is_char "{" c || Js.is_char "}" c)).
(** [[\w\s,]] *)
Definition name_list_unit (c : ascii) : bool :=
  Js.is_word c || Js.is_space c || Js.is_char "," c.

(** The group [i] around a starred [\.\w+] (not capturing itself). *)
Definition dotted (i : nat) : regex :=
  Group i (Star true (Seq (Lit ".") (Plus w))).

(** The expressions of the scanners, piece by piece.  Below, Q stands for
    the class of the two quote marks, NQ for its complement, NB for the
    class of everything but the two braces and D for the dotted group.

    typedefRegex:
      slash star star, lazy spaces, @typedef, spaces, {import
      and an opening parenthesis, Q, group 1 = NQ+, Q, closing
      parentheses (greedy star), D as group 2, a closing brace, spaces,
      group 3 = word+, lazy spaces, star slash. *)
Definition typedefRegex : regex :=
  Cat [Lit "/**"; Star false s; Lit "@typedef"; Plus s; Lit "{import(";
       quote; Group 1 (Plus not_quote); quote; Star true (Lit ")");
       dotted 2; Lit "}"; Plus s; Group 3 (Plus w); Star false s; Lit "*/"].

(** simpleRequire:
      const, spaces, group 1 = word+, spaces (star), =, spaces (star),
      require and an opening parenthesis, Q, group 2 = NQ+, Q, a closing
      parenthesis, D as group 3, lazy spaces, a semicolon. *)
Definition simpleRequire : regex :=
  Cat [Lit "const"; Plus s; Group 1 (Plus w); Star true s; Lit "=";
       Star true s; Lit "require("; quote; Group 2 (Plus not_quote); quote;
       Lit ")"; dotted 3; Star false s; Lit ";"].

(** destructRequire:
      const, spaces, an opening brace, group 1 = NB+, a closing brace,
      spaces (star), =, spaces (star), require and an opening parenthesis,
      Q, group 2 = NQ+, Q, a closing parenthesis, D as group 3, lazy spaces,
      a semicolon. *)
Definition destructRequire : regex :=
  Cat [Lit "const"; Plus s; Lit "{"; Group 1 (Plus not_brace); Lit "}";
       Star true s; Lit "="; Star true s; Lit "require("; quote;
       Group 2 (Plus not_quote); quote; Lit ")"; dotted 3; Star false s;
       Lit ";"].

(** typeMatch:
      group 1 = one or more units of [name_list_unit]; then, optionally,
      any unit but a line terminator, <, group 2 = a greedy star of such
      units, >; then the end of the input. *)
Definition typeMatch : regex :=
  Seq (Group 1 (Plus (Chr name_list_unit)))
      (Seq (Opt (Seq (Chr Js.is_dot)
                     (Seq (Chr (Js.is_char "<"))
                          (Seq (Group 2 (Star true (Chr Js.is_dot)))
                               (Chr (Js.is_char ">"))))))
           End).

(** [matched[i]] of a group that takes part in every match. *)
Definition group (i : nat) (f : found) : string :=
  match capture i (groups f) with
  | Some t => t
  | None => EmptyString
  end.

(** [source.replace(r, '')] for a global [r] whose matches [fs] are not
    empty: what is left between the matches. *)
Fixpoint remove_matches (fs : list found) (source : string) : string :=
  match fs with
  | [] => source
  | f :: fs' => before f ++ remove_matches fs' (after f)
  end.

End Patterns.

(** ** The plugin *)

Section Plugin.

(** Node's [path.dirname] and [path.resolve] (two arguments). *)
Variable path_dirname : string -> string.
Variable path_resolve : string -> string -> string.

(** [getFileInfo(filename, getNew)]: what is returned, and the registry
    afterwards. *)
Definition getFileInfo (reg : Registry) (filename : string) (getNew : bool)
  : option FileInfo * Registry :=
  let fileinfo := JsMap.get filename reg in
  if negb getNew then (fileinfo, reg)
  else match fileinfo with
       | Some fi => (Some fi, reg)
       | None =>
           let fi := new_FileInfo filename in
           (Some fi, JsMap.set filename fi reg)
       end.

(** The object returned by [getFileInfo(filename, true)] is the one the
    registry holds under [filename]; updating it in place by [f] updates
    the registry. *)
Definition update_FileInfo (reg : Registry) (filename : string)
    (f : FileInfo -> FileInfo) : Registry :=
  match getFileInfo reg filename true with
  | (Some fi, reg') => JsMap.set filename (f fi) reg'
  | (None, reg') => reg'
  end.

(** [withExt(file)] *)
Definition withExt (file : string) : string :=
  if Js.endsWith file ".js" then file else file ++ ".js".

(** [fileinfo.localImportAliases.set(localAlias, [file, exported])] *)
Definition add_alias (localAlias file exported : string) (fi : FileInfo)
  : FileInfo :=
  set_localImportAliases fi
    (JsMap.set localAlias (Request file exported) (localImportAliases fi)).

(** The body of the loop of [typedefImportAliases]. *)
Definition typedef_alias (filename : string) (fileinfo : FileInfo)
    (matched : Regex.found) : FileInfo :=
  let dir := path_dirname filename in
  let file := withExt (path_resolve dir (Patterns.group 1 matched)) in
  let exported := Js.slice 1 (Patterns.group 2 matched) in
  let localAlias := Patterns.group 3 matched in
  add_alias localAlias file exported fileinfo.

(** [typedefImportAliases(e)]: the registry and [e.source] afterwards. *)
Definition typedefImportAliases (reg : Registry) (filename source : string)
  : Registry * string :=
  let matchAll := Regex.matchAll Patterns.typedefRegex source in
  match matchAll with
  | [] => (reg, source)
  | _ :: _ =>
      (update_FileInfo reg filename
         (fun fileinfo => fold_left (typedef_alias filename) matchAll fileinfo),
       Patterns.remove_matches matchAll source)
  end.

(** The body of the loop of [constSimpleRequireAliases]. *)
Definition simple_alias (filename : string) (fileinfo : FileInfo)
    (matched : Regex.found) : FileInfo :=
  let dir := path_dirname filename in
  let file := withExt (path_resolve dir (Patterns.group 2 matched)) in
  let exported := Js.slice 1 (Patterns.group 3 matched) in
  let localAlias := Patterns.group 1 matched in
  add_alias localAlias file exported fileinfo.

(** [constSimpleRequireAliases(e)] *)
Definition constSimpleRequireAliases (reg : Registry) (filename source : string)
  : Registry :=
  let simpleRequireAll := Regex.matchAll Patterns.simpleRequire source in
  match simpleRequireAll with
  | [] => reg
  | _ :: _ =>
      update_FileInfo reg filename
        (fun fileinfo =>
           fold_left (simple_alias filename) simpleRequireAll fileinfo)
  end.

(** The body of the outer loop of [constDestructRequireAliases], with its
    inner loop over the names between the braces. *)
Definition destruct_aliases (filename : string) (fileinfo : FileInfo)
    (matched : Regex.found) : FileInfo :=
  let dir := path_dirname filename in
  let file := withExt (path_resolve dir (Patterns.group 2 matched)) in
  let exported := Js.slice 1 (Patterns.group 3 matched) in
  let exportedNames :=
    List.map Js.trim (Js.split "," (Patterns.group 1 matched)) in
  fold_left
    (fun fileinfo name =>
       let fullexport :=
         if Js.truthy exported then exported ++ "." ++ name else name in
       let localAlias := name in
       add_alias localAlias file fullexport fileinfo)
    exportedNames fileinfo.

(** [constDestructRequireAliases(e)] *)
Definition constDestructRequireAliases (reg : Registry) (filename source : string)
  : Registry :=
  let destructRequireAll := Regex.matchAll Patterns.destructRequire source in
  match destructRequireAll with
  | [] => reg
  | _ :: _ =>
      update_FileInfo reg filename
        (fun fileinfo =>
           fold_left (destruct_aliases filename) destructRequireAll fileinfo)
  end.

(** [beforeParse(e)]: the registry and [e.source] afterwards. *)
Definition beforeParse (reg : Registry) (filename source : string)
  : Registry * string :=
  let '(reg1, source1) := typedefImportAliases reg filename source in
  let reg2 := constSimpleRequireAliases reg1 filename source1 in
  let reg3 := constDestructRequireAliases reg2 filename source1 in
  (reg3, source1).

(** [indexLongnames(fileinfo, doclet)], on the fields of the doclet it
    reads; [newDoclet] has read [meta] before, so it is there. *)
Definition indexLongnames (fileinfo : FileInfo) (kind name longname : string)
    (meta : Meta) : FileInfo :=
  if negb (String.eqb kind "class") && negb (String.eqb kind "function")
  then fileinfo
  else
    let codename := code_name (meta_code meta) in
    if negb (String.eqb name longname) then
      set_longnamesByDeclaration fileinfo
        (JsMap.set name longname
           (JsMap.set codename longname (longnamesByDeclaration fileinfo)))
    else fileinfo.

(** [indexMappings(fileinfo, doclet)] *)
Definition indexMappings (fileinfo : FileInfo) (kind : string) (meta : Meta)
  : FileInfo :=
  if String.eqb kind "class" || String.eqb kind "function" then fileinfo
  else if negb (String.eqb (code_type (meta_code meta)) "Identifier")
  then fileinfo
  else
    set_mappings fileinfo
      (JsMap.set (code_name (meta_code meta)) (code_value (meta_code meta))
         (mappings fileinfo)).

(** [newDoclet(e)]: reading [meta.path] of an absent [meta] throws. *)
Definition newDoclet (reg : Registry) (doclet : Doclet) : result Registry :=
  match d_meta doclet with
  | None => Err TypeError
  | Some meta =>
      let filename := path_resolve (meta_path meta) (meta_filename meta) in
      if negb (String.eqb (d_scope doclet) "global")
         && negb (String.eqb (d_scope doclet) "static")
      then Ok reg
      else
        Ok (update_FileInfo reg filename (fun fileinfo =>
              indexMappings
                (indexLongnames fileinfo (d_kind doclet) (d_name doclet)
                   (d_longname doclet) meta)
                (d_kind doclet) meta))
  end.

(** [fileinfo.longnamesByDeclaration.get(x)] followed by [if (longname)]:
    a longname that is there and truthy. *)
Definition known_longname (fileinfo : FileInfo) (x : string) : option string :=
  match JsMap.get x (longnamesByDeclaration fileinfo) with
  | Some longname => if Js.truthy longname then Some longname else None
  | None => None
  end.

(** The export alias before the two loops of [indexExports], and the table
    after the test on [module.exports]. *)
Definition exportsAlias_init (fileinfo : FileInfo) : string :=
  match JsMap.get "module.exports" (mappings fileinfo) with
  | Some moduleExports => moduleExports
  | None => "exports"
  end.

Definition exports_init (fileinfo : FileInfo) : JsMap.t string :=
  match JsMap.get "module.exports" (mappings fileinfo) with
  | Some moduleExports =>
      match known_longname fileinfo moduleExports with
      | Some longname => JsMap.set "*" longname (exports fileinfo)
      | None => exports fileinfo
      end
  | None => exports fileinfo
  end.

(** The first loop: the last key whose value is ['exports'] wins. *)
Definition exportsAlias_final (fileinfo : FileInfo) : string :=
  fold_left
    (fun exportsAlias (kv : string * string) =>
       if String.eqb (snd kv) "exports" then fst kv else exportsAlias)
    (mappings fileinfo) (exportsAlias_init fileinfo).

(** One turn of the second loop. *)
Definition export_entry (fileinfo : FileInfo) (exportsAlias : string)
    (table : JsMap.t string) (kv : string * string) : JsMap.t string :=
  let '(key, value) := kv in
  if Js.startsWith key (exportsAlias ++ ".") then
    let exportKey := Js.slice (String.length exportsAlias + 1) key in
    match known_longname fileinfo value with
    | Some longname => JsMap.set exportKey longname table
    | None => table
    end
  else table.

(** [indexExports(fileinfo)].  The keys of [mappings] are strings here, so
    the test [typeof key !== 'string'] never skips an entry. *)
Definition indexExports (fileinfo : FileInfo) : FileInfo :=
  set_exports fileinfo
    (fold_left (export_entry fileinfo (exportsAlias_final fileinfo))
       (mappings fileinfo) (exports_init fileinfo)).

(** [request[i]] for [i] 0 or 1 on what a slot holds: an element of the
    pair, a one-unit string (or [undefined]) of a longname, a [TypeError]
    on [null]. *)
Definition slot_at (request : slot) (i : nat) : result (option string) :=
  match request with
  | Request file exported =>
      Ok (match i with
          | 0 => Some file
          | 1 => Some exported
          | _ => None
          end)
  | Resolved longname =>
      Ok (match Js.slice i longname with
          | String c _ => Some (String c EmptyString)
          | EmptyString => None
          end)
  | Failed => Err TypeError
  end.

(** The body of the loop of [resolveImports]: what is stored under the
    name of the entry. *)
Definition resolve_request (reg : Registry) (request : slot) : result slot :=
  r0 <- slot_at request 0 ;;
  let importFrom :=
    match r0 with
    | Some file => fst (getFileInfo reg file false)
    | None => None
    end in
  match importFrom with
  | None => Ok Failed
  | Some importFrom =>
      r1 <- slot_at request 1 ;;
      let importName :=
        match r1 with
        | Some exported => if Js.truthy exported then exported else "*"
        | None => "*"
        end in
      match JsMap.get importName (exports importFrom) with
      | None => Ok Failed
      | Some longname =>
          if Js.truthy longname then Ok (Resolved longname) else Ok Failed
      end
  end.

(** The loop of [resolveImports] over the entries of the map: the value of
    the entry under the cursor is replaced in place and the iteration goes
    on with the next entry. *)
Fixpoint resolve_entries (reg : Registry) (entries : JsMap.t slot)
  : result (JsMap.t slot) :=
  match entries with
  | [] => Ok []
  | (name, request) :: rest =>
      v <- resolve_request reg request ;;
      rest' <- resolve_entries reg rest ;;
      Ok ((name, v) :: rest')
  end.

(** [resolveImports(fileinfo)], reading the registry [reg]. *)
Definition resolveImports (reg : Registry) (fileinfo : FileInfo)
  : result FileInfo :=
  let importAliases := localImportAliases fileinfo in
  if Nat.eqb (JsMap.size importAliases) 0 then Ok fileinfo
  else
    a <- resolve_entries reg importAliases ;;
    Ok (set_localImportAliases fileinfo a).

(** What [Array.prototype.join] makes of an element that is a string,
    [null] or a pair of strings. *)
Definition joined (v : slot) : string :=
  match v with
  | Resolved t => t
  | Failed => EmptyString
  | Request file exported => file ++ "," ++ exported
  end.

(** The callback of [actual.map] in [replaceTypes]; a string is carried as
    [Resolved]. *)
Definition replace_name (localNames : JsMap.t string) (aliases : JsMap.t slot)
    (t : string) : slot :=
  if JsMap.has t localNames then
    match JsMap.get t localNames with
    | Some longname => Resolved longname
    | None => Resolved t
    end
  else if JsMap.has t aliases then
    match JsMap.get t aliases with
    | Some v => v
    | None => Resolved t
    end
  else Resolved t.

(** The message of the error thrown by [replaceTypes]. *)
Definition parse_error (meta : Meta) : error :=
  ParseError ("Error parsing " ++ meta_filename meta ++ ":"
              ++ Js.of_number (meta_lineno meta) ++ ".").

(** [match[1]] rewritten: split, trimmed, mapped and joined. *)
Definition replace_actual (localNames : JsMap.t string)
    (aliases : JsMap.t slot) (match1 : string) : string :=
  let actual := List.map Js.trim (Js.split "," match1) in
  let actual := List.map (replace_name localNames aliases) actual in
  Js.join ", " (List.map joined actual).

(** [replaceTypes(name)], the closure of [modifyDoclet] over [localNames],
    [aliases] and [meta], with a bound on the depth of the recursion;
    [None] when the bound is reached. *)
Fixpoint replaceTypes_fuel (fuel : nat) (localNames : JsMap.t string)
    (aliases : JsMap.t slot) (meta : Meta) (name : string)
  : option (result string) :=
  match fuel with
  | O => None
  | S fuel' =>
      match Regex.exec Patterns.typeMatch name with
      | None => Some (Err (parse_error meta))
      | Some match_ =>
          let actual :=
            replace_actual localNames aliases (Patterns.group 1 match_) in
          match Regex.capture 2 (Regex.groups match_) with
          | None => Some (Ok actual)
          | Some extra =>
              if negb (Js.truthy extra) then Some (Ok actual)
              else
                match replaceTypes_fuel fuel' localNames aliases meta extra with
                | None => None
                | Some (Err e) => Some (Err e)
                | Some (Ok inner) => Some (Ok (actual ++ ".<" ++ inner ++ ">"))
                end
          end
      end
  end.

(** The generic argument is shorter than the expression it comes from, so
    the length of [name] bounds the depth and the bound is never reached
    (see [replaceTypes_fuel_enough] and [replaceTypes_unfold] below). *)
Definition replaceTypes (localNames : JsMap.t string) (aliases : JsMap.t slot)
    (meta : Meta) (name : string) : result string :=
  match replaceTypes_fuel (S (String.length name)) localNames aliases meta name with
  | Some r => r
  | None => Err TypeError
  end.

(** [replaceAllTypes(type)] on an entry of [params], [properties] or
    [returns]. *)
Definition replaceAllTypes (localNames : JsMap.t string)
    (aliases : JsMap.t slot) (meta : Meta) (item : Typed) : result Typed :=
  match type_names item with
  | None => Ok item
  | Some names =>
      names' <- mapM (replaceTypes localNames aliases meta) names ;;
      Ok {| type_names := Some names' |}
  end.

Definition replace_each {A : Type} (f : A -> result A) (field : option (list A))
  : result (option (list A)) :=
  match field with
  | None => Ok None
  | Some xs => xs' <- mapM f xs ;; Ok (Some xs')
  end.

(** [modifyDoclet(doclet)]: the doclet afterwards.  An exception leaves the
    run; the fields rewritten before it are not observed. *)
Definition modifyDoclet (reg : Registry) (doclet : Doclet) : result Doclet :=
  match d_meta doclet with
  | None => Ok doclet
  | Some meta =>
      let filename := path_resolve (meta_path meta) (meta_filename meta) in
      match fst (getFileInfo reg filename false) with
      | None => Ok doclet
      | Some fileinfo =>
          let aliases := localImportAliases fileinfo in
          let localNames := longnamesByDeclaration fileinfo in
          augments <- replace_each (replaceTypes localNames aliases meta)
                        (d_augments doclet) ;;
          properties <- replace_each (replaceAllTypes localNames aliases meta)
                          (d_properties doclet) ;;
          params <- replace_each (replaceAllTypes localNames aliases meta)
                      (d_params doclet) ;;
          returns <- replace_each (replaceAllTypes localNames aliases meta)
                       (d_returns doclet) ;;
          Ok {| d_kind := d_kind doclet;
                d_name := d_name doclet;
                d_longname := d_longname doclet;
                d_scope := d_scope doclet;
                d_meta := d_meta doclet;
                d_augments := augments;
                d_properties := properties;
                d_params := params;
                d_returns := returns |}
      end
  end.

(** The first loop of [processingComplete]. *)
Definition index_all (reg : Registry) : Registry :=
  List.map (fun kv => (fst kv, indexExports (snd kv))) reg.

(** The second loop: [done] holds the records already resolved, [todo]
    those to come; each call reads the registry as it is at that moment. *)
Fixpoint resolve_all (done todo : Registry) : result Registry :=
  match todo with
  | [] => Ok done
  | (file, info) :: rest =>
      info' <- resolveImports (done ++ (file, info) :: rest)%list info ;;
      resolve_all (done ++ [(file, info')])%list rest
  end.

(** The two loops together: the resolution barrier. *)
Definition barrier (reg : Registry) : result Registry :=
  resolve_all [] (index_all reg).

(** [processingComplete(e)]: the registry and [e.doclets] afterwards. *)
Definition processingComplete (reg : Registry) (doclets : list Doclet)
  : result (Registry * list Doclet) :=
  reg' <- barrier reg ;;
  doclets' <- mapM (modifyDoclet reg') doclets ;;
  Ok (reg', doclets').

(** ** A run of the host *)

Inductive event : Type :=
| BeforeParse (filename source : string)
| NewDoclet (doclet : Doclet).

Definition handle (reg : Registry) (ev : event) : result Registry :=
  match ev with
  | BeforeParse filename source => Ok (fst (beforeParse reg filename source))
  | NewDoclet doclet => newDoclet reg doclet
  end.

Fixpoint handle_all (reg : Registry) (evs : list event) : result Registry :=
  match evs with
  | [] => Ok reg
  | ev :: evs' => reg' <- handle reg ev ;; handle_all reg' evs'
  end.

(** The events of the files, then [processingComplete] on the doclets. *)
Definition full_run (evs : list event) (doclets : list Doclet)
  : result (Registry * list Doclet) :=
  reg <- handle_all JsMap.empty evs ;;
  processingComplete reg doclets.

End Plugin.

(** ** Node's [path] on POSIX, for absolute directories *)

Module Posix.

Definition segments (p : string) : list string := Js.split "/" p.

(** Drops [.] and empty segments and lets [..] remove the segment before
    it; [acc] is reversed. *)
Fixpoint normalize (acc : list string) (segs : list string) : list string :=
  match segs with
  | [] => List.rev acc
  | seg :: rest =>
      if String.eqb seg "" || String.eqb seg "." then normalize acc rest
      else if String.eqb seg ".." then normalize (List.tl acc) rest
      else normalize (seg :: acc) rest
  end.

Definition absolute (segs : list string) : string :=
  "/" ++ Js.join "/" segs.

(** [path.resolve(from, to)] when [from] is absolute. *)
Definition resolve (from to : string) : string :=
  if Js.startsWith to "/" then absolute (normalize [] (segments to))
  else absolute (normalize [] (segments from ++ segments to)%list).

(** [path.dirname(p)] for an absolute [p], in normal form. *)
Definition dirname (p : string) : string :=
  absolute (List.removelast (normalize [] (segments p))).

End Posix.

(** * Properties *)

(** ** Strings *)

Module JsFacts.
Import Js.

Lemma length_take_le (n : nat) (s : string) :
  String.length (take n s) <= String.length s.
Proof.
  revert n; induction s as [|a s IH]; intros [|n]; simpl; auto with arith.
Qed.

Lemma take_all (s : string) : take (String.length s) s = s.
Proof.
  induction s as [|a s IH]; simpl; [reflexivity | now rewrite IH].
Qed.

Lemma take_app (s t : string) : take (String.length s) (s ++ t) = s.
Proof.
  induction s as [|a s IH]; simpl.
  - now destruct t.
  - now rewrite IH.
Qed.

Lemma slice_app (s t : string) : slice (String.length s) (s ++ t) = t.
Proof.
  induction s as [|a s IH]; simpl; auto.
Qed.

Lemma length_app (s t : string) :
  String.length (s ++ t) = String.length s + String.length t.
Proof.
  induction s as [|a s IH]; simpl; auto.
Qed.

Lemma app_assoc (s t u : string) : ((s ++ t) ++ u = s ++ (t ++ u))%string.
Proof.
  induction s as [|a s IH]; simpl; [reflexivity | now rewrite IH].
Qed.

Lemma prefix_app (p s : string) : String.prefix p (p ++ s) = true.
Proof.
  induction p as [|a p IH]; simpl.
  - now destruct s.
  - destruct (ascii_dec a a) as [_|n]; [exact IH | now elim n].
Qed.

Lemma prefix_split (p s : string) :
  String.prefix p s = true -> s = (p ++ slice (String.length p) s)%string.
Proof.
  revert s; induction p as [|a p IH]; intros [|b s] H; simpl in *;
    try reflexivity; try discriminate.
  destruct (ascii_dec a b) as [->|]; [|discriminate].
  now rewrite <- IH.
Qed.

Lemma app_inv_head (p s t : string) : (p ++ s = p ++ t)%string -> s = t.
Proof.
  induction p as [|a p IH]; simpl; intros H; [exact H|].
  injection H as H. auto.
Qed.

Lemma truthy_true (s : string) : truthy s = true <-> s <> EmptyString.
Proof.
  destruct s; simpl; split; intros; try congruence; auto.
Qed.

End JsFacts.

(** ** Maps *)

Module JsMapFacts.
Import JsMap.

Section WithValues.
Context {V : Type}.
Implicit Types (m : t V) (k : string) (v : V).

Lemma get_set_same k v m : get k (set k v m) = Some v.
Proof.
  induction m as [|[k' v'] m IH]; simpl.
  - now rewrite String.eqb_refl.
  - destruct (String.eqb k k') eqn:E; simpl; rewrite ?String.eqb_refl, ?E; auto.
Qed.

Lemma get_set_other k k' v m : k <> k' -> get k (set k' v m) = get k m.
Proof.
  intros N. induction m as [|[k2 v2] m IH]; simpl.
  - apply String.eqb_neq in N. now rewrite N.
  - destruct (String.eqb k' k2) eqn:E; simpl.
    + apply String.eqb_eq in E; subst k2.
      apply String.eqb_neq in N. now rewrite N.
    + destruct (String.eqb k k2); auto.
Qed.

Lemma get_set k k' v m :
  get k (set k' v m) = if String.eqb k k' then Some v else get k m.
Proof.
  destruct (String.eqb k k') eqn:E.
  - apply String.eqb_eq in E; subst. apply get_set_same.
  - apply String.eqb_neq in E. now apply get_set_other.
Qed.

Lemma get_In k v m : get k m = Some v -> In (k, v) m.
Proof.
  induction m as [|[k' v'] m IH]; simpl; [discriminate|].
  destruct (String.eqb k k') eqn:E.
  - apply String.eqb_eq in E; subst. intros [= ->]. now left.
  - intros H. right. auto.
Qed.

Lemma In_get k v m : NoDup (keys m) -> In (k, v) m -> get k m = Some v.
Proof.
  induction m as [|[k' v'] m IH]; simpl; [tauto|].
  intros ND [H|H].
  - inversion H; subst. now rewrite String.eqb_refl.
  - inversion ND as [|? ? NI ND']; subst.
    destruct (String.eqb k k') eqn:E.
    + apply String.eqb_eq in E; subst.
      elim NI. change k' with (fst (k', v)). now apply in_map.
    + auto.
Qed.

Lemma get_None_keys k m : get k m = None <-> ~ In k (keys m).
Proof.
  induction m as [|[k' v'] m IH]; simpl; [tauto|].
  destruct (String.eqb k k') eqn:E.
  - apply String.eqb_eq in E; subst. split; [discriminate | intros H; elim H; now left].
  - apply String.eqb_neq in E. rewrite IH. split; intros H; [intros [?|?]; [congruence|tauto] | tauto].
Qed.

Lemma keys_set_In k v m : In k (keys m) -> keys (set k v m) = keys m.
Proof.
  induction m as [|[k' v'] m IH]; simpl; [tauto|].
  intros H. destruct (String.eqb k k') eqn:E; simpl.
  - apply String.eqb_eq in E; now subst.
  - apply String.eqb_neq in E. f_equal. apply IH. destruct H; congruence.
Qed.

Lemma keys_set_fresh k v m : ~ In k (keys m) -> keys (set k v m) = (keys m ++ [k])%list.
Proof.
  induction m as [|[k' v'] m IH]; simpl; [reflexivity|].
  intros H. destruct (String.eqb k k') eqn:E; simpl.
  - apply String.eqb_eq in E; subst. elim H; now left.
  - f_equal. apply IH. tauto.
Qed.

Lemma NoDup_set k v m : NoDup (keys m) -> NoDup (keys (set k v m)).
Proof.
  intros ND. destruct (in_dec string_dec k (keys m)) as [I|NI].
  - now rewrite keys_set_In.
  - rewrite keys_set_fresh by assumption.
    apply NoDup_app; [assumption | repeat constructor; simpl; tauto |].
    intros x Hx [<-|[]]. contradiction.
Qed.

Lemma In_keys_set k k' v m : In k (keys (set k' v m)) <-> k = k' \/ In k (keys m).
Proof.
  destruct (in_dec string_dec k' (keys m)) as [I|NI].
  - rewrite keys_set_In by assumption. split; [tauto | intros [->|]; auto].
  - rewrite keys_set_fresh by assumption. rewrite in_app_iff. simpl.
    split; [intros [?|[?|[]]]; auto | intros [?|?]; auto].
Qed.

End WithValues.
End JsMapFacts.

(** ** The matcher *)

Module RegexFacts.
Import Regex.

Lemma length_consumed (s s' : string) :
  String.length (consumed s s') <= String.length s.
Proof. apply JsFacts.length_take_le. Qed.

(** Group [i], when it holds a text, holds one of at most [n] units. *)
Definition cap_le (i n : nat) (c : caps) : Prop :=
  forall t, capture i c = Some t -> String.length t <= n.

Lemma cap_le_nil (i n : nat) : cap_le i n [].
Proof. intros t H; discriminate. Qed.

Lemma cap_le_cons (i n j : nat) (t : string) (c : caps) :
  (j = i -> String.length t <= n) -> cap_le i n c -> cap_le i n ((j, t) :: c).
Proof.
  intros Ht Hc u; simpl.
  destruct (Nat.eqb i j) eqn:E.
  - apply Nat.eqb_eq in E. intros [= <-]. auto.
  - apply Hc.
Qed.

(** A successful run ends in its continuation, on an input that is not
    longer, and the groups it fills hold parts of its own input. *)
Definition sound_step (i n : nat)
    (body : string -> caps -> cont -> option (string * caps)) : Prop :=
  forall s c k x,
    String.length s <= n -> cap_le i n c -> body s c k = Some x ->
    exists s' c', k s' c' = Some x /\ String.length s' <= String.length s
                  /\ cap_le i n c'.

Lemma star_loop_sound (i n : nat) body (greedy : bool) :
  sound_step i n body -> forall fuel, sound_step i n
    (fun s c k => star_loop body greedy k fuel s c).
Proof.
  intros Hb fuel; induction fuel as [|fuel IH]; intros s c k x Hs Hc H; simpl in H.
  - exists s, c; auto.
  - assert (Hagain : body s c (fun s' c' =>
              if Nat.ltb (String.length s') (String.length s)
              then star_loop body greedy k fuel s' c' else None) = Some x ->
            exists s' c', k s' c' = Some x /\ String.length s' <= String.length s
                          /\ cap_le i n c').
    { intros H1. destruct (Hb _ _ _ _ Hs Hc H1) as (s1 & c1 & K1 & L1 & C1).
      destruct (Nat.ltb (String.length s1) (String.length s)); [|discriminate].
      destruct (IH s1 c1 k x) as (s2 & c2 & K2 & L2 & C2); auto; [lia|].
      exists s2, c2; repeat split; auto; lia. }
    destruct greedy.
    + destruct (body s c _) eqn:E.
      * injection H as ->. auto.
      * exists s, c; auto.
    + destruct (k s c) eqn:E.
      * injection H as ->. exists s, c; auto.
      * auto.
Qed.

Lemma run_sound (i n : nat) (r : regex) : sound_step i n (run r).
Proof.
  induction r as [p| |r1 IH1 r2 IH2|r1 IH1 r2 IH2|g r IH|j r IH|];
    intros s c k x Hs Hc H; simpl in H.
  - destruct s as [|a s]; [discriminate|].
    destruct (p a); [|discriminate].
    exists s, c; simpl; auto.
  - exists s, c; auto.
  - destruct (IH1 _ _ _ _ Hs Hc H) as (s1 & c1 & K1 & L1 & C1).
    destruct (IH2 s1 c1 k x) as (s2 & c2 & K2 & L2 & C2); auto; [lia|].
    exists s2, c2; repeat split; auto; lia.
  - destruct (run r1 s c k) eqn:E.
    + injection H as ->. eauto.
    + eauto.
  - eapply star_loop_sound; eauto.
  - destruct (IH _ _ _ _ Hs Hc H) as (s1 & c1 & K1 & L1 & C1).
    exists s1, ((j, consumed s s1) :: c1); repeat split; auto.
    apply cap_le_cons; auto. intros _.
    pose proof (length_consumed s s1). lia.
  - destruct s; [|discriminate]. exists EmptyString, c; auto.
Qed.

(** The backtracking of a greedy star over one class: the continuation is
    tried behind the longest run of the class first, then one unit back,
    and so on. *)
Fixpoint greedy (p : ascii -> bool) (k : cont) (s : string) (c : caps)
  : option (string * caps) :=
  match s with
  | String a s' =>
      if p a then
        match greedy p k s' c with
        | Some x => Some x
        | None => k s c
        end
      else k s c
  | EmptyString => k s c
  end.

Lemma star_loop_chr (p : ascii -> bool) (k : cont) (n : nat) (s : string) (c : caps) :
  String.length s <= n ->
  star_loop (run (Chr p)) true k n s c = greedy p k s c.
Proof.
  revert s; induction n as [|n IH]; intros [|a s] H; simpl in *;
    try reflexivity; try lia.
  destruct (p a); [|reflexivity].
  replace (Nat.ltb (String.length s) (S (String.length s))) with true
    by (symmetry; apply Nat.ltb_lt; lia).
  rewrite IH by lia. reflexivity.
Qed.

Lemma run_star_chr (p : ascii -> bool) (k : cont) (s : string) (c : caps) :
  run (Star true (Chr p)) s c k = greedy p k s c.
Proof. simpl. now apply star_loop_chr. Qed.

(** All the units of [s] are in the class [p]. *)
Fixpoint all (p : ascii -> bool) (s : string) : bool :=
  match s with
  | EmptyString => true
  | String a s' => p a && all p s'
  end.

Lemma all_app (p : ascii -> bool) (s t : string) :
  all p (s ++ t) = all p s && all p t.
Proof.
  induction s as [|a s IH]; simpl; [reflexivity|].
  now rewrite IH, andb_assoc.
Qed.

(** When the class covers the whole input, the end of the input is tried
    first. *)
Lemma greedy_to_end (p : ascii -> bool) (k : cont) (s : string) (c : caps) x :
  all p s = true -> k EmptyString c = Some x -> greedy p k s c = Some x.
Proof.
  induction s as [|a s IH]; simpl; intros Hs Hk; [exact Hk|].
  apply andb_prop in Hs as [Ha Hs]. rewrite Ha, IH; auto.
Qed.

(** When the continuation refuses the end of the input and everything but
    the last unit [g], the place in front of [g] is where it is tried
    next. *)
Lemma greedy_last (p : ascii -> bool) (k : cont) (s : string) (g : ascii)
    (c : caps) x :
  all p s = true -> p g = true ->
  k EmptyString c = None -> k (String g EmptyString) c = Some x ->
  greedy p k (s ++ String g EmptyString) c = Some x.
Proof.
  intros Hs Hg He Hk. induction s as [|a s IH]; simpl.
  - now rewrite Hg, He.
  - simpl in Hs. apply andb_prop in Hs as [Ha Hs]. rewrite Ha, IH; auto.
Qed.

(** The run stops in front of a unit outside the class. *)
Lemma greedy_stop (p : ascii -> bool) (k : cont) (s : string) (a : ascii)
    (t : string) (c : caps) x :
  all p s = true -> p a = false ->
  k (String a t) c = Some x ->
  greedy p k (s ++ String a t) c = Some x.
Proof.
  intros Hs Ha Hk. induction s as [|b s IH]; simpl.
  - now rewrite Ha.
  - simpl in Hs. apply andb_prop in Hs as [Hb Hs]. rewrite Hb, IH; auto.
Qed.

Lemma exec_sound (r : regex) (s : string) (f : found) :
  exec r s = Some f ->
  exists s0, String.length s0 <= String.length s /\
             run r s0 [] (fun s' c => Some (s', c)) = Some (after f, groups f).
Proof.
  revert f; induction s as [|a s IH]; intros f; simpl.
  - destruct (run r EmptyString [] _) as [[rest c]|] eqn:E; [|discriminate].
    intros [= <-]; simpl. exists EmptyString; auto.
  - destruct (run r (String a s) [] _) as [[rest c]|] eqn:E.
    + intros [= <-]; simpl. exists (String a s); auto.
    + destruct (exec r s) as [f'|]; [|discriminate].
      intros [= <-]; simpl. destruct (IH f' eq_refl) as (s0 & L & R).
      exists s0; split; [simpl; lia | exact R].
Qed.

End RegexFacts.

(** ** The expression of [replaceTypes] *)

Module TypeMatchFacts.
Import Regex RegexFacts Patterns.

Definition accept : cont := fun s' c => Some (s', c).

(** What follows group 1 in [typeMatch]. *)
Definition generic : regex :=
  Seq (Opt (Seq (Chr Js.is_dot)
                (Seq (Chr (Js.is_char "<"))
                     (Seq (Group 2 (Star true (Chr Js.is_dot)))
                          (Chr (Js.is_char ">"))))))
      End.

Definition after_names (s : string) : cont :=
  fun s' c' => run generic s' ((1, consumed s s') :: c') accept.

Lemma run_typeMatch (s : string) :
  run typeMatch s [] accept =
  match s with
  | String a s1 =>
      if name_list_unit a then greedy name_list_unit (after_names s) s1 []
      else None
  | EmptyString => None
  end.
Proof.
  destruct s as [|a s1]; [reflexivity|].
  unfold typeMatch, Plus. cbn [run].
  destruct (name_list_unit a); [|reflexivity].
  apply star_loop_chr; auto.
Qed.

Lemma exec_head (r : regex) (s rest : string) (c : caps) :
  run r s [] accept = Some (rest, c) ->
  exec r s = Some {| before := EmptyString; matched := consumed s rest;
                     groups := c; after := rest |}.
Proof.
  intros H. unfold accept in H. destruct s; simpl; now rewrite H.
Qed.

(** The generic argument is shorter than the expression. *)
Lemma extra_shorter (name : string) (f : found) (extra : string) :
  exec typeMatch name = Some f ->
  capture 2 (groups f) = Some extra ->
  String.length extra < String.length name.
Proof.
  intros H C. apply exec_sound in H as (s0 & L & R).
  fold accept in R. rewrite run_typeMatch in R.
  destruct s0 as [|a s1]; [discriminate|].
  destruct (name_list_unit a); [|discriminate].
  rewrite <- run_star_chr in R.
  apply (@run_sound 2 (String.length s1)) in R
    as (s' & c' & K & L' & C'); auto using cap_le_nil.
  unfold after_names in K.
  apply (@run_sound 2 (String.length s1)) in K
    as (s'' & c'' & K' & L'' & C'');
    [| assumption | apply cap_le_cons; [discriminate | assumption]].
  unfold accept in K'. injection K' as _ E. rewrite <- E in C.
  apply C'' in C. simpl in L. lia.
Qed.

(** A name list alone: the whole input is group 1 and group 2 is not
    set. *)
Lemma exec_names (s : string) :
  s <> EmptyString -> all name_list_unit s = true ->
  exec typeMatch s =
  Some {| before := EmptyString; matched := s; groups := [(1, s)];
          after := EmptyString |}.
Proof.
  intros N A.
  assert (R : run typeMatch s [] accept = Some (EmptyString, [(1, s)])).
  { rewrite run_typeMatch. destruct s as [|a s1]; [congruence|].
    simpl in A. apply andb_prop in A as [Ha A]. rewrite Ha.
    apply greedy_to_end; auto.
    unfold after_names, consumed. simpl String.length. rewrite Nat.sub_0_r.
    change (S (String.length s1)) with (String.length (String a s1)).
    rewrite JsFacts.take_all. reflexivity. }
  apply exec_head in R. rewrite R. unfold consumed. simpl String.length.
  rewrite Nat.sub_0_r, JsFacts.take_all. reflexivity.
Qed.

(** A name list, a dot and a generic argument in brackets. *)
Lemma exec_generic (base inner : string) :
  base <> EmptyString -> all name_list_unit base = true ->
  all Js.is_dot inner = true ->
  exec typeMatch (base ++ ".<" ++ inner ++ ">") =
  Some {| before := EmptyString; matched := base ++ ".<" ++ inner ++ ">";
          groups := [(2, inner); (1, base)]; after := EmptyString |}.
Proof.
  intros N A D.
  set (name := base ++ ".<" ++ inner ++ ">").
  assert (R : run typeMatch name [] accept
              = Some (EmptyString, [(2, inner); (1, base)])).
  { rewrite run_typeMatch. subst name.
    destruct base as [|a base1]; [congruence|].
    simpl in A. apply andb_prop in A as [Ha A].
    cbn [append]. rewrite Ha.
    apply greedy_stop; auto.
    unfold after_names, generic, Opt. cbn [run].
    change (Js.is_dot ".") with true. change (Js.is_char "<" "<") with true.
    cbv iota.
    match goal with
    | |- context [star_loop ?b true ?k ?n ?s ?c] =>
        change (star_loop b true k n s c)
          with (star_loop (run (Chr Js.is_dot)) true k n s c)
    end.
    rewrite star_loop_chr by auto.
    erewrite greedy_last; eauto.
    cbn [run]. change (Js.is_char ">" ">") with true. cbv iota beta.
    unfold accept, consumed. repeat f_equal.
    - rewrite JsFacts.length_app. simpl String.length.
      replace (String.length inner + 1 - 1) with (String.length inner) by lia.
      apply JsFacts.take_app.
    - change (String a (base1 ++ String "." (String "<" (inner ++ ">"))))
        with (String a base1 ++ String "." (String "<" (inner ++ ">"))).
      rewrite JsFacts.length_app.
      replace (String.length (String a base1) + _ - _)
        with (String.length (String a base1)) by (simpl; lia).
      apply JsFacts.take_app. }
  apply exec_head in R. rewrite R. unfold consumed. simpl String.length.
  rewrite Nat.sub_0_r, JsFacts.take_all. reflexivity.
Qed.

End TypeMatchFacts.

(** ** The type rewriter *)

Module RewriterFacts.
Import Regex RegexFacts Patterns TypeMatchFacts.

Section Closure.
Variable localNames : JsMap.t string.
Variable aliases : JsMap.t slot.
Variable meta : Meta.

Lemma replaceTypes_fuel_enough (n : nat) (name : string) :
  String.length name < n ->
  replaceTypes_fuel n localNames aliases meta name
  = Some (replaceTypes localNames aliases meta name).
Proof.
  assert (stable : forall n m name,
             String.length name < n -> String.length name < m ->
             replaceTypes_fuel n localNames aliases meta name
             = replaceTypes_fuel m localNames aliases meta name
             /\ replaceTypes_fuel n localNames aliases meta name <> None).
  { clear n name. induction n as [|n IH]; intros [|m] name Hn Hm; try lia.
    simpl. destruct (exec typeMatch name) as [f|] eqn:E; [|split; congruence].
    destruct (capture 2 (groups f)) as [extra|] eqn:C; [|split; congruence].
    destruct (Js.truthy extra); simpl; [|split; congruence].
    pose proof (extra_shorter _ E C) as L.
    destruct (IH m extra) as [Eq NN]; try lia.
    rewrite <- Eq.
    destruct (replaceTypes_fuel n localNames aliases meta extra) as [[r|e]|];
      split; congruence. }
  intros H. unfold replaceTypes.
  destruct (stable n (S (String.length name)) name H) as [Eq NN]; [lia|].
  rewrite <- Eq.
  destruct (replaceTypes_fuel n localNames aliases meta name); congruence.
Qed.

(** The equation of [replaceTypes], as the source has it. *)
Lemma replaceTypes_unfold (name : string) :
  replaceTypes localNames aliases meta name =
  match exec typeMatch name with
  | None => Err (parse_error meta)
  | Some match_ =>
      let actual := replace_actual localNames aliases (group 1 match_) in
      match capture 2 (groups match_) with
      | None => Ok actual
      | Some extra =>
          if negb (Js.truthy extra) then Ok actual
          else inner <- replaceTypes localNames aliases meta extra ;;
               Ok (actual ++ ".<" ++ inner ++ ">")
      end
  end.
Proof.
  unfold replaceTypes at 1. simpl.
  destruct (exec typeMatch name) as [f|] eqn:E; [|reflexivity].
  destruct (capture 2 (groups f)) as [extra|] eqn:C; [|reflexivity].
  destruct (Js.truthy extra); simpl; [|reflexivity].
  rewrite replaceTypes_fuel_enough by (apply (extra_shorter _ E C)).
  destruct (replaceTypes localNames aliases meta extra); reflexivity.
Qed.

(** [extra] is the generic argument on which [replaceTypes(name)] calls
    itself. *)
Definition argument_of (name extra : string) : Prop :=
  exists match_,
    exec typeMatch name = Some match_ /\
    capture 2 (groups match_) = Some extra /\
    Js.truthy extra = true.

(** The strings a call of [replaceTypes] processes: its argument, and the
    generic arguments the recursion goes through. *)
Inductive processed (name : string) : string -> Prop :=
| processed_here : processed name name
| processed_inner extra t :
    argument_of name extra -> processed extra t -> processed name t.

Lemma processed_unmatched (name t : string) (f : found) :
  processed name t -> exec typeMatch t = None ->
  exec typeMatch name = Some f ->
  exists extra, capture 2 (groups f) = Some extra /\
                Js.truthy extra = true /\ processed extra t.
Proof.
  intros P N E. destruct P as [|extra t A P]; [congruence|].
  destruct A as (f' & E' & C' & T').
  assert (f' = f) by congruence; subst. eauto.
Qed.

Lemma replaceTypes_error_iff_len (n : nat) :
  forall name, String.length name < n ->
  forall e, replaceTypes localNames aliases meta name = Err e <->
            e = parse_error meta /\
            exists t, processed name t /\ exec typeMatch t = None.
Proof.
  induction n as [|n IH]; intros name Hn e; [lia|].
  rewrite replaceTypes_unfold.
  destruct (exec typeMatch name) as [f|] eqn:E.
  - cbv zeta. split.
    + destruct (capture 2 (groups f)) as [extra|] eqn:C; [|discriminate].
      destruct (Js.truthy extra) eqn:T; simpl; [|discriminate].
      pose proof (extra_shorter _ E C) as L.
      destruct (replaceTypes localNames aliases meta extra) as [r|e'] eqn:R;
        simpl; [discriminate|].
      intros [= <-].
      apply IH in R as (-> & t & P & N); [|lia].
      split; [reflexivity|]. exists t; split; [|assumption].
      apply processed_inner with extra; [exists f; auto | assumption].
    + intros (-> & t & P & N).
      destruct (processed_unmatched P N E) as (extra & C & T & P').
      rewrite C, T. simpl.
      pose proof (extra_shorter _ E C) as L.
      assert (R : replaceTypes localNames aliases meta extra
                  = Err (parse_error meta)).
      { apply IH; [lia|]. eauto. }
      now rewrite R.
  - split.
    + intros [= <-]. split; [reflexivity|].
      exists name; split; [constructor | assumption].
    + intros [-> _]. reflexivity.
Qed.

(** The errors of [replaceTypes] are parse errors, raised exactly when a
    processed string does not match. *)
Lemma replaceTypes_error_iff (name : string) (e : error) :
  replaceTypes localNames aliases meta name = Err e <->
  e = parse_error meta /\
  exists t, processed name t /\ exec typeMatch t = None.
Proof.
  apply (replaceTypes_error_iff_len (n := S (String.length name))). lia.
Qed.

(** One level of generic nesting. *)
Lemma replaceTypes_generic (base inner : string) :
  base <> EmptyString -> all name_list_unit base = true ->
  inner <> EmptyString -> all Js.is_dot inner = true ->
  replaceTypes localNames aliases meta (base ++ ".<" ++ inner ++ ">") =
  (r <- replaceTypes localNames aliases meta inner ;;
   Ok (replace_actual localNames aliases base ++ ".<" ++ r ++ ">")).
Proof.
  intros Nb Ab Ni Di. rewrite replaceTypes_unfold.
  rewrite exec_generic by assumption. unfold group. simpl.
  apply JsFacts.truthy_true in Ni. now rewrite Ni.
Qed.

(** A name list alone. *)
Lemma replaceTypes_names (s : string) :
  s <> EmptyString -> all name_list_unit s = true ->
  replaceTypes localNames aliases meta s
  = Ok (replace_actual localNames aliases s).
Proof.
  intros N A. rewrite replaceTypes_unfold.
  rewrite exec_names by assumption. reflexivity.
Qed.

(** A name that is a key of neither map is left as it is. *)
Lemma replace_name_unknown (t : string) :
  JsMap.has t localNames = false -> JsMap.has t aliases = false ->
  joined (replace_name localNames aliases t) = t.
Proof.
  intros H1 H2. unfold replace_name. now rewrite H1, H2.
Qed.

Lemma replace_names_unknown (ts : list string) :
  (forall t, In t ts ->
             JsMap.has t localNames = false /\ JsMap.has t aliases = false) ->
  List.map joined (List.map (replace_name localNames aliases) ts) = ts.
Proof.
  induction ts as [|t ts IH]; simpl; intros H; [reflexivity|].
  rewrite replace_name_unknown by (apply H; now left).
  rewrite IH; auto.
Qed.

End Closure.
End RewriterFacts.

(** * The claims on the type rewriter *)

Unset Implicit Arguments.

Import Regex RegexFacts Patterns TypeMatchFacts RewriterFacts.

(** [Outer.<Outer.<...<inner>...>>], one level for each name list of
    [bases]. *)
Fixpoint wrap (bases : list string) (inner : string) : string :=
  match bases with
  | [] => inner
  | base :: rest => base ++ ".<" ++ wrap rest inner ++ ">"
  end.

(** A name list of one line: units of the class of [typeMatch], none of
    them a line terminator. *)
Definition name_list (base : string) : Prop :=
  base <> EmptyString /\ all name_list_unit base = true
  /\ all Js.is_dot base = true.

(** The [meta] of a doclet of [b.js], line 12, that is not read otherwise. *)
Definition meta_b : Meta :=
  {| meta_path := "/proj"; meta_filename := "b.js"; meta_lineno := 12;
     meta_code := {| code_name := "f"; code_type := "FunctionDeclaration";
                     code_value := "" |} |}.

Lemma wrap_shape (bases : list string) (inner : string) :
  Forall name_list bases -> inner <> EmptyString ->
  all Js.is_dot inner = true ->
  wrap bases inner <> EmptyString /\ all Js.is_dot (wrap bases inner) = true.
Proof.
  intros F N D. induction F as [|base rest (Nb & _ & Db) F IH]; simpl.
  - auto.
  - destruct IH as [_ IH]. split.
    + destruct base; [congruence | discriminate].
    + rewrite !all_app, Db. simpl. rewrite all_app, IH. reflexivity.
Qed.

(** C6.  Generic nesting round-trip.  At every depth, an expression
    [Outer.<...<inner>...>], given by the name lists [bases] from the
    outside in, is rewritten by rewriting [inner], rewriting every name list
    and putting the parts together again with the same brackets.  When the
    alias [Foo] is resolved to [pkg.Foo] (and neither [Foo] nor [Array] is
    declared in the file, and [Array] is no alias),
    [Array.<Array.<Foo>>] becomes [Array.<Array.<pkg.Foo>>]. *)
Theorem generic_nesting_roundtrip (localNames : JsMap.t string)
    (aliases : JsMap.t slot) (meta : Meta) :
  (forall bases inner result,
      Forall name_list bases ->
      inner <> EmptyString -> all Js.is_dot inner = true ->
      replaceTypes localNames aliases meta inner = Ok result ->
      replaceTypes localNames aliases meta (wrap bases inner)
      = Ok (wrap (List.map (replace_actual localNames aliases) bases) result))
  /\
  (JsMap.get "Foo" localNames = None ->
   JsMap.get "Array" localNames = None ->
   JsMap.get "Array" aliases = None ->
   JsMap.get "Foo" aliases = Some (Resolved "pkg.Foo") ->
   replaceTypes localNames aliases meta "Array.<Array.<Foo>>"
   = Ok "Array.<Array.<pkg.Foo>>").
Proof.
  assert (G : forall bases inner result,
      Forall name_list bases ->
      inner <> EmptyString -> all Js.is_dot inner = true ->
      replaceTypes localNames aliases meta inner = Ok result ->
      replaceTypes localNames aliases meta (wrap bases inner)
      = Ok (wrap (List.map (replace_actual localNames aliases) bases) result)).
  { intros bases inner result F N D R.
    induction F as [|base rest Hb F IH]; cbn [wrap List.map]; [exact R|].
    destruct (wrap_shape rest inner F N D) as [Nw Dw].
    destruct Hb as (Nb & Ab & _).
    rewrite replaceTypes_generic by assumption.
    now rewrite IH. }
  split; [exact G|].
  intros LF LA AA AF.
  assert (A : replace_actual localNames aliases "Array" = "Array").
  { unfold replace_actual.
    change (List.map Js.trim (Js.split "," "Array")) with ["Array"].
    unfold replace_name, JsMap.has. cbn [List.map]. now rewrite LA, AA. }
  assert (R : replaceTypes localNames aliases meta "Foo" = Ok "pkg.Foo").
  { rewrite replaceTypes_names by (try discriminate; reflexivity).
    unfold replace_actual.
    change (List.map Js.trim (Js.split "," "Foo")) with ["Foo"].
    unfold replace_name, JsMap.has. cbn [List.map]. now rewrite LF, AF. }
  assert (NL : name_list "Array") by (repeat split; discriminate).
  specialize (G ["Array"; "Array"] "Foo" "pkg.Foo").
  simpl in G. rewrite A in G. apply G; auto; discriminate.
Qed.

Lemma generic_nesting_roundtrip_witness :
  replaceTypes [] [("Foo", Resolved "pkg.Foo")] meta_b (wrap ["Array"; "Array"] "Foo")
  = Ok (wrap ["Array"; "Array"] "pkg.Foo").
Proof.
  apply (proj1 (generic_nesting_roundtrip [] [("Foo", Resolved "pkg.Foo")] meta_b)
           ["Array"; "Array"] "Foo" "pkg.Foo").
  - repeat constructor; discriminate.
  - discriminate.
  - reflexivity.
  - reflexivity.
Defined.

(** * The registry and the handlers *)

Module RegistryFacts.
Import JsMap JsMapFacts.

Lemma set_set {V : Type} (k : string) (v v' : V) (m : t V) :
  set k v (set k v' m) = set k v m.
Proof.
  induction m as [|[k2 v2] m IH]; simpl.
  - now rewrite String.eqb_refl.
  - destruct (String.eqb k k2) eqn:E; simpl.
    + now rewrite String.eqb_refl.
    + now rewrite E, IH.
Qed.

Lemma Forall_set {V : Type} (P : string * V -> Prop) (k : string) (v : V)
    (m : t V) :
  Forall P m -> P (k, v) -> Forall P (set k v m).
Proof.
  intros F H. induction F as [|[k2 v2] m H2 F IH]; simpl.
  - auto.
  - destruct (String.eqb k k2); constructor; auto.
Qed.

Lemma get_Forall {V : Type} (P : string * V -> Prop) (k : string) (v : V)
    (m : t V) :
  Forall P m -> get k m = Some v -> P (k, v).
Proof.
  intros F G. apply get_In in G. rewrite Forall_forall in F. auto.
Qed.

Lemma get_map {V W : Type} (f : string -> V -> W) (k : string) (m : t V) :
  get k (List.map (fun kv => (fst kv, f (fst kv) (snd kv))) m)
  = option_map (f k) (get k m).
Proof.
  induction m as [|[k2 v2] m IH]; simpl; [reflexivity|].
  destruct (String.eqb k k2) eqn:E; [|exact IH].
  apply String.eqb_eq in E; now subst.
Qed.

Lemma keys_map {V W : Type} (f : string -> V -> W) (m : t V) :
  keys (List.map (fun kv => (fst kv, f (fst kv) (snd kv))) m) = keys m.
Proof.
  unfold keys. rewrite List.map_map. reflexivity.
Qed.

(** The record of [filename], or the one [getFileInfo] would make. *)
Definition record_of (filename : string) (o : option FileInfo) : FileInfo :=
  match o with
  | Some fi => fi
  | None => new_FileInfo filename
  end.

Lemma update_FileInfo_set (reg : Registry) (filename : string)
    (f : FileInfo -> FileInfo) :
  update_FileInfo reg filename f
  = set filename (f (record_of filename (get filename reg))) reg.
Proof.
  unfold update_FileInfo, getFileInfo. simpl.
  destruct (get filename reg); simpl; [reflexivity | apply set_set].
Qed.

Lemma get_update (reg : Registry) (filename k : string)
    (f : FileInfo -> FileInfo) :
  get k (update_FileInfo reg filename f)
  = if String.eqb k filename
    then Some (f (record_of filename (get filename reg)))
    else get k reg.
Proof. rewrite update_FileInfo_set. apply get_set. Qed.

(** The in-place updates of one record, one after the other. *)
Definition apply_updates (filename : string)
    (fs : list (FileInfo -> FileInfo)) (reg : Registry) : Registry :=
  fold_left (fun r f => update_FileInfo r filename f) fs reg.

(** What they make of the record of [filename]. *)
Definition updated (filename : string) (fs : list (FileInfo -> FileInfo))
    (o : option FileInfo) : option FileInfo :=
  fold_left (fun o f => Some (f (record_of filename o))) fs o.

Lemma get_apply_updates (filename k : string)
    (fs : list (FileInfo -> FileInfo)) (reg : Registry) :
  get k (apply_updates filename fs reg)
  = if String.eqb k filename then updated filename fs (get k reg)
    else get k reg.
Proof.
  revert reg; induction fs as [|f fs IH]; intros reg.
  - simpl. now destruct (String.eqb k filename).
  - change (apply_updates filename (f :: fs) reg)
      with (apply_updates filename fs (update_FileInfo reg filename f)).
    rewrite IH, get_update.
    destruct (String.eqb k filename) eqn:E; [|reflexivity].
    apply String.eqb_eq in E; now subst.
Qed.

Lemma NoDup_apply_updates (filename : string)
    (fs : list (FileInfo -> FileInfo)) (reg : Registry) :
  NoDup (keys reg) -> NoDup (keys (apply_updates filename fs reg)).
Proof.
  revert reg; induction fs as [|f fs IH]; intros reg H; [exact H|].
  change (apply_updates filename (f :: fs) reg)
    with (apply_updates filename fs (update_FileInfo reg filename f)).
  apply IH. rewrite update_FileInfo_set. now apply NoDup_set.
Qed.

End RegistryFacts.

Module HandlerFacts.
Import JsMap JsMapFacts RegistryFacts.

#[local] Arguments Regex.matchAll : simpl never.
#[local] Arguments Patterns.remove_matches : simpl never.

(** A slot as the scanners leave it. *)
Definition is_request (v : slot) : Prop :=
  exists file exported, v = Request file exported.

(** A record as the handlers of the files leave it: the export table is
    still empty, every slot is a request, and [mappings], a [Map], has no
    key twice. *)
Definition unresolved (fi : FileInfo) : Prop :=
  exports fi = [] /\
  Forall (fun kv => is_request (snd kv)) (localImportAliases fi) /\
  NoDup (keys (mappings fi)).

(** An update that touches neither the export table nor the kind of the
    slots. *)
Definition keeps_unresolved (f : FileInfo -> FileInfo) : Prop :=
  forall fi, unresolved fi -> unresolved (f fi).

Lemma unresolved_new (filename : string) : unresolved (new_FileInfo filename).
Proof. split; [reflexivity | split; constructor]. Qed.

Lemma add_alias_keeps (localAlias file exported : string) :
  keeps_unresolved (add_alias localAlias file exported).
Proof.
  intros fi (E & F & N). split; [exact E|]. split; [|exact N]. simpl.
  apply Forall_set; [exact F|]. simpl. now exists file, exported.
Qed.

Lemma fold_keeps {A : Type} (each : FileInfo -> A -> FileInfo) (xs : list A) :
  (forall x, keeps_unresolved (fun fi => each fi x)) ->
  keeps_unresolved (fun fi => fold_left each xs fi).
Proof.
  intros H. induction xs as [|x xs IH]; intros fi U; simpl; [exact U|].
  apply IH. now apply H.
Qed.

Section Handlers.
Variable path_dirname : string -> string.
Variable path_resolve : string -> string -> string.

(** One in-place update for a scan that found matches, none otherwise. *)
Definition scan (matches : list Regex.found)
    (each : FileInfo -> Regex.found -> FileInfo)
  : list (FileInfo -> FileInfo) :=
  match matches with
  | [] => []
  | _ :: _ => [fun fileinfo => fold_left each matches fileinfo]
  end.

(** The update of [newDoclet]. *)
Definition index_doclet (doclet : Doclet) (meta : Meta) (fileinfo : FileInfo)
  : FileInfo :=
  indexMappings
    (indexLongnames fileinfo (d_kind doclet) (d_name doclet)
       (d_longname doclet) meta)
    (d_kind doclet) meta.

(** The file an event is about, and the updates of its record that the
    handler makes, in order. *)
Definition event_updates (ev : event)
  : result (string * list (FileInfo -> FileInfo)) :=
  match ev with
  | BeforeParse filename source =>
      let typedefs := Regex.matchAll Patterns.typedefRegex source in
      let source1 := Patterns.remove_matches typedefs source in
      Ok (filename,
          (scan typedefs (typedef_alias path_dirname path_resolve filename)
           ++ scan (Regex.matchAll Patterns.simpleRequire source1)
                (simple_alias path_dirname path_resolve filename)
           ++ scan (Regex.matchAll Patterns.destructRequire source1)
                (destruct_aliases path_dirname path_resolve filename))%list)
  | NewDoclet doclet =>
      match d_meta doclet with
      | None => Err TypeError
      | Some meta =>
          Ok (path_resolve (meta_path meta) (meta_filename meta),
              if negb (String.eqb (d_scope doclet) "global")
                 && negb (String.eqb (d_scope doclet) "static")
              then []
              else [index_doclet doclet meta])
      end
  end.

Lemma handle_updates (reg : Registry) (ev : event) :
  handle path_dirname path_resolve reg ev
  = (fu <- event_updates ev ;; Ok (apply_updates (fst fu) (snd fu) reg)).
Proof.
  destruct ev as [filename source|doclet]; simpl.
  - unfold beforeParse, typedefImportAliases, constSimpleRequireAliases,
      constDestructRequireAliases.
    destruct (Regex.matchAll Patterns.typedefRegex source) as [|m1 ms1] eqn:E1.
    + change (Patterns.remove_matches [] source) with source.
      cbn [fst snd scan].
      destruct (Regex.matchAll Patterns.simpleRequire source) as [|m2 ms2];
        destruct (Regex.matchAll Patterns.destructRequire source) as [|m3 ms3];
        reflexivity.
    + cbn [fst snd scan].
      destruct (Regex.matchAll Patterns.simpleRequire _) as [|m2 ms2];
        destruct (Regex.matchAll Patterns.destructRequire _) as [|m3 ms3];
        reflexivity.
  - unfold newDoclet. destruct (d_meta doclet) as [meta|]; [|reflexivity].
    simpl. destruct (negb _ && negb _); reflexivity.
Qed.

(** The file an event is about. *)
Definition event_file (ev : event) : option string :=
  match ev with
  | BeforeParse filename _ => Some filename
  | NewDoclet doclet =>
      match d_meta doclet with
      | Some meta => Some (path_resolve (meta_path meta) (meta_filename meta))
      | None => None
      end
  end.

Definition of_file (filename : string) (ev : event) : bool :=
  match event_file ev with
  | Some f => String.eqb f filename
  | None => false
  end.

Lemma event_updates_file (ev : event) (f : string) fs :
  event_updates ev = Ok (f, fs) -> event_file ev = Some f.
Proof.
  destruct ev as [filename source|doclet]; simpl.
  - now intros [= -> _].
  - destruct (d_meta doclet); [|discriminate]. now intros [= -> _].
Qed.

Lemma scan_keeps (ms : list Regex.found)
    (each : FileInfo -> Regex.found -> FileInfo) :
  (forall x, keeps_unresolved (fun fi => each fi x)) ->
  Forall keeps_unresolved (scan ms each).
Proof.
  intros H. destruct ms; constructor; [|constructor].
  now apply fold_keeps.
Qed.

Lemma index_doclet_keeps (doclet : Doclet) (meta : Meta) :
  keeps_unresolved (index_doclet doclet meta).
Proof.
  intros fi U. unfold index_doclet, indexMappings, indexLongnames.
  destruct (String.eqb (d_kind doclet) "class" || _);
    destruct (negb (String.eqb (d_kind doclet) "class") && _);
    try destruct (negb (String.eqb (d_name doclet) _));
    try destruct (negb (String.eqb (code_type _) _));
    try exact U;
    destruct U as (E & F & N); (split; [exact E|]); (split; [exact F|]);
    simpl; now apply NoDup_set.
Qed.

Lemma event_updates_keep (ev : event) (f : string) fs :
  event_updates ev = Ok (f, fs) -> Forall keeps_unresolved fs.
Proof.
  destruct ev as [filename source|doclet]; cbn [event_updates].
  - intros [= _ <-]. apply Forall_app; split; [|apply Forall_app; split];
      apply scan_keeps; intros x.
    + apply add_alias_keeps.
    + apply add_alias_keeps.
    + unfold destruct_aliases.
      apply (fold_keeps (fun fi name => add_alias name _ _ fi)).
      intros y. apply add_alias_keeps.
  - destruct (d_meta doclet) as [meta|]; [|discriminate].
    intros [= _ <-]. destruct (negb _ && negb _); constructor;
      [apply index_doclet_keeps | constructor].
Qed.

(** The record of [filename] after the events [evs], from the record [o]
    before them. *)
Fixpoint history (filename : string) (evs : list event) (o : option FileInfo)
  : option FileInfo :=
  match evs with
  | [] => o
  | ev :: evs' =>
      match event_updates ev with
      | Ok (f, fs) =>
          history filename evs'
            (if String.eqb filename f then updated filename fs o else o)
      | Err _ => o
      end
  end.

Lemma get_handle_all (evs : list event) (reg reg' : Registry) (k : string) :
  handle_all path_dirname path_resolve reg evs = Ok reg' ->
  get k reg' = history k evs (get k reg).
Proof.
  revert reg; induction evs as [|ev evs IH]; intros reg; simpl.
  - now intros [= <-].
  - rewrite handle_updates.
    destruct (event_updates ev) as [[f fs]|e]; simpl; [|discriminate].
    intros H. rewrite (IH _ H), get_apply_updates.
    destruct (String.eqb k f) eqn:E; [|reflexivity].
    apply String.eqb_eq in E; now subst.
Qed.

(** Only the events of a file count for its record. *)
Lemma history_filter (filename : string) (evs : list event)
    (o : option FileInfo) :
  (forall ev, In ev evs -> exists fu, event_updates ev = Ok fu) ->
  history filename evs o = history filename (filter (of_file filename) evs) o.
Proof.
  revert o; induction evs as [|ev evs IH]; intros o H; simpl; [reflexivity|].
  destruct (H ev (or_introl eq_refl)) as [[f fs] E].
  unfold of_file at 1. rewrite (event_updates_file _ _ _ E).
  rewrite E. rewrite (String.eqb_sym f filename).
  destruct (String.eqb filename f) eqn:F; simpl.
  - rewrite E, F. apply IH. intros; apply H; now right.
  - apply IH. intros; apply H; now right.
Qed.

Lemma handle_all_Ok (evs : list event) (reg reg' : Registry) :
  handle_all path_dirname path_resolve reg evs = Ok reg' ->
  forall ev, In ev evs -> exists fu, event_updates ev = Ok fu.
Proof.
  revert reg; induction evs as [|ev evs IH]; intros reg; simpl; [tauto|].
  rewrite handle_updates.
  destruct (event_updates ev) as [fu|e] eqn:E; simpl; [|discriminate].
  intros H ev' [<-|I]; eauto.
Qed.

(** The registries a run goes through. *)
Definition unresolved_registry (reg : Registry) : Prop :=
  NoDup (keys reg) /\ Forall (fun kv => unresolved (snd kv)) reg.

Lemma unresolved_empty : unresolved_registry empty.
Proof. split; constructor. Qed.

Lemma unresolved_apply_updates (filename : string) fs (reg : Registry) :
  Forall keeps_unresolved fs -> unresolved_registry reg ->
  unresolved_registry (apply_updates filename fs reg).
Proof.
  intros F. revert reg; induction F as [|f fs Hf F IH]; intros reg U; [exact U|].
  change (apply_updates filename (f :: fs) reg)
    with (apply_updates filename fs (update_FileInfo reg filename f)).
  apply IH. destruct U as [N A]. rewrite update_FileInfo_set. split.
  - now apply NoDup_set.
  - apply Forall_set; [exact A|]. simpl. apply Hf.
    destruct (get filename reg) as [fi|] eqn:G; simpl.
    + exact (get_Forall _ _ _ _ A G).
    + apply unresolved_new.
Qed.

Lemma unresolved_handle_all (evs : list event) (reg reg' : Registry) :
  handle_all path_dirname path_resolve reg evs = Ok reg' ->
  unresolved_registry reg -> unresolved_registry reg'.
Proof.
  revert reg; induction evs as [|ev evs IH]; intros reg; simpl.
  - now intros [= <-].
  - rewrite handle_updates.
    destruct (event_updates ev) as [[f fs]|e] eqn:E; simpl; [|discriminate].
    intros H U. apply (IH _ H).
    apply unresolved_apply_updates; [|exact U].
    exact (event_updates_keep _ _ _ E).
Qed.

End Handlers.
End HandlerFacts.

(** * The resolution barrier *)

Module BarrierFacts.
Import JsMap JsMapFacts RegistryFacts HandlerFacts.

(** ** The export table *)

Section ExportTable.
Variable fileinfo : FileInfo.
Variable exportsAlias : string.

Lemma dotted_key (p : string) :
  Js.startsWith (exportsAlias ++ "." ++ p) (exportsAlias ++ ".") = true /\
  Js.slice (String.length exportsAlias + 1) (exportsAlias ++ "." ++ p) = p.
Proof.
  replace (exportsAlias ++ "." ++ p) with ((exportsAlias ++ ".") ++ p)
    by apply JsFacts.app_assoc.
  split.
  - apply JsFacts.prefix_app.
  - replace (String.length exportsAlias + 1)
      with (String.length (exportsAlias ++ "."))
      by (rewrite JsFacts.length_app; reflexivity).
    apply JsFacts.slice_app.
Qed.

Lemma dotted_key_inv (key : string) :
  Js.startsWith key (exportsAlias ++ ".") = true ->
  key = exportsAlias ++ "." ++ Js.slice (String.length exportsAlias + 1) key.
Proof.
  intros H. apply JsFacts.prefix_split in H.
  rewrite JsFacts.length_app in H. simpl in H.
  rewrite H at 1. apply JsFacts.app_assoc.
Qed.

(** The second loop of [indexExports], seen from one export key: the key
    is written when the mappings hold an entry for the alias, a dot and the
    key whose value has a longname, and left alone otherwise. *)
Lemma export_table_get (p : string) (entries : JsMap.t string)
    (table : JsMap.t string) :
  NoDup (keys entries) ->
  get p (fold_left (export_entry fileinfo exportsAlias) entries table)
  = match get (exportsAlias ++ "." ++ p) entries with
    | Some value =>
        match known_longname fileinfo value with
        | Some longname => Some longname
        | None => get p table
        end
    | None => get p table
    end.
Proof.
  intros N. revert table.
  induction entries as [|[key value] entries IH]; intros table;
    [reflexivity|].
  inversion N as [|? ? NI N']; subst. cbn [fold_left]. rewrite (IH N').
  cbn [get]. destruct (String.eqb (exportsAlias ++ "." ++ p) key) eqn:E.
  - apply String.eqb_eq in E. subst key.
    rewrite (proj2 (get_None_keys _ _) NI).
    unfold export_entry. destruct (dotted_key p) as [-> ->].
    destruct (known_longname fileinfo value); [apply get_set_same | reflexivity].
  - assert (T : get p (export_entry fileinfo exportsAlias table (key, value))
                = get p table).
    { unfold export_entry.
      destruct (Js.startsWith key (exportsAlias ++ ".")) eqn:S; [|reflexivity].
      destruct (known_longname fileinfo value); [|reflexivity].
      apply get_set_other. intros ->.
      apply dotted_key_inv in S. apply String.eqb_neq in E. congruence. }
    rewrite T. reflexivity.
Qed.

(** No entry under the alias: the table is left as it is. *)
Lemma export_table_untouched (entries : JsMap.t string)
    (table : JsMap.t string) :
  (forall key, In key (keys entries) ->
               Js.startsWith key (exportsAlias ++ ".") = false) ->
  fold_left (export_entry fileinfo exportsAlias) entries table = table.
Proof.
  revert table; induction entries as [|[key value] entries IH];
    intros table H; [reflexivity|].
  simpl. rewrite (H key) by now left. apply IH.
  intros k I. apply H. now right.
Qed.

(** The values of the table are truthy when they were. *)
Lemma export_table_truthy (entries : JsMap.t string) (table : JsMap.t string) :
  Forall (fun kv => Js.truthy (snd kv) = true) table ->
  Forall (fun kv => Js.truthy (snd kv) = true)
    (fold_left (export_entry fileinfo exportsAlias) entries table).
Proof.
  revert table; induction entries as [|[key value] entries IH];
    intros table H; [exact H|].
  simpl. apply IH.
  destruct (Js.startsWith key (exportsAlias ++ ".")); [|exact H].
  unfold known_longname.
  destruct (get value (longnamesByDeclaration fileinfo)) as [l|]; [|exact H].
  destruct (Js.truthy l) eqn:T; [|exact H].
  apply Forall_set; auto.
Qed.

End ExportTable.

(** Without a value ['exports'] the first loop keeps the alias. *)
Lemma exportsAlias_final_init (fileinfo : FileInfo) :
  (forall key value, In (key, value) (mappings fileinfo) -> value <> "exports") ->
  exportsAlias_final fileinfo = exportsAlias_init fileinfo.
Proof.
  unfold exportsAlias_final. generalize (exportsAlias_init fileinfo).
  induction (mappings fileinfo) as [|[key value] entries IH]; intros a H;
    [reflexivity|].
  simpl. destruct (String.eqb value "exports") eqn:E.
  - apply String.eqb_eq in E. elim (H key value); [now left | exact E].
  - apply IH. intros k v I. apply (H k v). now right.
Qed.

Lemma indexExports_truthy (fileinfo : FileInfo) :
  Forall (fun kv => Js.truthy (snd kv) = true) (exports fileinfo) ->
  Forall (fun kv => Js.truthy (snd kv) = true)
    (exports (indexExports fileinfo)).
Proof.
  intros H. simpl. apply export_table_truthy. unfold exports_init.
  destruct (get "module.exports" (mappings fileinfo)) as [x|]; [|exact H].
  unfold known_longname.
  destruct (get x (longnamesByDeclaration fileinfo)) as [l|]; [|exact H].
  destruct (Js.truthy l) eqn:T; [|exact H].
  apply Forall_set; auto.
Qed.

(** ** The resolution of the requests *)

(** What [resolveImports] stores for the request [[file, exported]]. *)
Definition resolution (reg : Registry) (file exported : string) : slot :=
  match get file reg with
  | None => Failed
  | Some importFrom =>
      match get (if Js.truthy exported then exported else "*")
              (exports importFrom) with
      | None => Failed
      | Some longname =>
          if Js.truthy longname then Resolved longname else Failed
      end
  end.

Definition resolved_slot (reg : Registry) (v : slot) : slot :=
  match v with
  | Request file exported => resolution reg file exported
  | _ => v
  end.

Definition resolved_file (reg : Registry) (fi : FileInfo) : FileInfo :=
  set_localImportAliases fi
    (List.map (fun kv => (fst kv, resolved_slot reg (snd kv)))
       (localImportAliases fi)).

Lemma resolve_request_Request (reg : Registry) (file exported : string) :
  resolve_request reg (Request file exported)
  = Ok (resolution reg file exported).
Proof.
  unfold resolve_request, resolution, getFileInfo. simpl.
  destruct (get file reg) as [importFrom|]; [|reflexivity].
  destruct (get _ (exports importFrom)) as [l|]; [|reflexivity].
  now destruct (Js.truthy l).
Qed.

Lemma resolve_entries_requests (reg : Registry) (entries : JsMap.t slot) :
  Forall (fun kv => is_request (snd kv)) entries ->
  resolve_entries reg entries
  = Ok (List.map (fun kv => (fst kv, resolved_slot reg (snd kv))) entries).
Proof.
  induction 1 as [|[name v] entries (file & exported & E) F IH];
    [reflexivity|].
  simpl in E; subst v. simpl resolve_entries.
  rewrite resolve_request_Request, IH. reflexivity.
Qed.

Lemma resolveImports_requests (reg : Registry) (fi : FileInfo) :
  Forall (fun kv => is_request (snd kv)) (localImportAliases fi) ->
  resolveImports reg fi = Ok (resolved_file reg fi).
Proof.
  intros F. unfold resolveImports, resolved_file.
  destruct (localImportAliases fi) as [|e es] eqn:A.
  - simpl. destruct fi; simpl in *; now subst.
  - simpl size. cbn [Nat.eqb]. rewrite (resolve_entries_requests reg _ F).
    reflexivity.
Qed.

(** The resolution only reads the export tables of the registry. *)
Definition same_exports (reg1 reg2 : Registry) : Prop :=
  forall file, option_map exports (get file reg1)
               = option_map exports (get file reg2).

Lemma resolution_ext (reg1 reg2 : Registry) (file exported : string) :
  same_exports reg1 reg2 ->
  resolution reg1 file exported = resolution reg2 file exported.
Proof.
  intros S. unfold resolution. specialize (S file).
  destruct (get file reg1), (get file reg2); simpl in S;
    try discriminate; [|reflexivity].
  injection S as ->. reflexivity.
Qed.

Lemma resolved_file_ext (reg1 reg2 : Registry) (fi : FileInfo) :
  same_exports reg1 reg2 -> resolved_file reg1 fi = resolved_file reg2 fi.
Proof.
  intros S. unfold resolved_file. f_equal.
  apply List.map_ext. intros [name [file exported| |]]; simpl; try reflexivity.
  now rewrite (resolution_ext _ _ file exported S).
Qed.

Lemma same_exports_replace (done rest : Registry) (file : string)
    (info info' : FileInfo) :
  exports info' = exports info ->
  same_exports ((done ++ [(file, info')]) ++ rest)%list
    (done ++ (file, info) :: rest)%list.
Proof.
  intros E k. rewrite <- List.app_assoc. simpl.
  induction done as [|[k2 v2] done IH]; simpl.
  - destruct (String.eqb k file); simpl; [now rewrite E | reflexivity].
  - destruct (String.eqb k k2); [reflexivity | exact IH].
Qed.

(** A registry whose slots are all requests. *)
Definition all_requests (reg : Registry) : Prop :=
  Forall (fun kv => Forall (fun nv => is_request (snd nv))
                      (localImportAliases (snd kv))) reg.

Lemma resolve_all_requests (todo done : Registry) :
  all_requests todo ->
  resolve_all done todo
  = Ok (done ++ List.map (fun kv => (fst kv, resolved_file (done ++ todo) (snd kv)))
                  todo)%list.
Proof.
  intros A. revert done.
  induction A as [|[file info] rest F A IH]; intros done.
  - simpl. now rewrite List.app_nil_r.
  - simpl resolve_all. simpl in F.
    rewrite (resolveImports_requests _ _ F). simpl bind.
    rewrite IH. rewrite <- List.app_assoc. simpl. do 3 f_equal.
    apply List.map_ext. intros [k fi]. simpl. f_equal.
    apply resolved_file_ext.
    apply same_exports_replace. reflexivity.
Qed.

Lemma all_requests_index_all (reg : Registry) :
  all_requests reg -> all_requests (index_all reg).
Proof.
  unfold all_requests, index_all. intros A. rewrite Forall_map.
  revert A. apply Forall_impl. intros [k fi]. simpl. auto.
Qed.

(** The barrier on a registry of requests: it does not throw, and every
    record gets its export table and the resolution of its requests
    against the export tables of all the records. *)
Lemma barrier_requests (reg : Registry) :
  all_requests reg ->
  barrier reg
  = Ok (List.map (fun kv => (fst kv,
                             resolved_file (index_all reg)
                               (indexExports (snd kv)))) reg).
Proof.
  intros A. unfold barrier.
  rewrite resolve_all_requests by now apply all_requests_index_all.
  simpl. unfold index_all at 2. rewrite List.map_map. reflexivity.
Qed.

Lemma get_index_all (reg : Registry) (file : string) :
  get file (index_all reg) = option_map indexExports (get file reg).
Proof. apply (get_map (fun _ => indexExports)). Qed.

Lemma get_barrier (reg reg' : Registry) (file : string) :
  all_requests reg -> barrier reg = Ok reg' ->
  get file reg'
  = option_map (fun fi => resolved_file (index_all reg) (indexExports fi))
      (get file reg).
Proof.
  intros A B. rewrite (barrier_requests _ A) in B. injection B as <-.
  apply (get_map (fun _ fi => resolved_file (index_all reg) (indexExports fi))).
Qed.

Lemma unresolved_all_requests (reg : Registry) :
  unresolved_registry reg -> all_requests reg.
Proof.
  intros [_ F]. revert F. apply Forall_impl. intros kv (_ & H & _). exact H.
Qed.

End BarrierFacts.

(** * Bare names *)

Module NameFacts.
Import Regex RegexFacts Patterns RewriterFacts.

Lemma word_unit (c : ascii) :
  Js.is_word c = true ->
  name_list_unit c = true /\ Js.is_space c = false
  /\ Ascii.eqb c "," = false.
Proof.
  destruct c as [[] [] [] [] [] [] [] []]; intros H;
    try discriminate H; repeat split.
Qed.

Lemma word_name_list (s : string) :
  all Js.is_word s = true -> all name_list_unit s = true.
Proof.
  induction s as [|c s IH]; simpl; [reflexivity|].
  intros H. apply andb_prop in H as [Hc Hs].
  destruct (word_unit c Hc) as (-> & _). auto.
Qed.

Lemma word_split (s : string) :
  all Js.is_word s = true -> Js.split "," s = [s].
Proof.
  induction s as [|c s IH]; simpl; [reflexivity|].
  intros H. apply andb_prop in H as [Hc Hs].
  destruct (word_unit c Hc) as (_ & _ & ->). now rewrite IH.
Qed.

Lemma word_trimEnd (s : string) :
  all Js.is_word s = true -> Js.trimEnd s = s.
Proof.
  induction s as [|c s IH]; simpl; [reflexivity|].
  intros H. apply andb_prop in H as [Hc Hs].
  destruct (word_unit c Hc) as (_ & -> & _). rewrite IH by assumption.
  now destruct s.
Qed.

Lemma word_trim (s : string) : all Js.is_word s = true -> Js.trim s = s.
Proof.
  intros H. unfold Js.trim.
  replace (Js.trimStart s) with s; [now apply word_trimEnd|].
  destruct s as [|c s]; [reflexivity|]. simpl in *.
  apply andb_prop in H as [Hc _].
  now destruct (word_unit c Hc) as (_ & -> & _).
Qed.

(** [replaceTypes] on a bare name: the name is looked up among the
    declared names, then among the aliases. *)
Lemma replaceTypes_word (localNames : JsMap.t string) (aliases : JsMap.t slot)
    (meta : Meta) (name : string) :
  name <> EmptyString -> all Js.is_word name = true ->
  replaceTypes localNames aliases meta name
  = Ok (joined (replace_name localNames aliases name)).
Proof.
  intros N W. rewrite replaceTypes_names by (auto using word_name_list).
  unfold replace_actual. rewrite word_split by assumption. simpl.
  now rewrite word_trim.
Qed.

End NameFacts.

(** * The claims on the registry, the export tables and the resolution *)

Import JsMap JsMapFacts RegistryFacts HandlerFacts BarrierFacts.

Section PipelineClaims.
Variable path_dirname : string -> string.
Variable path_resolve : string -> string -> string.

(** The registry after the events [evs] of a run. *)
Definition registry_after (evs : list event) : result Registry :=
  handle_all path_dirname path_resolve JsMap.empty evs.

Lemma registry_after_unresolved (evs : list event) (reg : Registry) :
  registry_after evs = Ok reg -> unresolved_registry reg.
Proof.
  intros H.
  exact (unresolved_handle_all path_dirname path_resolve evs _ _ H
           unresolved_empty).
Qed.

Lemma registry_after_record (evs : list event) (reg : Registry)
    (file : string) (fi : FileInfo) :
  registry_after evs = Ok reg -> get file reg = Some fi -> unresolved fi.
Proof.
  intros H G. destruct (registry_after_unresolved evs reg H) as [_ F].
  exact (get_Forall _ _ _ _ F G).
Qed.

(** C9.  Registry idempotence.  In every registry a run goes through, no
    path has two records.  A plain lookup returns what the registry holds
    and leaves the registry as it is; a lookup in create-if-absent mode of a
    path that has a record returns that record and leaves the registry as it
    is; in every case, after a lookup in create-if-absent mode the path has
    one record, the one returned, which further lookups of either kind
    return again, and the records of the other paths are untouched. *)
Theorem registry_idempotent (evs : list event) (reg : Registry) :
  registry_after evs = Ok reg ->
  NoDup (keys reg) /\
  forall filename,
    getFileInfo reg filename false = (get filename reg, reg) /\
    (forall fi, get filename reg = Some fi ->
                getFileInfo reg filename true = (Some fi, reg)) /\
    (forall r reg',
        getFileInfo reg filename true = (r, reg') ->
        NoDup (keys reg') /\
        r = get filename reg' /\
        r <> None /\
        getFileInfo reg' filename true = (r, reg') /\
        getFileInfo reg' filename false = (r, reg') /\
        (forall other, other <> filename -> get other reg' = get other reg)).
Proof.
  intros H. destruct (registry_after_unresolved evs reg H) as [N _].
  split; [exact N|]. intros filename. split; [reflexivity|]. split.
  - intros fi G. unfold getFileInfo. simpl. now rewrite G.
  - intros r reg'. unfold getFileInfo. simpl.
    destruct (get filename reg) as [fi|] eqn:G.
    + intros [= <- <-]. rewrite G. repeat split; auto. discriminate.
    + intros [= <- <-]. rewrite get_set_same. repeat split; auto.
      * now apply NoDup_set.
      * discriminate.
      * intros other O. now apply get_set_other.
Qed.

(** C3.  Export precedence.  For a record of a run whose mappings hold
    [module.exports -> X] and no value ['exports']: the export table
    computed by [indexExports] holds the longname of [X] under ["*"] when
    [X] has a truthy one among the declared names (and the sentinel is not
    itself attached to [X] with a known value); it holds the longname of
    [V] under [p] for every entry [X.p -> V] whose value has a truthy
    longname; and an entry whose value has none writes nothing. *)
Theorem export_precedence (evs : list event) (reg : Registry) (file : string)
    (fi : FileInfo) (X : string) :
  registry_after evs = Ok reg ->
  get file reg = Some fi ->
  get "module.exports" (mappings fi) = Some X ->
  (forall key value, In (key, value) (mappings fi) -> value <> "exports") ->
  let table := exports (indexExports fi) in
  (forall L,
      get X (longnamesByDeclaration fi) = Some L -> L <> "" ->
      (forall V, get (X ++ ".*") (mappings fi) = Some V ->
                 known_longname fi V = None) ->
      get "*" table = Some L)
  /\ (forall p V L,
         get (X ++ "." ++ p) (mappings fi) = Some V ->
         get V (longnamesByDeclaration fi) = Some L -> L <> "" ->
         get p table = Some L)
  /\ (forall p V,
         get (X ++ "." ++ p) (mappings fi) = Some V ->
         known_longname fi V = None -> p <> "*" ->
         get p table = None).
Proof.
  intros H G M NE table.
  destruct (registry_after_record evs reg file fi H G) as (E & _ & N).
  assert (A : exportsAlias_final fi = X).
  { rewrite exportsAlias_final_init by exact NE.
    unfold exportsAlias_init. now rewrite M. }
  assert (T : forall p, get p table
                        = match get (X ++ "." ++ p) (mappings fi) with
                          | Some value =>
                              match known_longname fi value with
                              | Some longname => Some longname
                              | None => get p (exports_init fi)
                              end
                          | None => get p (exports_init fi)
                          end).
  { intros p. unfold table. simpl. rewrite A. now apply export_table_get. }
  assert (K : forall V L, get V (longnamesByDeclaration fi) = Some L ->
                          L <> "" -> known_longname fi V = Some L).
  { intros V L GL NL. unfold known_longname. rewrite GL.
    apply JsFacts.truthy_true in NL. now rewrite NL. }
  repeat split.
  - intros L GL NL S. rewrite T.
    assert (I : get "*" (exports_init fi) = Some L).
    { unfold exports_init. rewrite M, (K X L GL NL). apply get_set_same. }
    change (X ++ "." ++ "*") with (X ++ ".*").
    destruct (get (X ++ ".*") (mappings fi)) as [V|] eqn:GV; [|exact I].
    now rewrite (S V eq_refl).
  - intros p V L GV GL NL. rewrite T, GV. now rewrite (K V L GL NL).
  - intros p V GV KV NP. rewrite T, GV, KV.
    unfold exports_init. rewrite M.
    destruct (known_longname fi X).
    + rewrite get_set_other by exact NP. now rewrite E.
    + now rewrite E.
Qed.

(** The record of [file] after the barrier. *)
Lemma barrier_record (evs : list event) (reg : Registry) :
  registry_after evs = Ok reg ->
  exists reg',
    barrier reg = Ok reg' /\
    forall file,
      get file reg'
      = option_map (fun fi => resolved_file (index_all reg) (indexExports fi))
          (get file reg).
Proof.
  intros H. pose proof (registry_after_unresolved evs reg H) as U.
  apply unresolved_all_requests in U.
  eexists. split; [apply (barrier_requests _ U)|].
  intros file. apply (get_barrier _ _ _ U). apply (barrier_requests _ U).
Qed.

(** The resolution of a request, read on the registry after the barrier. *)
Lemma resolution_after (evs : list event) (reg reg' : Registry)
    (tf ep : string) :
  registry_after evs = Ok reg ->
  (forall file,
      get file reg'
      = option_map (fun fi => resolved_file (index_all reg) (indexExports fi))
          (get file reg)) ->
  resolution (index_all reg) tf ep
  = match get tf reg' with
    | None => Failed
    | Some target =>
        match get (if Js.truthy ep then ep else "*") (exports target) with
        | None => Failed
        | Some longname => Resolved longname
        end
    end.
Proof.
  intros H R. unfold resolution. rewrite get_index_all, R.
  destruct (get tf reg) as [target|] eqn:G; simpl; [|reflexivity].
  match goal with
  | |- context [get ?k ?t] => destruct (get k t) as [l|] eqn:X
  end; [|reflexivity].
  destruct (registry_after_record evs reg tf target H G) as (E & _).
  assert (T : Forall (fun kv => Js.truthy (snd kv) = true)
                (exports (indexExports target))).
  { apply indexExports_truthy. rewrite E. constructor. }
  apply (get_Forall _ _ _ _ T) in X. simpl in X. now rewrite X.
Qed.

Lemma get_resolved_aliases (R : Registry) (fi : FileInfo) (name : string) :
  get name (localImportAliases (resolved_file R fi))
  = option_map (resolved_slot R) (get name (localImportAliases fi)).
Proof. apply (get_map (fun _ => resolved_slot R)). Qed.

(** C4.  Alias resolution.  The barrier does not throw on the registry of
    a run, and it keeps the paths of the registry.  A request
    [(tf, ep)] becomes [null] when [tf] has no record; otherwise the key
    looked up in the export table of [tf] is [ep], or ["*"] when [ep] is
    empty, and the slot becomes [null] when the key is absent and the
    longname found otherwise.  After the barrier every slot is a longname
    or [null]. *)
Theorem alias_resolution (evs : list event) (reg : Registry) :
  registry_after evs = Ok reg ->
  exists reg',
    barrier reg = Ok reg' /\
    (forall file, get file reg' = None <-> get file reg = None) /\
    (forall file fi name tf ep,
        get file reg = Some fi ->
        get name (localImportAliases fi) = Some (Request tf ep) ->
        exists fi',
          get file reg' = Some fi' /\
          get name (localImportAliases fi')
          = Some match get tf reg' with
                 | None => Failed
                 | Some target =>
                     match get (if Js.truthy ep then ep else "*")
                             (exports target) with
                     | None => Failed
                     | Some longname => Resolved longname
                     end
                 end) /\
    (forall file fi' name v,
        get file reg' = Some fi' ->
        get name (localImportAliases fi') = Some v ->
        v = Failed \/ exists longname, v = Resolved longname).
Proof.
  intros H. destruct (barrier_record evs reg H) as (reg' & B & R).
  exists reg'. split; [exact B|]. repeat split.
  - rewrite R. now destruct (get file reg).
  - intros G. rewrite R, G. reflexivity.
  - intros file fi name tf ep G A. rewrite R, G. simpl.
    eexists. split; [reflexivity|].
    rewrite get_resolved_aliases. simpl. rewrite A. simpl.
    f_equal. now apply (resolution_after evs).
  - intros file fi' name v G A. rewrite R in G.
    destruct (get file reg) as [fi|] eqn:G0; [|discriminate].
    injection G as <-. rewrite get_resolved_aliases in A. simpl in A.
    destruct (get name (localImportAliases fi)) as [v0|] eqn:A0;
      [|discriminate].
    injection A as <-.
    destruct (registry_after_record evs reg file fi H G0) as (_ & F & _).
    apply (get_Forall _ _ _ _ F) in A0. simpl in A0.
    destruct A0 as (tf & ep & ->).
    simpl. rewrite (resolution_after evs reg reg' tf ep H R).
    destruct (get tf reg') as [target|]; [|now left].
    destruct (get _ (exports target)) as [l|]; [right; now exists l | now left].
Qed.

(** C7, as amended.  For a record of a run whose mappings hold neither the
    key [module.exports] nor a key under the export alias (the alias and a
    dot), the export table computed at the barrier is empty, and every
    request to that file, in any file, ends as [null]. *)
Theorem no_exports_all_failed (evs : list event) (reg : Registry)
    (A : string) (fa : FileInfo) :
  registry_after evs = Ok reg ->
  get A reg = Some fa ->
  get "module.exports" (mappings fa) = None ->
  (forall key, In key (keys (mappings fa)) ->
               Js.startsWith key (exportsAlias_final fa ++ ".") = false) ->
  exists reg',
    barrier reg = Ok reg' /\
    (exists fa', get A reg' = Some fa' /\ exports fa' = []) /\
    (forall B fb name ep,
        get B reg = Some fb ->
        get name (localImportAliases fb) = Some (Request A ep) ->
        exists fb',
          get B reg' = Some fb' /\
          get name (localImportAliases fb') = Some Failed).
Proof.
  intros H G M S. destruct (barrier_record evs reg H) as (reg' & B & R).
  destruct (registry_after_record evs reg A fa H G) as (E & _).
  assert (X : exports (indexExports fa) = []).
  { simpl. rewrite export_table_untouched by exact S.
    unfold exports_init. now rewrite M. }
  exists reg'. split; [exact B|]. split.
  - rewrite R, G. simpl. eexists. split; [reflexivity|]. exact X.
  - intros B0 fb name ep GB AB. rewrite R, GB. simpl.
    eexists. split; [reflexivity|].
    rewrite get_resolved_aliases. simpl. rewrite AB. simpl. f_equal.
    rewrite (resolution_after evs reg reg' A ep H R).
    rewrite R, G. cbn [option_map].
    change (exports (resolved_file (index_all reg) (indexExports fa)))
      with (exports (indexExports fa)).
    rewrite X. reflexivity.
Qed.

(** C8.  Determinism under file ordering.  Two runs whose events, file by
    file, are the same and in the same order, however the files are
    interleaved, both pass the barrier, and after it every path has the
    same record in both: the same export table and the same slots. *)
Theorem file_order_determinism (evs1 evs2 : list event)
    (reg1 reg2 : Registry) :
  (forall file, filter (of_file path_resolve file) evs1
                = filter (of_file path_resolve file) evs2) ->
  registry_after evs1 = Ok reg1 ->
  registry_after evs2 = Ok reg2 ->
  exists r1 r2,
    barrier reg1 = Ok r1 /\ barrier reg2 = Ok r2 /\
    forall file,
      get file r1 = get file r2 /\
      option_map exports (get file r1) = option_map exports (get file r2) /\
      option_map localImportAliases (get file r1)
      = option_map localImportAliases (get file r2).
Proof.
  intros P H1 H2.
  assert (G : forall file, get file reg1 = get file reg2).
  { intros file.
    rewrite (get_handle_all path_dirname path_resolve evs1 _ _ file H1).
    rewrite (get_handle_all path_dirname path_resolve evs2 _ _ file H2).
    rewrite (history_filter path_dirname path_resolve file evs1)
      by exact (handle_all_Ok path_dirname path_resolve evs1 _ _ H1).
    rewrite (history_filter path_dirname path_resolve file evs2)
      by exact (handle_all_Ok path_dirname path_resolve evs2 _ _ H2).
    now rewrite P. }
  destruct (barrier_record evs1 reg1 H1) as (r1 & B1 & R1).
  destruct (barrier_record evs2 reg2 H2) as (r2 & B2 & R2).
  exists r1, r2. split; [exact B1|]. split; [exact B2|].
  assert (E : forall file, get file r1 = get file r2).
  { intros file. rewrite R1, R2, G.
    destruct (get file reg2) as [fi|]; [|reflexivity]. simpl. f_equal.
    apply resolved_file_ext. intros k. now rewrite !get_index_all, G. }
  intros file. now rewrite E.
Qed.

(** C1, as amended.  File [A] assigns [module.exports = X], where [X] has
    the truthy longname [L] among the declared names of [A] (and the
    sentinel is not attached under the export alias); file [B] holds the
    whole-module request [(A, "")] under the bare name [name], as the simple
    load-and-bind [const name = require(A)] leaves it, and declares no
    [name] of its own; a doclet of [B] has one parameter whose type is the
    single name [name].  Then the complete run, the events and
    [processingComplete] on that doclet, does not throw, and the type of the
    parameter reads [L]. *)
Theorem whole_module_import_rewritten (evs : list event) (reg : Registry)
    (A B : string) (fa fb : FileInfo) (X L name : string) (meta : Meta)
    (doclet : Doclet) :
  registry_after evs = Ok reg ->
  get A reg = Some fa -> get B reg = Some fb ->
  get "module.exports" (mappings fa) = Some X ->
  get X (longnamesByDeclaration fa) = Some L -> L <> "" ->
  get (exportsAlias_final fa ++ ".*") (mappings fa) = None ->
  get name (localImportAliases fb) = Some (Request A "") ->
  get name (longnamesByDeclaration fb) = None ->
  name <> "" -> RegexFacts.all Js.is_word name = true ->
  d_meta doclet = Some meta ->
  path_resolve (meta_path meta) (meta_filename meta) = B ->
  d_augments doclet = None -> d_properties doclet = None ->
  d_returns doclet = None ->
  d_params doclet = Some [{| type_names := Some [name] |}] ->
  exists reg' doclet',
    full_run path_dirname path_resolve evs [doclet] = Ok (reg', [doclet']) /\
    d_params doclet' = Some [{| type_names := Some [L] |}].
Proof.
  intros H GA GB M GL NL S AB LB NN W DM PB DA DP DR DPa.
  destruct (barrier_record evs reg H) as (reg' & Br & R).
  destruct (registry_after_record evs reg A fa H GA) as (E & _ & N).
  assert (K : known_longname fa X = Some L).
  { unfold known_longname. rewrite GL.
    apply JsFacts.truthy_true in NL. now rewrite NL. }
  assert (T : get "*" (exports (indexExports fa)) = Some L).
  { simpl. rewrite export_table_get by exact N.
    change (exportsAlias_final fa ++ "." ++ "*")
      with (exportsAlias_final fa ++ ".*").
    rewrite S. unfold exports_init. rewrite M, K. apply get_set_same. }
  assert (Al : get name (localImportAliases
                           (resolved_file (index_all reg) (indexExports fb)))
               = Some (Resolved L)).
  { rewrite get_resolved_aliases.
    change (localImportAliases (indexExports fb))
      with (localImportAliases fb).
    rewrite AB. simpl. f_equal.
    rewrite (resolution_after evs reg reg' A "" H R).
    rewrite R, GA. cbn [option_map Js.truthy].
    change (exports (resolved_file (index_all reg) (indexExports fa)))
      with (exports (indexExports fa)).
    now rewrite T. }
  assert (Rw : replaceTypes
                 (longnamesByDeclaration
                    (resolved_file (index_all reg) (indexExports fb)))
                 (localImportAliases
                    (resolved_file (index_all reg) (indexExports fb)))
                 meta name = Ok L).
  { rewrite NameFacts.replaceTypes_word by assumption.
    unfold replace_name, has. rewrite Al.
    change (longnamesByDeclaration
              (resolved_file (index_all reg) (indexExports fb)))
      with (longnamesByDeclaration fb).
    now rewrite LB. }
  unfold full_run. fold (registry_after evs). rewrite H. simpl bind.
  unfold processingComplete. rewrite Br. simpl bind.
  unfold mapM, modifyDoclet. rewrite DM, PB.
  unfold getFileInfo. cbn [negb fst]. rewrite R, GB. cbn [option_map].
  rewrite DA, DP, DR, DPa. unfold replace_each at 1 2. cbn [bind].
  unfold replace_each, mapM, replaceAllTypes. cbn [type_names mapM].
  rewrite Rw. cbn [bind].
  eexists. eexists. split; reflexivity.
Qed.

(** The behaviour reported for C2: a bare name that is a failed alias, and
    is not declared in the file, is rewritten to the empty string. *)
Lemma failed_alias_rewritten (localNames : JsMap.t string)
    (aliases : JsMap.t slot) (meta : Meta) (name : string) :
  name <> "" -> RegexFacts.all Js.is_word name = true ->
  get name localNames = None -> get name aliases = Some Failed ->
  replaceTypes localNames aliases meta name = Ok "".
Proof.
  intros N W GL GA. rewrite NameFacts.replaceTypes_word by assumption.
  unfold replace_name, has. now rewrite GL, GA.
Qed.

End PipelineClaims.

(** * Runs on concrete files *)

Module Scenario.

Definition a_js : string := "/proj/a.js".
Definition b_js : string := "/proj/b.js".

Definition meta_of (file : string) (line : N) (name type value : string) : Meta :=
  {| meta_path := "/proj"; meta_filename := file; meta_lineno := line;
     meta_code := {| code_name := name; code_type := type;
                     code_value := value |} |}.

(** The doclet of a function declaration: [value] is not set for it and is
    not read. *)
Definition function_doclet (file : string) (line : N) (name longname scope : string)
    (params : option (list Typed)) : Doclet :=
  {| d_kind := "function"; d_name := name; d_longname := longname;
     d_scope := scope;
     d_meta := Some (meta_of file line name "FunctionDeclaration" "");
     d_augments := None; d_properties := None; d_params := params;
     d_returns := None |}.

(** The doclet of an assignment [target = value] of an identifier. *)
Definition assignment_doclet (file : string) (line : N)
    (name longname target value : string) : Doclet :=
  {| d_kind := "member"; d_name := name; d_longname := longname;
     d_scope := "static";
     d_meta := Some (meta_of file line target "Identifier" value);
     d_augments := None; d_properties := None; d_params := None;
     d_returns := None |}.

Definition typed (names : list string) : Typed :=
  {| type_names := Some names |}.

(** File A: [function Widget(){}], known as [pkg.Widget], and
    [module.exports = Widget;]. *)
Definition a_source : string :=
  "function Widget(){}
module.exports = Widget;".
Definition a_Widget : Doclet :=
  function_doclet "a.js" 1 "Widget" "pkg.Widget" "static" None.
Definition a_exports : Doclet :=
  assignment_doclet "a.js" 2 "exports" "module.exports" "module.exports" "Widget".
Definition a_events : list event :=
  [BeforeParse a_js a_source; NewDoclet a_Widget; NewDoclet a_exports].

(** File B, with a function whose parameter has the type [Widget]. *)
Definition b_f : Doclet :=
  function_doclet "b.js" 3 "f" "f" "global" (Some [typed ["Widget"]]).

(** File B with the destructuring load-and-bind. *)
Definition b_destruct_source : string :=
  "const {Widget} = require('./a');
/** @param {Widget} w */
function f(w) {}".
Definition b_destruct_events : list event :=
  [BeforeParse b_js b_destruct_source; NewDoclet b_f].

(** File B with the simple load-and-bind. *)
Definition b_simple_source : string :=
  "const Widget = require('./a');
/** @param {Widget} w */
function f(w) {}".
Definition b_simple_events : list event :=
  [BeforeParse b_js b_simple_source; NewDoclet b_f].

(** File A exporting by [exports.Foo = Foo;], without [module.exports]. *)
Definition a_Foo : Doclet :=
  function_doclet "a.js" 1 "Foo" "pkg.Foo" "static" None.
Definition a_exports_Foo : Doclet :=
  assignment_doclet "a.js" 2 "Foo" "Foo" "exports.Foo" "Foo".
Definition a_named_events : list event :=
  [BeforeParse a_js "function Foo(){}
exports.Foo = Foo;"; NewDoclet a_Foo; NewDoclet a_exports_Foo].

(** File A that assigns nothing to its exports. *)
Definition a_Foo_create : Doclet :=
  assignment_doclet "a.js" 2 "create" "Foo.create" "Foo.create" "Foo".
Definition a_silent_events : list event :=
  [BeforeParse a_js "function Foo(){}
Foo.create = Foo;"; NewDoclet a_Foo; NewDoclet a_Foo_create].

(** File A attaching a property to the exported function. *)
Definition a_helper : Doclet :=
  function_doclet "a.js" 2 "helper" "pkg.helper" "static" None.
Definition a_Widget_helper : Doclet :=
  assignment_doclet "a.js" 4 "helper" "Widget.helper" "Widget.helper" "helper".
Definition a_attached_events : list event :=
  [BeforeParse a_js "function Widget(){}
function helper(){}
module.exports = Widget;
Widget.helper = helper;";
   NewDoclet a_Widget; NewDoclet a_helper; NewDoclet a_exports;
   NewDoclet a_Widget_helper].

(** File B importing [Foo] from A by destructuring, and from a file that
    is not there. *)
Definition b_Foo_events : list event :=
  [BeforeParse b_js "const {Foo} = require('./a');
const Bar = require('./missing');"].

(** File B importing from a file that is not there, with a function whose
    parameters have the types [Foo] and [Array.<Foo>]. *)
Definition b_g : Doclet :=
  function_doclet "b.js" 2 "g" "g" "global"
    (Some [typed ["Foo"; "Array.<Foo>"]]).
Definition b_missing_events : list event :=
  [BeforeParse b_js "const Foo = require('./missing');
function g(x, y) {}"; NewDoclet b_g].

Definition run (evs : list event) (doclets : list Doclet)
  : result (Registry * list Doclet) :=
  full_run Posix.dirname Posix.resolve evs doclets.

(** The registry after the events, empty if a handler threw. *)
Definition registry_of (evs : list event) : Registry :=
  match registry_after Posix.dirname Posix.resolve evs with
  | Ok reg => reg
  | Err _ => []
  end.

(** The record of a file in the registry, a fresh one if there is none. *)
Definition record (file : string) (reg : Registry) : FileInfo :=
  record_of file (JsMap.get file reg).

(** The types of the parameters of the doclets after a run. *)
Definition param_types (r : result (Registry * list Doclet))
  : list (option (list Typed)) :=
  match r with
  | Ok (_, doclets) => List.map d_params doclets
  | Err _ => []
  end.

Definition slots (file : string) (r : result (Registry * list Doclet))
  : JsMap.t slot :=
  match r with
  | Ok (reg, _) => localImportAliases (record file reg)
  | Err _ => []
  end.

Definition export_table (file : string) (r : result (Registry * list Doclet))
  : JsMap.t string :=
  match r with
  | Ok (reg, _) => exports (record file reg)
  | Err _ => []
  end.

End Scenario.

(** * The claims on concrete runs *)

Import Scenario.

(** C1, as stated, fails.  File A declares [Widget], known as
    [pkg.Widget], and assigns [module.exports = Widget]; file B binds
    [Widget] by destructuring and has a parameter of type [Widget].  The
    request of B is for the export path [Widget]; the export table of A
    holds [pkg.Widget] under ["*"] only; the slot ends as [null] and the
    type of the parameter does not read [pkg.Widget]. *)
Lemma destructured_import_not_rewritten :
  let r := run (a_events ++ b_destruct_events) [a_Widget; a_exports; b_f] in
  export_table a_js r = [("*", "pkg.Widget")] /\
  slots b_js r = [("Widget", Failed)] /\
  param_types r = [None; None; Some [typed [""]]] /\
  param_types r <> [None; None; Some [typed ["pkg.Widget"]]].
Proof.
  vm_compute. repeat split. discriminate.
Qed.

Lemma whole_module_import_rewritten_witness :
  exists reg' doclet',
    run (a_events ++ b_simple_events) [b_f] = Ok (reg', [doclet']) /\
    d_params doclet' = Some [typed ["pkg.Widget"]].
Proof.
  pose (reg := registry_of (a_events ++ b_simple_events)).
  apply (whole_module_import_rewritten Posix.dirname Posix.resolve
           (a_events ++ b_simple_events) reg a_js b_js
           (record a_js reg) (record b_js reg)
           "Widget" "pkg.Widget" "Widget"
           (meta_of "b.js" 3 "f" "FunctionDeclaration" "") b_f);
    try (vm_compute; reflexivity); discriminate.
Defined.

(** C2: the code on an alias whose target file is not in the registry.
    File B binds [Foo] to a file that is not there; the slot ends as
    [null]; the types [Foo] and [Array.<Foo>] of a parameter are
    rewritten, the name [Foo] giving way to the empty string. *)
Lemma failed_alias_not_left_unchanged :
  let r := run b_missing_events [b_g] in
  slots b_js r = [("Foo", Failed)] /\
  param_types r = [Some [typed [""; "Array.<>"]]] /\
  param_types r <> [Some [typed ["Foo"; "Array.<Foo>"]]].
Proof.
  vm_compute. repeat split. discriminate.
Qed.

Lemma export_precedence_witness :
  let table := exports (indexExports (record a_js (registry_of a_attached_events))) in
  JsMap.get "*" table = Some "pkg.Widget" /\
  JsMap.get "helper" table = Some "pkg.helper".
Proof.
  pose (reg := registry_of a_attached_events).
  destruct (export_precedence Posix.dirname Posix.resolve a_attached_events
              reg a_js (record a_js reg) "Widget")
    as (Star & Path & _).
  - vm_compute; reflexivity.
  - vm_compute; reflexivity.
  - vm_compute; reflexivity.
  - intros key value H. vm_compute in H.
    destruct H as [H|[H|[]]]; injection H as _ <-; discriminate.
  - split.
    + apply Star; [vm_compute; reflexivity | discriminate |].
      intros V H. vm_compute in H. discriminate.
    + apply (Path "helper" "helper" "pkg.helper");
        [vm_compute; reflexivity | vm_compute; reflexivity | discriminate].
Defined.

Lemma alias_resolution_witness :
  exists reg',
    barrier (registry_of (a_named_events ++ b_Foo_events)) = Ok reg' /\
    localImportAliases (record b_js reg')
    = [("Bar", Failed); ("Foo", Resolved "pkg.Foo")].
Proof.
  pose (reg := registry_of (a_named_events ++ b_Foo_events)).
  destruct (alias_resolution Posix.dirname Posix.resolve
              (a_named_events ++ b_Foo_events) reg)
    as (reg' & B & _); [vm_compute; reflexivity|].
  exists reg'. split; [exact B|].
  vm_compute in B. injection B as <-. reflexivity.
Defined.

(** C7, as stated, fails.  File A has no [module.exports] and assigns
    [exports.Foo = Foo]: its export table holds [pkg.Foo] under [Foo], and
    the alias [Foo] that file B imports from A by destructuring is
    resolved to [pkg.Foo]. *)
Lemma named_export_without_module_exports :
  let reg := registry_of (a_named_events ++ b_Foo_events) in
  let r := run (a_named_events ++ b_Foo_events) [] in
  JsMap.get "module.exports" (mappings (record a_js reg)) = None /\
  export_table a_js r = [("Foo", "pkg.Foo")] /\
  export_table a_js r <> [] /\
  JsMap.get "Foo" (localImportAliases (record b_js reg))
  = Some (Request a_js "Foo") /\
  JsMap.get "Foo" (slots b_js r) = Some (Resolved "pkg.Foo") /\
  JsMap.get "Foo" (slots b_js r) <> Some Failed.
Proof.
  vm_compute. repeat split; discriminate.
Qed.

Lemma no_exports_all_failed_witness :
  exists reg',
    barrier (registry_of (a_silent_events ++ b_Foo_events)) = Ok reg' /\
    exports (record a_js reg') = [] /\
    JsMap.get "Foo" (localImportAliases (record b_js reg')) = Some Failed.
Proof.
  pose (reg := registry_of (a_silent_events ++ b_Foo_events)).
  destruct (no_exports_all_failed Posix.dirname Posix.resolve
              (a_silent_events ++ b_Foo_events) reg a_js (record a_js reg))
    as (reg' & B & (fa' & GA & E) & F).
  - vm_compute; reflexivity.
  - vm_compute; reflexivity.
  - vm_compute; reflexivity.
  - intros key H. vm_compute in H. destruct H as [<-|[]]. reflexivity.
  - destruct (F b_js (record b_js reg) "Foo" "Foo")
      as (fb' & GB & S); try (vm_compute; reflexivity).
    exists reg'. split; [exact B|]. unfold record. rewrite GA, GB.
    split; assumption.
Defined.

Lemma file_order_determinism_witness :
  exists r1 r2,
    barrier (registry_of (a_events ++ b_simple_events)) = Ok r1 /\
    barrier (registry_of (b_simple_events ++ a_events)) = Ok r2 /\
    JsMap.keys r1 = [a_js; b_js] /\ JsMap.keys r2 = [b_js; a_js] /\
    forall file, JsMap.get file r1 = JsMap.get file r2.
Proof.
  destruct (file_order_determinism Posix.dirname Posix.resolve
              (a_events ++ b_simple_events) (b_simple_events ++ a_events)
              (registry_of (a_events ++ b_simple_events))
              (registry_of (b_simple_events ++ a_events)))
    as (r1 & r2 & B1 & B2 & E).
  - intros file. unfold a_events, b_simple_events.
    cbn [List.app filter]. unfold of_file.
    change (event_file Posix.resolve (BeforeParse a_js a_source))
      with (Some a_js).
    change (event_file Posix.resolve (NewDoclet a_Widget)) with (Some a_js).
    change (event_file Posix.resolve (NewDoclet a_exports)) with (Some a_js).
    change (event_file Posix.resolve (BeforeParse b_js b_simple_source))
      with (Some b_js).
    change (event_file Posix.resolve (NewDoclet b_f)) with (Some b_js).
    cbv beta iota.
    destruct (String.eqb a_js file) eqn:EA, (String.eqb b_js file) eqn:EB;
      try reflexivity.
    apply String.eqb_eq in EA, EB. rewrite <- EB in EA. discriminate EA.
  - vm_compute; reflexivity.
  - vm_compute; reflexivity.
  - exists r1, r2. repeat split; try assumption.
    + vm_compute in B1. now injection B1 as <-.
    + vm_compute in B2. now injection B2 as <-.
    + apply E.
Defined.

Lemma registry_idempotent_witness :
  let reg := registry_of (a_events ++ b_simple_events) in
  NoDup (JsMap.keys reg) /\
  getFileInfo reg a_js false = (Some (record a_js reg), reg) /\
  getFileInfo reg a_js true = (Some (record a_js reg), reg) /\
  fst (getFileInfo reg "/proj/c.js" false) = None /\
  snd (getFileInfo reg "/proj/c.js" false) = reg.
Proof.
  intros reg.
  destruct (registry_idempotent Posix.dirname Posix.resolve
              (a_events ++ b_simple_events) reg)
    as (N & I); [vm_compute; reflexivity|].
  split; [exact N|].
  destruct (I a_js) as (P & C & _). destruct (I "/proj/c.js") as (Q & _).
  rewrite P, Q. split; [reflexivity|]. split; [|split; reflexivity].
  apply C. vm_compute; reflexivity.
Defined.

(** * Further properties of the handlers *)

(** ** Invariants of the records of a run *)

Module InvariantFacts.

(** An update that keeps the property [P] of a record. *)
Definition keeps (P : FileInfo -> Prop) (f : FileInfo -> FileInfo) : Prop :=
  forall fi, P fi -> P (f fi).

Lemma keeps_fold {A : Type} (P : FileInfo -> Prop)
    (each : FileInfo -> A -> FileInfo) (xs : list A) :
  (forall x, keeps P (fun fi => each fi x)) ->
  keeps P (fun fi => fold_left each xs fi).
Proof.
  intros H. induction xs as [|x xs IH]; intros fi U; simpl; [exact U|].
  apply IH. now apply H.
Qed.

Lemma keeps_scan (P : FileInfo -> Prop) (ms : list Regex.found)
    (each : FileInfo -> Regex.found -> FileInfo) :
  (forall x, keeps P (fun fi => each fi x)) ->
  Forall (keeps P) (scan ms each).
Proof.
  intros H. destruct ms; constructor; [|constructor].
  now apply keeps_fold.
Qed.

Section Handlers.
Variable path_dirname : string -> string.
Variable path_resolve : string -> string -> string.
Variable P : FileInfo -> Prop.

(** The updates of [beforeParse] keep a property that every
    [localImportAliases.set(localAlias, [withExt(...), exported])] keeps. *)
Lemma beforeParse_keeps (filename source f : string) fs :
  (forall localAlias x exported,
      keeps P (add_alias localAlias (withExt x) exported)) ->
  event_updates path_dirname path_resolve (BeforeParse filename source)
  = Ok (f, fs) ->
  Forall (keeps P) fs.
Proof.
  intros H. cbn [event_updates]. intros [= _ <-].
  apply Forall_app; split; [|apply Forall_app; split];
    apply keeps_scan; intros x.
  - apply H.
  - apply H.
  - unfold destruct_aliases.
    apply (keeps_fold P (fun fi name => add_alias name _ _ fi)).
    intros y. apply H.
Qed.

(** The updates of [newDoclet] keep a property that the indexing of the
    doclet keeps. *)
Lemma newDoclet_keeps (doclet : Doclet) (f : string) fs :
  (forall meta, d_meta doclet = Some meta ->
                keeps P (index_doclet doclet meta)) ->
  event_updates path_dirname path_resolve (NewDoclet doclet) = Ok (f, fs) ->
  Forall (keeps P) fs.
Proof.
  intros H. cbn [event_updates].
  destruct (d_meta doclet) as [meta|]; [|discriminate].
  intros [= _ <-]. destruct (negb _ && negb _); constructor;
    [now apply H | constructor].
Qed.

Lemma keeps_apply_updates (filename : string) fs (reg : Registry) :
  P (new_FileInfo filename) ->
  Forall (keeps P) fs ->
  Forall (fun kv => P (snd kv)) reg ->
  Forall (fun kv => P (snd kv)) (apply_updates filename fs reg).
Proof.
  intros N F. revert reg; induction F as [|f fs Hf F IH]; intros reg A;
    [exact A|].
  change (apply_updates filename (f :: fs) reg)
    with (apply_updates filename fs (update_FileInfo reg filename f)).
  apply IH. rewrite update_FileInfo_set.
  apply Forall_set; [exact A|]. simpl. apply Hf.
  destruct (get filename reg) as [fi|] eqn:G; simpl; [|exact N].
  exact (get_Forall _ _ _ _ A G).
Qed.

(** A property of the fresh records that the updates of the events keep
    holds of every record of the registry after the events. *)
Lemma invariant_handle_all (evs : list event) (reg reg' : Registry) :
  (forall filename, P (new_FileInfo filename)) ->
  (forall ev f fs,
      In ev evs ->
      event_updates path_dirname path_resolve ev = Ok (f, fs) ->
      Forall (keeps P) fs) ->
  handle_all path_dirname path_resolve reg evs = Ok reg' ->
  Forall (fun kv => P (snd kv)) reg ->
  Forall (fun kv => P (snd kv)) reg'.
Proof.
  intros N. revert reg; induction evs as [|ev evs IH]; intros reg K; simpl.
  - now intros [= <-].
  - rewrite handle_updates.
    destruct (event_updates path_dirname path_resolve ev) as [[f fs]|e] eqn:E;
      simpl; [|discriminate].
    intros H A. apply (IH _ (fun ev' f' fs' I => K ev' f' fs' (or_intror I)) H).
    apply keeps_apply_updates; auto.
    apply (K ev f fs); [now left | exact E].
Qed.

Lemma invariant_registry_after (evs : list event) (reg : Registry)
    (file : string) (fi : FileInfo) :
  (forall filename, P (new_FileInfo filename)) ->
  (forall ev f fs,
      In ev evs ->
      event_updates path_dirname path_resolve ev = Ok (f, fs) ->
      Forall (keeps P) fs) ->
  registry_after path_dirname path_resolve evs = Ok reg ->
  get file reg = Some fi -> P fi.
Proof.
  intros N K H G.
  assert (A : Forall (fun kv => P (snd kv)) reg).
  { apply (invariant_handle_all evs JsMap.empty reg N K H). constructor. }
  exact (get_Forall _ _ _ _ A G).
Qed.

End Handlers.
End InvariantFacts.

(** ** [withExt] *)

Lemma endsWith_app (s p : string) : Js.endsWith (s ++ p) p = true.
Proof.
  unfold Js.endsWith. rewrite JsFacts.length_app.
  replace (String.length s + String.length p - String.length p)
    with (String.length s) by lia.
  rewrite JsFacts.slice_app, String.eqb_refl, andb_true_r.
  apply Nat.leb_le. lia.
Qed.

Lemma withExt_js (file : string) : Js.endsWith (withExt file) ".js" = true.
Proof.
  unfold withExt. destruct (Js.endsWith file ".js") eqn:F; [exact F|].
  apply endsWith_app.
Qed.

(** X1.  [withExt] returns a path that ends with [.js] as it is and
    appends [.js] to any other path; so it always returns a path that ends
    with [.js], and it changes nothing when applied again. *)
Theorem withExt_idempotent (file : string) :
  (Js.endsWith file ".js" = true -> withExt file = file) /\
  (Js.endsWith file ".js" = false -> withExt file = file ++ ".js") /\
  Js.endsWith (withExt file) ".js" = true /\
  withExt (withExt file) = withExt file.
Proof.
  pose proof (withExt_js file) as E.
  split; [|split; [|split]].
  - intros F. unfold withExt. now rewrite F.
  - intros F. unfold withExt. now rewrite F.
  - exact E.
  - unfold withExt at 1. now rewrite E.
Qed.

Lemma withExt_idempotent_witness :
  withExt "/proj/a.js" = "/proj/a.js" /\ withExt "/proj/a" = "/proj/a.js".
Proof.
  split.
  - apply (proj1 (withExt_idempotent "/proj/a.js")). reflexivity.
  - apply (proj1 (proj2 (withExt_idempotent "/proj/a"))). reflexivity.
Defined.

(** ** The requests of the scanners *)

Section ScannerProperties.
Variable path_dirname : string -> string.
Variable path_resolve : string -> string -> string.

(** The target of every request of the record ends with [.js]. *)
Definition targets_js (fi : FileInfo) : Prop :=
  Forall (fun kv => match snd kv with
                    | Request file _ => Js.endsWith file ".js" = true
                    | _ => True
                    end) (localImportAliases fi).

Lemma index_doclet_aliases (doclet : Doclet) (meta : Meta) (fi : FileInfo) :
  localImportAliases (index_doclet doclet meta fi) = localImportAliases fi
  /\ exports (index_doclet doclet meta fi) = exports fi
  /\ filename (index_doclet doclet meta fi) = filename fi.
Proof.
  unfold index_doclet, indexMappings, indexLongnames.
  destruct (String.eqb (d_kind doclet) "class" || _);
    destruct (negb (String.eqb (d_kind doclet) "class") && _);
    try destruct (negb (String.eqb (d_name doclet) _));
    try destruct (negb (String.eqb (code_type _) _));
    repeat split.
Qed.

Lemma run_targets_js (evs : list event) (reg : Registry) (file : string)
    (fi : FileInfo) :
  registry_after path_dirname path_resolve evs = Ok reg ->
  get file reg = Some fi ->
  targets_js fi.
Proof.
  intros H G.
  apply (InvariantFacts.invariant_registry_after path_dirname path_resolve
           targets_js evs reg file fi); auto.
  - intros filename. constructor.
  - intros [filename source|doclet] f fs _ E.
    + apply (InvariantFacts.beforeParse_keeps path_dirname path_resolve
               targets_js filename source f fs); [|exact E].
      intros localAlias x exported' fi0 T0. unfold targets_js. simpl.
      apply Forall_set; [exact T0|]. simpl. apply withExt_js.
    + apply (InvariantFacts.newDoclet_keeps path_dirname path_resolve
               targets_js doclet f fs); [|exact E].
      intros meta _ fi0 T0. unfold targets_js.
      now rewrite (proj1 (index_doclet_aliases doclet meta fi0)).
Qed.

(** X2.  In every registry of a run, the target file of every import
    request ends with [.js]: the three scanners pass the resolved path
    through [withExt] before they store it. *)
Theorem request_targets_end_with_js (evs : list event) (reg : Registry)
    (file : string) (fi : FileInfo) (name target exported : string) :
  registry_after path_dirname path_resolve evs = Ok reg ->
  get file reg = Some fi ->
  get name (localImportAliases fi) = Some (Request target exported) ->
  Js.endsWith target ".js" = true.
Proof.
  intros H G A.
  exact (get_Forall _ _ _ _ (run_targets_js evs reg file fi H G) A).
Qed.

End ScannerProperties.

(** ** Exceptions of a run *)

Lemma mapM_Err {A B : Type} (f : A -> result B) (xs : list A) (e : error) :
  mapM f xs = Err e -> exists x, In x xs /\ f x = Err e.
Proof.
  induction xs as [|x xs IH]; simpl; [discriminate|].
  destruct (f x) as [y|e'] eqn:F; simpl.
  - destruct (mapM f xs) as [ys|e'']; simpl; [discriminate|].
    intros [= <-]. destruct (IH eq_refl) as (x' & I & E). eauto.
  - intros [= <-]. eauto.
Qed.

Lemma mapM_Ok {A B : Type} (f : A -> result B) (xs : list A) (ys : list B) :
  mapM f xs = Ok ys -> Forall2 (fun x y => f x = Ok y) xs ys.
Proof.
  revert ys; induction xs as [|x xs IH]; simpl; intros ys.
  - intros [= <-]. constructor.
  - destruct (f x) as [y|e'] eqn:F; simpl; [|discriminate].
    destruct (mapM f xs) as [ys'|e'']; simpl; [|discriminate].
    intros [= <-]. constructor; auto.
Qed.

Lemma replace_each_Err {A : Type} (f : A -> result A)
    (field : option (list A)) (e : error) :
  replace_each f field = Err e ->
  exists xs x, field = Some xs /\ In x xs /\ f x = Err e.
Proof.
  destruct field as [xs|]; simpl; [|discriminate].
  destruct (mapM f xs) as [ys|e'] eqn:M; simpl; [discriminate|].
  intros [= <-]. apply mapM_Err in M as (x & I & E). eauto.
Qed.

Lemma replaceTypes_Err (localNames : JsMap.t string) (aliases : JsMap.t slot)
    (meta : Meta) (name : string) (e : error) :
  replaceTypes localNames aliases meta name = Err e -> e = parse_error meta.
Proof.
  intros H. now apply replaceTypes_error_iff in H.
Qed.

Lemma replaceAllTypes_Err (localNames : JsMap.t string)
    (aliases : JsMap.t slot) (meta : Meta) (item : Typed) (e : error) :
  replaceAllTypes localNames aliases meta item = Err e -> e = parse_error meta.
Proof.
  unfold replaceAllTypes. destruct (type_names item) as [names|];
    [|discriminate].
  destruct (mapM _ names) as [ys|e'] eqn:M; simpl; [discriminate|].
  intros [= <-]. apply mapM_Err in M as (x & _ & E).
  now apply replaceTypes_Err in E.
Qed.

Section RunProperties.
Variable path_dirname : string -> string.
Variable path_resolve : string -> string -> string.

Lemma modifyDoclet_Err (reg : Registry) (doclet : Doclet) (e : error) :
  modifyDoclet path_resolve reg doclet = Err e ->
  exists meta, d_meta doclet = Some meta /\ e = parse_error meta.
Proof.
  unfold modifyDoclet. destruct (d_meta doclet) as [meta|]; [|discriminate].
  destruct (fst (getFileInfo reg _ false)) as [fi|]; [|discriminate].
  intros H. exists meta. split; [reflexivity|].
  destruct (replace_each (replaceTypes _ _ meta) (d_augments doclet))
    as [a|ea] eqn:Ea; simpl in H.
  2:{ injection H as <-. apply replace_each_Err in Ea as (? & ? & _ & _ & E).
      now apply replaceTypes_Err in E. }
  destruct (replace_each (replaceAllTypes _ _ meta) (d_properties doclet))
    as [p|ep] eqn:Ep; simpl in H.
  2:{ injection H as <-. apply replace_each_Err in Ep as (? & ? & _ & _ & E).
      now apply replaceAllTypes_Err in E. }
  destruct (replace_each (replaceAllTypes _ _ meta) (d_params doclet))
    as [q|eq] eqn:Eq; simpl in H.
  2:{ injection H as <-. apply replace_each_Err in Eq as (? & ? & _ & _ & E).
      now apply replaceAllTypes_Err in E. }
  destruct (replace_each (replaceAllTypes _ _ meta) (d_returns doclet))
    as [r|er] eqn:Er; simpl in H.
  2:{ injection H as <-. apply replace_each_Err in Er as (? & ? & _ & _ & E).
      now apply replaceAllTypes_Err in E. }
  discriminate.
Qed.

Lemma handle_all_Err (evs : list event) (reg : Registry) (e : error) :
  handle_all path_dirname path_resolve reg evs = Err e ->
  e = TypeError /\
  exists doclet, In (NewDoclet doclet) evs /\ d_meta doclet = None.
Proof.
  revert reg; induction evs as [|ev evs IH]; intros reg; [discriminate|].
  cbn [handle_all]. destruct ev as [filename source|doclet].
  - cbn [handle bind]. intros H.
    destruct (IH _ H) as (-> & d & I & M). split; [reflexivity|].
    exists d. split; [now right | exact M].
  - cbn [handle]. unfold newDoclet.
    destruct (d_meta doclet) as [meta|] eqn:M.
    + destruct (negb _ && negb _); cbn [bind]; intros H;
        destruct (IH _ H) as (-> & d & I & M'); (split; [reflexivity|]);
        exists d; (split; [now right | exact M']).
    + cbn [bind]. intros [= <-]. split; [reflexivity|].
      exists doclet. split; [now left | exact M].
Qed.

(** X4.  A complete run throws in two ways only: the [TypeError] of
    [newDoclet] on a doclet without [meta], or, from [processingComplete],
    the parse error of [replaceTypes] naming the file and the line of one of
    the doclets; the resolution barrier in between never throws. *)
Theorem full_run_errors (evs : list event) (doclets : list Doclet)
    (e : error) :
  full_run path_dirname path_resolve evs doclets = Err e ->
  (e = TypeError /\
   exists doclet, In (NewDoclet doclet) evs /\ d_meta doclet = None)
  \/
  (exists doclet meta,
      In doclet doclets /\ d_meta doclet = Some meta /\
      e = ParseError ("Error parsing " ++ meta_filename meta ++ ":"
                      ++ Js.of_number (meta_lineno meta) ++ ".")).
Proof.
  unfold full_run.
  destruct (handle_all path_dirname path_resolve JsMap.empty evs)
    as [reg|e'] eqn:H; cbn [bind].
  - intros P. right. unfold processingComplete in P.
    destruct (barrier_record path_dirname path_resolve evs reg H)
      as (reg' & B & _).
    rewrite B in P. cbn [bind] in P.
    destruct (mapM (modifyDoclet path_resolve reg') doclets) as [ds|e'] eqn:M;
      cbn [bind] in P; [discriminate|].
    injection P as <-. apply mapM_Err in M as (d & I & E).
    apply modifyDoclet_Err in E as (meta & DM & ->).
    exists d, meta. auto.
  - intros [= <-]. left. now apply (handle_all_Err evs JsMap.empty).
Qed.

End RunProperties.

(** ** What the barrier keeps, and what it exports *)

Section BarrierProperties.
Variable path_dirname : string -> string.
Variable path_resolve : string -> string -> string.

Lemma keys_resolved_aliases (R : Registry) (fi : FileInfo) :
  keys (localImportAliases (resolved_file R fi)) = keys (localImportAliases fi).
Proof. apply (keys_map (fun _ => resolved_slot R)). Qed.

(** X5.  The resolution barrier keeps the paths of the registry and their
    order and, in every record, the path, the declared names, the mappings
    and the names of the aliases in their order: it only fills the export
    table and replaces the values of the slots. *)
Theorem barrier_frame (evs : list event) (reg : Registry) :
  registry_after path_dirname path_resolve evs = Ok reg ->
  exists reg',
    barrier reg = Ok reg' /\
    keys reg' = keys reg /\
    forall file fi,
      get file reg = Some fi ->
      exists fi',
        get file reg' = Some fi' /\
        filename fi' = filename fi /\
        longnamesByDeclaration fi' = longnamesByDeclaration fi /\
        mappings fi' = mappings fi /\
        keys (localImportAliases fi') = keys (localImportAliases fi).
Proof.
  intros H.
  pose proof (registry_after_unresolved path_dirname path_resolve evs reg H)
    as U.
  apply unresolved_all_requests in U.
  eexists. split; [apply (barrier_requests _ U)|]. split.
  - apply (keys_map (fun _ fi => resolved_file (index_all reg)
                                   (indexExports fi))).
  - intros file fi G.
    rewrite (get_map (fun _ fi => resolved_file (index_all reg)
                                    (indexExports fi))), G.
    eexists. split; [reflexivity|]. repeat split.
    exact (keys_resolved_aliases (index_all reg) (indexExports fi)).
Qed.

(** An entry of the export table computed for a record of a run. *)
Lemma export_entry_declared (evs : list event) (reg : Registry)
    (file : string) (fi : FileInfo) (p L : string) :
  registry_after path_dirname path_resolve evs = Ok reg ->
  get file reg = Some fi ->
  get p (exports (indexExports fi)) = Some L ->
  L <> "" /\
  exists V,
    get V (longnamesByDeclaration fi) = Some L /\
    ((p = "*" /\ get "module.exports" (mappings fi) = Some V) \/
     get (exportsAlias_final fi ++ "." ++ p) (mappings fi) = Some V).
Proof.
  intros H G X.
  destruct (registry_after_record path_dirname path_resolve evs reg file fi
              H G) as (E & _ & N).
  assert (K : forall V L', known_longname fi V = Some L' ->
                           L' <> "" /\
                           get V (longnamesByDeclaration fi) = Some L').
  { intros V L'. unfold known_longname.
    destruct (get V (longnamesByDeclaration fi)) as [l|]; [|discriminate].
    destruct (Js.truthy l) eqn:T; [|discriminate].
    intros [= <-]. split; [now apply JsFacts.truthy_true | reflexivity]. }
  simpl in X. rewrite export_table_get in X by exact N.
  assert (I : get p (exports_init fi) = Some L ->
              L <> "" /\
              exists V, get V (longnamesByDeclaration fi) = Some L /\
                        p = "*" /\
                        get "module.exports" (mappings fi) = Some V).
  { unfold exports_init.
    destruct (get "module.exports" (mappings fi)) as [x|];
      [|rewrite E; discriminate].
    destruct (known_longname fi x) as [l|] eqn:KX; [|rewrite E; discriminate].
    rewrite E. simpl. destruct (String.eqb p "*") eqn:S; [|discriminate].
    apply String.eqb_eq in S. intros [= <-].
    destruct (K x l KX) as [NL GL]. split; [exact NL|]. exists x. auto. }
  destruct (get (exportsAlias_final fi ++ "." ++ p) (mappings fi))
    as [V|] eqn:GV.
  - destruct (known_longname fi V) as [l|] eqn:KV.
    + injection X as <-. destruct (K V l KV) as [NL GL].
      split; [exact NL|]. exists V. auto.
    + destruct (I X) as (NL & V' & GL & S & M). split; [exact NL|].
      exists V'. auto.
  - destruct (I X) as (NL & V' & GL & S & M). split; [exact NL|].
    exists V'. auto.
Qed.

(** X6.  After the barrier, every value of an export table is a
    non-empty longname that the same file declares: under ["*"] the
    longname of the value of [module.exports], under a path [p] the longname
    of the value assigned to the export alias, a dot and [p].  Nothing else
    is exported. *)
Theorem exports_are_declared (evs : list event) (reg reg' : Registry)
    (file : string) (fi' : FileInfo) (p L : string) :
  registry_after path_dirname path_resolve evs = Ok reg ->
  barrier reg = Ok reg' ->
  get file reg' = Some fi' ->
  get p (exports fi') = Some L ->
  L <> "" /\
  exists V,
    get V (longnamesByDeclaration fi') = Some L /\
    ((p = "*" /\ get "module.exports" (mappings fi') = Some V) \/
     get (exportsAlias_final fi' ++ "." ++ p) (mappings fi') = Some V).
Proof.
  intros H B G X.
  destruct (barrier_record path_dirname path_resolve evs reg H)
    as (r & B' & R).
  assert (r = reg') by congruence; subst r.
  rewrite R in G. destruct (get file reg) as [fi|] eqn:G0; [|discriminate].
  injection G as <-.
  exact (export_entry_declared evs reg file fi p L H G0 X).
Qed.

(** X7.  After the barrier, an alias that holds a longname holds a
    non-empty longname declared by a file of the registry whose path ends
    with [.js]: the resolution never makes up a name. *)
Theorem resolved_alias_is_declared (evs : list event) (reg reg' : Registry)
    (file : string) (fi' : FileInfo) (name L : string) :
  registry_after path_dirname path_resolve evs = Ok reg ->
  barrier reg = Ok reg' ->
  get file reg' = Some fi' ->
  get name (localImportAliases fi') = Some (Resolved L) ->
  L <> "" /\
  exists target ft V,
    get target reg' = Some ft /\
    Js.endsWith target ".js" = true /\
    get V (longnamesByDeclaration ft) = Some L.
Proof.
  intros H B G A.
  destruct (barrier_record path_dirname path_resolve evs reg H)
    as (r & B' & R).
  assert (r = reg') by congruence; subst r.
  rewrite R in G. destruct (get file reg) as [fi|] eqn:G0; [|discriminate].
  injection G as <-.
  rewrite get_resolved_aliases in A. simpl in A.
  destruct (get name (localImportAliases fi)) as [v0|] eqn:A0; [|discriminate].
  injection A as A.
  destruct (registry_after_record path_dirname path_resolve evs reg file fi
              H G0) as (_ & F & _).
  pose proof (get_Forall _ _ _ _ F A0) as Q. simpl in Q.
  destruct Q as (tf & ep & ->). simpl in A.
  pose proof (get_Forall _ _ _ _
                (run_targets_js path_dirname path_resolve evs reg file fi H G0)
                A0) as T.
  simpl in T.
  unfold resolution in A. rewrite get_index_all in A.
  destruct (get tf reg) as [ft|] eqn:GT; simpl in A; [|discriminate].
  match type of A with
  | context [get ?k ?t] => destruct (get k t) as [l|] eqn:X
  end; [|discriminate].
  destruct (Js.truthy l); [|discriminate]. injection A as ->.
  destruct (export_entry_declared evs reg tf ft _ L H GT X)
    as (NL & V & GL & _).
  split; [exact NL|].
  exists tf, (resolved_file (index_all reg) (indexExports ft)), V.
  rewrite R, GT. auto.
Qed.

(** The alias after the first loop of [indexExports], when a value is
    ['exports']: the key of the last such entry. *)
Lemma exportsAlias_final_last (fi : FileInfo) (before after : JsMap.t string)
    (key : string) :
  mappings fi = (before ++ (key, "exports") :: after)%list ->
  (forall k v, In (k, v) after -> v <> "exports") ->
  exportsAlias_final fi = key.
Proof.
  intros M NE. unfold exportsAlias_final. rewrite M.
  rewrite fold_left_app. cbn [fold_left snd fst].
  change (String.eqb "exports" "exports") with true. cbv iota.
  clear M. revert NE. generalize key. clear.
  induction after as [|[k v] after IH]; intros key NE; [reflexivity|].
  cbn [fold_left snd fst].
  destruct (String.eqb v "exports") eqn:E.
  - apply String.eqb_eq in E. elim (NE k v); [now left | exact E].
  - apply IH. intros k' v' I. apply (NE k' v'). now right.
Qed.

(** X8.  Rebinding the export object.  When the mappings of a record of
    a run hold entries whose value is ['exports'], the key of the last one
    is the export alias, whatever [module.exports] is assigned: a path [p]
    is exported exactly when that key, a dot and [p] is assigned a value
    with a truthy declared longname, and assignments under another prefix,
    [exports.p] included, are not exported. *)
Theorem rebound_alias_wins (evs : list event) (reg : Registry) (file : string)
    (fi : FileInfo) (before after : JsMap.t string) (key : string) :
  registry_after path_dirname path_resolve evs = Ok reg ->
  get file reg = Some fi ->
  mappings fi = (before ++ (key, "exports") :: after)%list ->
  (forall k v, In (k, v) after -> v <> "exports") ->
  exportsAlias_final fi = key /\
  forall p, p <> "*" ->
    get p (exports (indexExports fi))
    = match get (key ++ "." ++ p) (mappings fi) with
      | Some V => known_longname fi V
      | None => None
      end.
Proof.
  intros H G M NE.
  pose proof (exportsAlias_final_last fi before after key M NE) as A.
  split; [exact A|]. intros p NP.
  destruct (registry_after_record path_dirname path_resolve evs reg file fi
              H G) as (E & _ & N).
  unfold indexExports, set_exports; cbn [exports].
  rewrite export_table_get by exact N. rewrite A.
  assert (I : get p (exports_init fi) = None).
  { unfold exports_init.
    destruct (get "module.exports" (mappings fi)) as [x|]; [|now rewrite E].
    destruct (known_longname fi x); [|now rewrite E].
    rewrite get_set_other by exact NP. now rewrite E. }
  destruct (get (key ++ "." ++ p) (mappings fi)) as [V|]; [|exact I].
  destruct (known_longname fi V); [reflexivity | exact I].
Qed.

(** X9.  The export object under its own name.  When a record of a run
    assigns nothing to [module.exports] and no mapping has the value
    ['exports'], the export alias stays ['exports']: a path [p] is exported
    exactly when [exports.p] is assigned a value with a truthy declared
    longname, and ["*"] is not exported unless it is such a path. *)
Theorem default_export_alias (evs : list event) (reg : Registry)
    (file : string) (fi : FileInfo) :
  registry_after path_dirname path_resolve evs = Ok reg ->
  get file reg = Some fi ->
  get "module.exports" (mappings fi) = None ->
  (forall key value, In (key, value) (mappings fi) -> value <> "exports") ->
  exportsAlias_final fi = "exports" /\
  forall p,
    get p (exports (indexExports fi))
    = match get ("exports." ++ p) (mappings fi) with
      | Some V => known_longname fi V
      | None => None
      end.
Proof.
  intros H G M NE.
  assert (A : exportsAlias_final fi = "exports").
  { rewrite exportsAlias_final_init by exact NE.
    unfold exportsAlias_init. now rewrite M. }
  split; [exact A|]. intros p.
  destruct (registry_after_record path_dirname path_resolve evs reg file fi
              H G) as (E & _ & N).
  unfold indexExports, set_exports; cbn [exports].
  rewrite export_table_get by exact N. rewrite A.
  assert (I : get p (exports_init fi) = None).
  { unfold exports_init. rewrite M, E. reflexivity. }
  change ("exports" ++ "." ++ p) with ("exports." ++ p).
  destruct (get ("exports." ++ p) (mappings fi)) as [V|]; [|exact I].
  destruct (known_longname fi V); [reflexivity | exact I].
Qed.

End BarrierProperties.

(** ** A second barrier *)

Lemma resolve_request_Err (reg : Registry) (v : slot) (e : error) :
  resolve_request reg v = Err e -> e = TypeError /\ v = Failed.
Proof.
  destruct v as [f x|l|].
  - rewrite resolve_request_Request. discriminate.
  - unfold resolve_request, slot_at. cbn [bind].
    repeat match goal with
           | |- context [match ?x with _ => _ end] =>
               destruct x; cbn [bind]; try discriminate
           end.
  - now intros [= <-].
Qed.

Lemma resolve_entries_Failed (reg : Registry) (entries : JsMap.t slot)
    (name : string) :
  In (name, Failed) entries -> resolve_entries reg entries = Err TypeError.
Proof.
  induction entries as [|[n v] entries IH]; simpl; [tauto|].
  intros [I|I].
  - inversion I; subst. reflexivity.
  - destruct (resolve_request reg v) as [v'|e] eqn:R; simpl.
    + now rewrite (IH I).
    + apply resolve_request_Err in R as [-> _]. reflexivity.
Qed.

Lemma resolve_entries_Err (reg : Registry) (entries : JsMap.t slot)
    (e : error) :
  resolve_entries reg entries = Err e -> e = TypeError.
Proof.
  induction entries as [|[n v] es IH]; simpl; [discriminate|].
  destruct (resolve_request reg v) as [v'|e1] eqn:Q; simpl.
  - destruct (resolve_entries reg es) as [a|e2]; simpl; [discriminate|].
    intros [= <-]. now apply IH.
  - intros [= <-]. now apply resolve_request_Err in Q.
Qed.

Lemma resolveImports_Err (reg : Registry) (fi : FileInfo) (e : error) :
  resolveImports reg fi = Err e -> e = TypeError.
Proof.
  unfold resolveImports.
  destruct (Nat.eqb (size (localImportAliases fi)) 0); [discriminate|].
  destruct (resolve_entries reg (localImportAliases fi)) as [a|e'] eqn:R;
    simpl; [discriminate|].
  intros [= <-]. now apply resolve_entries_Err in R.
Qed.

Lemma resolve_all_Failed (todo done : Registry) (file name : string)
    (fi : FileInfo) :
  In (file, fi) todo -> In (name, Failed) (localImportAliases fi) ->
  resolve_all done todo = Err TypeError.
Proof.
  revert done; induction todo as [|[f i] todo IH]; intros done;
    [intros []|].
  intros I A. cbn [resolve_all].
  destruct (resolveImports (done ++ (f, i) :: todo)%list i) as [i'|e] eqn:R;
    cbn [bind].
  - destruct I as [I|I].
    + inversion I; subst. unfold resolveImports in R.
      destruct (localImportAliases fi) as [|x xs] eqn:L; [destruct A|].
      cbn [size List.length Nat.eqb] in R.
      rewrite (resolve_entries_Failed _ _ name A) in R. discriminate.
    + now apply IH.
  - now apply resolveImports_Err in R as ->.
Qed.

Section SecondBarrier.
Variable path_resolve : string -> string -> string.

(** X10.  The barrier cannot be passed twice.  A slot that a first pass
    has set to [null] makes [resolveImports] throw a [TypeError] when it
    reads [request[0]]: on a registry with such a slot the barrier, and so
    [processingComplete], throws, whatever else the registry holds. *)
Theorem second_barrier_throws (reg : Registry) (file : string)
    (fi : FileInfo) (name : string) (doclets : list Doclet) :
  get file reg = Some fi ->
  get name (localImportAliases fi) = Some Failed ->
  barrier reg = Err TypeError /\
  processingComplete path_resolve reg doclets = Err TypeError.
Proof.
  intros G A.
  assert (B : barrier reg = Err TypeError).
  { unfold barrier.
    apply (resolve_all_Failed (index_all reg) [] file name (indexExports fi)).
    - apply get_In in G. unfold index_all.
      apply (in_map (fun kv => (fst kv, indexExports (snd kv))) _ _ G).
    - apply get_In in A. exact A. }
  split; [exact B|]. unfold processingComplete. now rewrite B.
Qed.

End SecondBarrier.

(** * The matcher and the language of an expression *)

Module LanguageFacts.
Import Regex RegexFacts.

(** The concatenation of the pieces. *)
Fixpoint flat (ps : list string) : string :=
  match ps with
  | [] => EmptyString
  | p :: ps' => p ++ flat ps'
  end.

(** The texts an expression can consume, whatever the order in which the
    matcher tries them; [$] consumes nothing. *)
Fixpoint matches (r : regex) (p : string) : Prop :=
  match r with
  | Chr c => exists a, p = String a EmptyString /\ c a = true
  | Eps => p = EmptyString
  | Seq r1 r2 => exists p1 p2, p = p1 ++ p2 /\ matches r1 p1 /\ matches r2 p2
  | Alt r1 r2 => matches r1 p \/ matches r2 p
  | Star _ r' => exists ps, p = flat ps /\ Forall (matches r') ps
  | Group _ r' => matches r' p
  | End => p = EmptyString
  end.

(** Group [i], when it is set, holds a text with the property [P]. *)
Definition cap_ok (i : nat) (P : string -> Prop) (c : caps) : Prop :=
  forall t, capture i c = Some t -> P t.

(** Every group [i] of the expression encloses texts with the property
    [P] only. *)
Fixpoint groups_ok (i : nat) (P : string -> Prop) (r : regex) : Prop :=
  match r with
  | Chr _ | Eps | End => True
  | Seq r1 r2 | Alt r1 r2 => groups_ok i P r1 /\ groups_ok i P r2
  | Star _ r' => groups_ok i P r'
  | Group j r' => groups_ok i P r' /\ (j = i -> forall t, matches r' t -> P t)
  end.

Lemma cap_ok_nil (i : nat) (P : string -> Prop) : cap_ok i P [].
Proof. intros t H; discriminate. Qed.

Lemma cap_ok_cons (i j : nat) (P : string -> Prop) (t : string) (c : caps) :
  (j = i -> P t) -> cap_ok i P c -> cap_ok i P ((j, t) :: c).
Proof.
  intros Ht Hc u; simpl. destruct (Nat.eqb i j) eqn:E.
  - apply Nat.eqb_eq in E. intros [= <-]. auto.
  - apply Hc.
Qed.

Lemma consumed_app (p s' : string) : consumed (p ++ s') s' = p.
Proof.
  unfold consumed. rewrite JsFacts.length_app.
  replace (String.length p + String.length s' - String.length s')
    with (String.length p) by lia.
  apply JsFacts.take_app.
Qed.

(** A successful run consumes a text of the language [L] and goes on with
    its continuation on the rest. *)
Definition consumes (i : nat) (P : string -> Prop) (L : string -> Prop)
    (body : string -> caps -> cont -> option (string * caps)) : Prop :=
  forall s c k x,
    cap_ok i P c -> body s c k = Some x ->
    exists p s' c',
      s = p ++ s' /\ L p /\ cap_ok i P c' /\ k s' c' = Some x.

Lemma star_loop_consumes (i : nat) (P L : string -> Prop) body
    (greedy : bool) :
  consumes i P L body ->
  forall fuel,
    consumes i P (fun p => exists ps, p = flat ps /\ Forall L ps)
      (fun s c k => star_loop body greedy k fuel s c).
Proof.
  intros Hb fuel; induction fuel as [|fuel IH]; intros s c k x Hc H;
    simpl in H.
  - exists EmptyString, s, c. repeat split; auto. exists []; auto.
  - assert (Here : exists p s' c',
               s = p ++ s' /\ (exists ps, p = flat ps /\ Forall L ps)
               /\ cap_ok i P c /\ k s c = k s' c')
      by (exists EmptyString, s, c; repeat split; auto; exists []; auto).
    assert (Hagain : body s c (fun s' c' =>
              if Nat.ltb (String.length s') (String.length s)
              then star_loop body greedy k fuel s' c' else None) = Some x ->
            exists p s' c',
              s = p ++ s' /\ (exists ps, p = flat ps /\ Forall L ps)
              /\ cap_ok i P c' /\ k s' c' = Some x).
    { intros H1. destruct (Hb _ _ _ _ Hc H1) as (p1 & s1 & c1 & E1 & L1 & C1 & K1).
      destruct (Nat.ltb (String.length s1) (String.length s)); [|discriminate].
      destruct (IH s1 c1 k x C1 K1) as (p2 & s2 & c2 & E2 & (ps & F & A) & C2 & K2).
      exists (p1 ++ p2), s2, c2. repeat split; auto.
      - rewrite E1, E2. symmetry. apply JsFacts.app_assoc.
      - exists (p1 :: ps). split; [simpl; now rewrite F | now constructor]. }
    destruct greedy.
    + destruct (body s c _) eqn:E.
      * injection H as ->. auto.
      * exists EmptyString, s, c. repeat split; auto. exists []; auto.
    + destruct (k s c) eqn:E.
      * injection H as ->. exists EmptyString, s, c. repeat split; auto.
        exists []; auto.
      * auto.
Qed.

Lemma run_consumes (i : nat) (P : string -> Prop) (r : regex) :
  groups_ok i P r -> consumes i P (matches r) (run r).
Proof.
  induction r as [p| |r1 IH1 r2 IH2|r1 IH1 r2 IH2|g r IH|j r IH|];
    intros G s c k x Hc H; simpl in H.
  - destruct s as [|a s]; [discriminate|].
    destruct (p a) eqn:Pa; [|discriminate].
    exists (String a EmptyString), s, c. repeat split; auto.
    exists a; auto.
  - exists EmptyString, s, c. repeat split; auto.
  - destruct G as [G1 G2].
    destruct (IH1 G1 _ _ _ _ Hc H) as (p1 & s1 & c1 & E1 & L1 & C1 & K1).
    destruct (IH2 G2 _ _ _ _ C1 K1) as (p2 & s2 & c2 & E2 & L2 & C2 & K2).
    exists (p1 ++ p2), s2, c2. repeat split; auto.
    + rewrite E1, E2. symmetry. apply JsFacts.app_assoc.
    + exists p1, p2. auto.
  - destruct G as [G1 G2]. destruct (run r1 s c k) eqn:E.
    + injection H as ->.
      destruct (IH1 G1 _ _ _ _ Hc E) as (p1 & s1 & c1 & E1 & L1 & C1 & K1).
      exists p1, s1, c1. repeat split; auto. now left.
    + destruct (IH2 G2 _ _ _ _ Hc H) as (p1 & s1 & c1 & E1 & L1 & C1 & K1).
      exists p1, s1, c1. repeat split; auto. now right.
  - exact (star_loop_consumes i P (matches r) (run r) g (IH G)
             (String.length s) s c k x Hc H).
  - destruct G as [G1 G2].
    destruct (IH G1 _ _ _ _ Hc H) as (p1 & s1 & c1 & E1 & L1 & C1 & K1).
    exists p1, s1, ((j, consumed s s1) :: c1). repeat split; auto.
    apply cap_ok_cons; auto. intros ->. rewrite E1, consumed_app. auto.
  - destruct s; [|discriminate]. exists EmptyString, EmptyString, c.
    repeat split; auto.
Qed.

Lemma run_accept_matches (i : nat) (P : string -> Prop) (r : regex)
    (s rest : string) (c : caps) :
  groups_ok i P r ->
  run r s [] (fun s' c' => Some (s', c')) = Some (rest, c) ->
  s = consumed s rest ++ rest /\ matches r (consumed s rest)
  /\ cap_ok i P c.
Proof.
  intros G E.
  destruct (run_consumes i P r G _ _ _ _ (cap_ok_nil i P) E)
    as (p & s' & c' & E1 & L1 & C1 & K1).
  injection K1 as -> ->. subst s. rewrite consumed_app. auto.
Qed.

(** The match found by [exec] splits the input into what is in front of
    it, the match and what is behind it; the match is a text of the
    language of the expression, and so are the texts of its groups. *)
Lemma exec_matches (i : nat) (P : string -> Prop) (r : regex) (s : string)
    (f : found) :
  groups_ok i P r -> exec r s = Some f ->
  s = before f ++ matched f ++ after f /\ matches r (matched f)
  /\ cap_ok i P (groups f).
Proof.
  intros G. revert f; induction s as [|a s IH]; intros f; simpl.
  - destruct (run r EmptyString [] _) as [[rest c]|] eqn:E; [|discriminate].
    intros [= <-]; simpl. exact (run_accept_matches i P r _ _ _ G E).
  - destruct (run r (String a s) [] _) as [[rest c]|] eqn:E.
    + intros [= <-]; simpl. exact (run_accept_matches i P r _ _ _ G E).
    + destruct (exec r s) as [f'|]; [|discriminate].
      intros [= <-]; simpl. destruct (IH f' eq_refl) as (E1 & L1 & C1).
      repeat split; auto. now rewrite <- E1.
Qed.

Lemma matches_Lit (t p : string) : matches (Lit t) p -> p = t.
Proof.
  revert p; induction t as [|a t IH]; intros p; simpl; [auto|].
  intros (p1 & p2 & -> & (b & -> & B) & M). simpl.
  unfold Js.is_char in B. apply Ascii.eqb_eq in B. subst b.
  now rewrite (IH p2 M).
Qed.

Lemma all_flat_units (c : ascii -> bool) (ps : list string) :
  Forall (matches (Chr c)) ps -> all c (flat ps) = true.
Proof.
  induction 1 as [|p ps (a & -> & A) F IH]; simpl; [reflexivity|].
  now rewrite A, IH.
Qed.

Lemma matches_Star_Chr (g : bool) (c : ascii -> bool) (p : string) :
  matches (Star g (Chr c)) p -> all c p = true.
Proof. intros (ps & -> & F). now apply all_flat_units. Qed.

Lemma matches_Plus_Chr (c : ascii -> bool) (p : string) :
  matches (Plus (Chr c)) p -> p <> EmptyString /\ all c p = true.
Proof.
  intros (p1 & p2 & -> & (a & -> & A) & M). simpl. split; [discriminate|].
  now rewrite A, (matches_Star_Chr _ _ _ M).
Qed.

(** The last unit of a text has the property [c]. *)
Fixpoint last_is (c : ascii -> bool) (s : string) : bool :=
  match s with
  | EmptyString => false
  | String a EmptyString => c a
  | String _ s' => last_is c s'
  end.

Lemma last_is_app (c : ascii -> bool) (s t : string) :
  t <> EmptyString -> last_is c (s ++ t) = last_is c t.
Proof.
  intros N. induction s as [|a s IH]; simpl; [reflexivity|].
  rewrite <- IH. destruct (s ++ t) eqn:E; [|reflexivity].
  destruct s; simpl in E; [congruence | discriminate].
Qed.


End LanguageFacts.

(** * Further properties of the type rewriter *)

Module RewriterEdgeFacts.
Import Regex RegexFacts Patterns TypeMatchFacts RewriterFacts LanguageFacts.

Lemma app_empty_r (s : string) : s ++ "" = s.
Proof. induction s as [|a s IH]; simpl; [reflexivity | now rewrite IH]. Qed.

Lemma groups_ok_True (i : nat) (r : regex) : groups_ok i (fun _ => True) r.
Proof. induction r; simpl; auto. Qed.

Lemma run_Seq (r1 r2 : regex) (s : string) (c : caps) (k : cont) :
  run (Seq r1 r2) s c k = run r1 s c (fun s' c' => run r2 s' c' k).
Proof. reflexivity. Qed.

Definition names : regex := Group 1 (Plus (Chr name_list_unit)).
Definition brackets : regex :=
  Seq (Chr Js.is_dot)
      (Seq (Chr (Js.is_char "<"))
           (Seq (Group 2 (Star true (Chr Js.is_dot)))
                (Chr (Js.is_char ">")))).

(** What a match of [typeMatch] from the head of [t] looks like: a name
    list, then nothing or a bracketed argument, up to the end of [t]. *)
Lemma run_typeMatch_shape (t rest : string) (c : caps) :
  run typeMatch t [] accept = Some (rest, c) ->
  rest = EmptyString /\
  exists p1 p2,
    t = p1 ++ p2 /\ p1 <> EmptyString /\ all name_list_unit p1 = true /\
    (p2 = EmptyString \/ last_is (Js.is_char ">") p2 = true).
Proof.
  intros H. change typeMatch with (Seq names (Seq (Opt brackets) End)) in H.
  rewrite run_Seq in H.
  destruct (run_consumes 0 (fun _ => True) names
              (groups_ok_True 0 names) _ _ _ _ (cap_ok_nil _ _) H)
    as (p1 & s1 & c1 & E1 & L1 & _ & K1).
  cbv beta in K1. rewrite run_Seq in K1.
  destruct (run_consumes 0 (fun _ => True) (Opt brackets)
              (groups_ok_True 0 _) _ _ _ _
              (fun _ _ => I) K1)
    as (p2 & s2 & c2 & E2 & L2 & _ & K2).
  cbv beta in K2. simpl in K2. destruct s2; [|discriminate].
  injection K2 as <- _. split; [reflexivity|].
  exists p1, p2. rewrite E1, E2, app_empty_r.
  destruct (matches_Plus_Chr _ _ L1) as [N1 A1].
  repeat split; auto.
  destruct L2 as [L2|L2]; [right | now left].
  destruct L2 as (d & q1 & -> & _ & (lt & q2 & -> & _ & (q & gt & -> & _ & (g & -> & Hg)))).
  rewrite <- !JsFacts.app_assoc. rewrite last_is_app by discriminate.
  exact Hg.
Qed.

Lemma last_is_outside (c u : ascii -> bool) (s : string) :
  (forall x, u x = true -> c x = false) ->
  all u s = true -> last_is c s = false.
Proof.
  intros D. induction s as [|a s IH]; [reflexivity|]. intros A. simpl in A.
  apply andb_prop in A as [Ha As]. destruct s as [|b s]; [now apply D|].
  change (last_is c (String a (String b s))) with (last_is c (String b s)).
  now apply IH.
Qed.

Lemma unit_not_closing (x : ascii) :
  name_list_unit x = true -> Js.is_char ">" x = false.
Proof.
  intros U. destruct (Js.is_char ">" x) eqn:E; [|reflexivity].
  unfold Js.is_char in E. apply Ascii.eqb_eq in E. subst x. discriminate U.
Qed.

(** No match of [typeMatch] starts in front of a unit that is outside the
    class of the name lists when only a name list follows that unit. *)
Lemma no_match_before (q0 : string) (a : ascii) (s : string) :
  name_list_unit a = false -> s <> EmptyString ->
  all name_list_unit s = true ->
  run typeMatch (q0 ++ String a s) [] accept = None.
Proof.
  intros Ua N A.
  destruct (run typeMatch (q0 ++ String a s) [] accept) as [[rest c]|] eqn:R;
    [|reflexivity].
  exfalso. apply run_typeMatch_shape in R
    as (_ & p1 & p2 & E & N1 & A1 & [->|L]).
  - rewrite app_empty_r in E. rewrite <- E, all_app in A1. simpl in A1.
    rewrite Ua in A1. simpl in A1. rewrite andb_false_r in A1. discriminate.
  - assert (N2 : p2 <> EmptyString) by (intros ->; discriminate L).
    assert (X : last_is (Js.is_char ">") (q0 ++ String a s) = true)
      by (rewrite E, last_is_app by exact N2; exact L).
    rewrite last_is_app in X by discriminate.
    destruct s as [|b s]; [congruence|].
    change (last_is (Js.is_char ">") (String a (String b s)))
      with (last_is (Js.is_char ">") (String b s)) in X.
    rewrite (last_is_outside _ name_list_unit _ unit_not_closing A) in X.
    discriminate.
Qed.

Lemma exec_cons_None (r : regex) (a : ascii) (s : string) :
  run r (String a s) [] accept = None ->
  exec r (String a s)
  = match exec r s with
    | Some f => Some {| before := String a (before f); matched := matched f;
                        groups := groups f; after := after f |}
    | None => None
    end.
Proof. intros H. unfold accept in H. simpl. now rewrite H. Qed.

(** The leftmost match of [typeMatch] in a text that ends with a name list
    behind a unit outside the class: the name list alone. *)
Lemma exec_last_names (pre : string) (a : ascii) (s : string) :
  name_list_unit a = false -> s <> EmptyString ->
  all name_list_unit s = true ->
  exec typeMatch (pre ++ String a s)
  = Some {| before := pre ++ String a EmptyString; matched := s;
            groups := [(1, s)]; after := EmptyString |}.
Proof.
  intros Ua N A. induction pre as [|b pre IH].
  - cbn [append].
    rewrite exec_cons_None by exact (no_match_before "" a s Ua N A).
    now rewrite exec_names.
  - change (String b pre ++ String a s) with (String b (pre ++ String a s)).
    rewrite exec_cons_None
      by exact (no_match_before (String b pre) a s Ua N A).
    now rewrite IH.
Qed.

(** The match of a name list, any unit that is no line terminator and no
    unit of a name list, and a generic argument in brackets. *)
Lemma exec_generic_sep (base inner : string) (d : ascii) :
  base <> EmptyString -> all name_list_unit base = true ->
  Js.is_dot d = true -> name_list_unit d = false ->
  all Js.is_dot inner = true ->
  exec typeMatch (base ++ String d ("<" ++ inner ++ ">")) =
  Some {| before := EmptyString;
          matched := base ++ String d ("<" ++ inner ++ ">");
          groups := [(2, inner); (1, base)]; after := EmptyString |}.
Proof.
  intros N A Dd Ud D.
  set (name := base ++ String d ("<" ++ inner ++ ">")).
  assert (R : run typeMatch name [] accept
              = Some (EmptyString, [(2, inner); (1, base)])).
  { rewrite run_typeMatch. subst name.
    destruct base as [|a base1]; [congruence|].
    simpl in A. apply andb_prop in A as [Ha A].
    cbn [append]. rewrite Ha.
    apply greedy_stop; auto.
    unfold after_names, generic, Opt. cbn [run].
    rewrite Dd. change (Js.is_char "<" "<") with true.
    cbv iota.
    match goal with
    | |- context [star_loop ?b true ?k ?n ?s ?c] =>
        change (star_loop b true k n s c)
          with (star_loop (run (Chr Js.is_dot)) true k n s c)
    end.
    rewrite star_loop_chr by auto.
    erewrite greedy_last; eauto.
    cbn [run]. change (Js.is_char ">" ">") with true. cbv iota beta.
    unfold accept, consumed. repeat f_equal.
    - rewrite JsFacts.length_app. simpl String.length.
      replace (String.length inner + 1 - 1) with (String.length inner) by lia.
      apply JsFacts.take_app.
    - change (String a (base1 ++ String d (String "<" (inner ++ ">"))))
        with (String a base1 ++ String d (String "<" (inner ++ ">"))).
      rewrite JsFacts.length_app.
      replace (String.length (String a base1) + _ - _)
        with (String.length (String a base1)) by (simpl; lia).
      apply JsFacts.take_app. }
  apply exec_head in R. rewrite R. unfold consumed. simpl String.length.
  rewrite Nat.sub_0_r, JsFacts.take_all. reflexivity.
Qed.

End RewriterEdgeFacts.

Section RewriterProperties.
Import RewriterEdgeFacts.
Variable localNames : JsMap.t string.
Variable aliases : JsMap.t slot.
Variable meta : Meta.

(** X11.  The expression of [replaceTypes] is searched for, not matched
    against the whole name: when a name ends with a name list behind a
    unit that is outside the class of the name lists (a dot, a colon, a
    tilde, a hash), everything up to that unit is dropped and the result is
    the rewritten name list alone. *)
Theorem qualifier_is_dropped (pre : string) (a : ascii) (s : string) :
  name_list_unit a = false -> s <> "" -> all name_list_unit s = true ->
  replaceTypes localNames aliases meta (pre ++ String a s)
  = Ok (replace_actual localNames aliases s).
Proof.
  intros Ua N A. rewrite replaceTypes_unfold.
  rewrite exec_last_names by assumption. reflexivity.
Qed.

(** X12.  On a bare name, a non-empty word, the declared names of the
    file come first, then the aliases, and a name that is a key of neither
    is returned as it is. *)
Theorem bare_name_precedence (name : string) :
  name <> "" -> all Js.is_word name = true ->
  (forall L, get name localNames = Some L ->
             replaceTypes localNames aliases meta name = Ok L)
  /\ (forall L, get name localNames = None ->
                get name aliases = Some (Resolved L) ->
                replaceTypes localNames aliases meta name = Ok L)
  /\ (get name localNames = None -> get name aliases = None ->
      replaceTypes localNames aliases meta name = Ok name).
Proof.
  intros N W. rewrite NameFacts.replaceTypes_word by assumption.
  unfold replace_name, has. repeat split.
  - intros L ->. reflexivity.
  - intros L -> ->. reflexivity.
  - intros -> ->. reflexivity.
Qed.

(** X13.  An empty generic argument is dropped together with its
    brackets: a name list followed by [.<>] is rewritten to the rewritten
    name list alone. *)
Theorem empty_generic_is_dropped (base : string) :
  base <> "" -> all name_list_unit base = true ->
  replaceTypes localNames aliases meta (base ++ ".<>")
  = Ok (replace_actual localNames aliases base).
Proof.
  intros N A. rewrite replaceTypes_unfold.
  change (base ++ ".<>") with (base ++ String "." ("<" ++ "" ++ ">")).
  rewrite (exec_generic_sep base "" "." N A eq_refl eq_refl eq_refl).
  reflexivity.
Qed.

(** X14.  The unit in front of the opening bracket is not compared with a
    dot: any unit that is neither a line terminator nor a unit of a name
    list is taken for it, and the rewritten expression has a dot in its
    place. *)
Theorem separator_becomes_dot (base inner : string) (d : ascii) :
  base <> "" -> all name_list_unit base = true ->
  Js.is_dot d = true -> name_list_unit d = false ->
  inner <> "" -> all Js.is_dot inner = true ->
  replaceTypes localNames aliases meta (base ++ String d ("<" ++ inner ++ ">"))
  = (r <- replaceTypes localNames aliases meta inner ;;
     Ok (replace_actual localNames aliases base ++ ".<" ++ r ++ ">")).
Proof.
  intros N A Dd Ud Ni Di. rewrite replaceTypes_unfold.
  rewrite (exec_generic_sep base inner d N A Dd Ud Di).
  unfold group. simpl.
  apply JsFacts.truthy_true in Ni. now rewrite Ni.
Qed.

End RewriterProperties.

(** * Further properties of the scanners *)

Module ScannerFacts.
Import Regex RegexFacts Patterns LanguageFacts.

Lemma matches_Cat_cons (r : regex) (rs : list regex) (p : string) :
  rs <> [] -> matches (Cat (r :: rs)) p ->
  exists p1 p2, p = p1 ++ p2 /\ matches r p1 /\ matches (Cat rs) p2.
Proof.
  destruct rs as [|r' rs]; [congruence|]. intros _ H. exact H.
Qed.

Lemma matches_Cat_last (rs : list regex) (t p : string) :
  matches (Cat (rs ++ [Lit t])%list) p -> exists body, p = body ++ t.
Proof.
  revert p; induction rs as [|r rs IH]; intros p H.
  - apply matches_Lit in H. exists EmptyString. exact H.
  - apply matches_Cat_cons in H as (p1 & p2 & -> & _ & M);
      [|destruct rs; discriminate].
    destruct (IH p2 M) as (body & ->). exists (p1 ++ body).
    symmetry. apply JsFacts.app_assoc.
Qed.

(** A match of [typedefRegex] is a comment block. *)
Lemma typedef_block (m : string) :
  matches typedefRegex m -> exists body, m = "/**" ++ body ++ "*/".
Proof.
  intros H.
  change typedefRegex
    with (Cat (Lit "/**" ::
               [Star false s; Lit "@typedef"; Plus s; Lit "{import(";
                quote; Group 1 (Plus not_quote); quote; Star true (Lit ")");
                dotted 2; Lit "}"; Plus s; Group 3 (Plus w); Star false s]
               ++ [Lit "*/"])%list) in H.
  apply matches_Cat_cons in H as (p1 & p2 & -> & M1 & M2); [|discriminate].
  apply matches_Lit in M1. subst p1.
  apply matches_Cat_last in M2 as (body & ->). now exists body.
Qed.

(** The source with the blocks [m] between the pieces [b], and without
    them. *)
Fixpoint with_blocks (pieces : list (string * string)) (rest : string)
  : string :=
  match pieces with
  | [] => rest
  | (b, m) :: pieces' => b ++ m ++ with_blocks pieces' rest
  end.

Fixpoint without_blocks (pieces : list (string * string)) (rest : string)
  : string :=
  match pieces with
  | [] => rest
  | (b, _) :: pieces' => b ++ without_blocks pieces' rest
  end.

(** [matchAll] and [replace] with the empty string, for an expression
    whose matches are never empty: the source is cut into the texts in
    front of the matches, the matches and the rest, and the matches are
    left out. *)
Lemma remove_matches_blocks (r : regex) (Q : string -> Prop) :
  (forall m, matches r m -> Q m /\ m <> EmptyString) ->
  forall n source,
    exists pieces rest,
      source = with_blocks pieces rest /\
      remove_matches (matchAll_from n r source) source
      = without_blocks pieces rest /\
      Forall (fun bm => Q (snd bm)) pieces /\
      List.map matched (matchAll_from n r source) = List.map snd pieces.
Proof.
  intros HQ. induction n as [|n IH]; intros source.
  - exists [], source. repeat split; constructor.
  - cbn [matchAll_from]. destruct (exec r source) as [f|] eqn:E.
    + destruct (exec_matches 0 (fun _ => True) r source f
                  (RewriterEdgeFacts.groups_ok_True 0 r) E) as (S & M & _).
      destruct (HQ _ M) as [Qm Nm].
      destruct (matched f) as [|a m] eqn:Em; [congruence|].
      destruct (IH (after f)) as (pieces & rest & S' & R' & F' & M').
      exists ((before f, String a m) :: pieces), rest.
      cbn [with_blocks without_blocks remove_matches List.map snd].
      rewrite <- S', <- R', <- M', Em. repeat split; auto.
    + exists [], source. repeat split; constructor.
Qed.

End ScannerFacts.

Section SourceProperties.
Import ScannerFacts.
Variable path_dirname : string -> string.
Variable path_resolve : string -> string -> string.

Lemma beforeParse_source (reg : Registry) (filename source : string) :
  snd (beforeParse path_dirname path_resolve reg filename source)
  = remove_matches (Regex.matchAll typedefRegex source) source.
Proof.
  unfold beforeParse, typedefImportAliases.
  destruct (Regex.matchAll typedefRegex source); reflexivity.
Qed.

(** X15.  [beforeParse] only deletes comment blocks from the source: the
    source splits into pieces, blocks that begin with the opening of a
    documentation comment and end with the closing of a comment, and a
    rest; the source handed on is the pieces and the rest, in order, with
    nothing inserted. *)
Theorem beforeParse_removes_comment_blocks (reg : Registry)
    (filename source : string) :
  exists pieces rest,
    source = with_blocks pieces rest /\
    snd (beforeParse path_dirname path_resolve reg filename source)
    = without_blocks pieces rest /\
    Forall (fun bm => exists body, snd bm = "/**" ++ body ++ "*/") pieces.
Proof.
  rewrite beforeParse_source. unfold Regex.matchAll.
  destruct (remove_matches_blocks typedefRegex
              (fun m => exists body, m = "/**" ++ body ++ "*/")) with
    (n := S (String.length source)) (source := source)
    as (pieces & rest & S & R & F & _).
  - intros m M. destruct (typedef_block m M) as (body & ->).
    split; [now exists body | discriminate].
  - exists pieces, rest. auto.
Qed.

End SourceProperties.

(** * Further properties of the run *)

Section FrameProperties.
Variable path_dirname : string -> string.
Variable path_resolve : string -> string -> string.

Lemma updated_keeps (P : FileInfo -> Prop) (f : string)
    (fs : list (FileInfo -> FileInfo)) (o : option FileInfo) (fi' : FileInfo) :
  Forall (InvariantFacts.keeps P) fs ->
  P (record_of f o) ->
  updated f fs o = Some fi' -> P fi'.
Proof.
  intros F. revert o; induction F as [|g fs Hg F IH]; intros o H.
  - simpl. intros ->. exact H.
  - change (updated f (g :: fs) o)
      with (updated f fs (Some (g (record_of f o)))).
    apply IH. simpl. now apply Hg.
Qed.

(** X16.  What a handler of the files leaves alone.  An event changes at
    most the record of its own file; in that record it never touches the
    path or the export table; [beforeParse] changes neither the declared
    names nor the mappings, and [newDoclet] changes no alias. *)
Theorem handlers_frame (reg reg' : Registry) (ev : event) :
  handle path_dirname path_resolve reg ev = Ok reg' ->
  forall file,
    (event_file path_resolve ev <> Some file -> get file reg' = get file reg)
    /\
    (forall fi',
        get file reg' = Some fi' ->
        let fi := record_of file (get file reg) in
        filename fi' = filename fi /\
        exports fi' = exports fi /\
        match ev with
        | BeforeParse _ _ =>
            longnamesByDeclaration fi' = longnamesByDeclaration fi /\
            mappings fi' = mappings fi
        | NewDoclet _ => localImportAliases fi' = localImportAliases fi
        end).
Proof.
  intros H file. rewrite handle_updates in H.
  destruct (event_updates path_dirname path_resolve ev) as [[f fs]|e] eqn:E;
    cbn [bind fst snd] in H; [|discriminate].
  injection H as <-. rewrite get_apply_updates. split.
  - intros NE. destruct (String.eqb file f) eqn:Q; [|reflexivity].
    apply String.eqb_eq in Q. subst f.
    apply event_updates_file in E. congruence.
  - intros fi' G fi. destruct (String.eqb file f) eqn:Q.
    + apply String.eqb_eq in Q. subst f.
      destruct ev as [path source|doclet].
      * apply (updated_keeps
                 (fun x => filename x = filename fi /\
                           exports x = exports fi /\
                           longnamesByDeclaration x = longnamesByDeclaration fi
                           /\ mappings x = mappings fi)
                 file fs (get file reg) fi'); [|now repeat split|exact G].
        apply (InvariantFacts.beforeParse_keeps path_dirname path_resolve _
                 path source file fs); [|exact E].
        intros localAlias x exported y Hy. exact Hy.
      * apply (updated_keeps
                 (fun x => filename x = filename fi /\
                           exports x = exports fi /\
                           localImportAliases x = localImportAliases fi)
                 file fs (get file reg) fi'); [|now repeat split|exact G].
        apply (InvariantFacts.newDoclet_keeps path_dirname path_resolve _
                 doclet file fs); [|exact E].
        intros meta _ y (Y1 & Y2 & Y3).
        destruct (index_doclet_aliases doclet meta y) as (A1 & A2 & A3).
        rewrite A1, A2, A3. auto.
    + subst fi. rewrite G. cbn [record_of]. destruct ev; auto.
Qed.

(** ** Declarations without a qualified longname *)

Lemma indexExports_nothing (fi : FileInfo) :
  exports fi = [] -> longnamesByDeclaration fi = [] ->
  exports (indexExports fi) = [].
Proof.
  intros E L. unfold indexExports, set_exports; cbn [exports].
  assert (K : forall x, known_longname fi x = None).
  { intros x. unfold known_longname. now rewrite L. }
  assert (I : exports_init fi = []).
  { unfold exports_init.
    destruct (get "module.exports" (mappings fi)); [rewrite K|]; exact E. }
  rewrite I. generalize (exportsAlias_final fi). intros a.
  induction (mappings fi) as [|[k v] m IH]; [reflexivity|].
  cbn [fold_left]. unfold export_entry at 2. rewrite K.
  destruct (Js.startsWith k (a ++ ".")); exact IH.
Qed.

Lemma index_doclet_undotted (doclet : Doclet) (meta : Meta) (fi : FileInfo) :
  (d_kind doclet = "class" \/ d_kind doclet = "function" ->
   d_name doclet = d_longname doclet) ->
  longnamesByDeclaration (index_doclet doclet meta fi)
  = longnamesByDeclaration fi.
Proof.
  intros H. unfold index_doclet, indexMappings, indexLongnames.
  destruct (String.eqb (d_kind doclet) "class") eqn:C;
    [apply String.eqb_eq in C|];
    [|destruct (String.eqb (d_kind doclet) "function") eqn:F;
      [apply String.eqb_eq in F|]].
  - rewrite (H (or_introl C)), String.eqb_refl. reflexivity.
  - rewrite (H (or_intror F)), String.eqb_refl. reflexivity.
  - cbn [negb andb orb].
    destruct (negb (String.eqb (code_type _) _)); reflexivity.
Qed.

(** X17.  Only qualified declarations can be imported.  When every class
    or function doclet of a run has a longname equal to its name, as the
    declarations of a file without a module or a namespace have, no record
    indexes a declared name, the barrier fills no export table, and every
    alias of every file becomes [null]. *)
Theorem undotted_declarations_export_nothing (evs : list event)
    (reg : Registry) :
  registry_after path_dirname path_resolve evs = Ok reg ->
  (forall doclet,
      In (NewDoclet doclet) evs ->
      d_kind doclet = "class" \/ d_kind doclet = "function" ->
      d_name doclet = d_longname doclet) ->
  exists reg',
    barrier reg = Ok reg' /\
    forall file fi',
      get file reg' = Some fi' ->
      longnamesByDeclaration fi' = [] /\
      exports fi' = [] /\
      forall name v, get name (localImportAliases fi') = Some v -> v = Failed.
Proof.
  intros H U.
  destruct (barrier_record path_dirname path_resolve evs reg H)
    as (reg' & B & R).
  exists reg'. split; [exact B|].
  assert (L : forall file fi, get file reg = Some fi ->
                              longnamesByDeclaration fi = []).
  { intros file fi G.
    apply (InvariantFacts.invariant_registry_after path_dirname path_resolve
             (fun x => longnamesByDeclaration x = []) evs reg file fi);
      auto.
    intros [filename source|doclet] f fs I E.
    - apply (InvariantFacts.beforeParse_keeps path_dirname path_resolve _
               filename source f fs); [|exact E].
      intros localAlias x exported y Hy. exact Hy.
    - apply (InvariantFacts.newDoclet_keeps path_dirname path_resolve _
               doclet f fs); [|exact E].
      intros meta _ y Hy.
      now rewrite (index_doclet_undotted doclet meta y (U doclet I)). }
  assert (X : forall file fi, get file reg = Some fi ->
                              exports (indexExports fi) = []).
  { intros file fi G. apply indexExports_nothing; [|exact (L file fi G)].
    now destruct (registry_after_record path_dirname path_resolve evs reg
                    file fi H G). }
  intros file fi' G. rewrite R in G.
  destruct (get file reg) as [fi|] eqn:G0; [|discriminate].
  injection G as <-. split; [exact (L file fi G0)|].
  split; [exact (X file fi G0)|].
  intros name v A. rewrite get_resolved_aliases in A. cbn [indexExports
    set_exports localImportAliases] in A.
  destruct (get name (localImportAliases fi)) as [v0|] eqn:A0; [|discriminate].
  injection A as <-.
  destruct (registry_after_record path_dirname path_resolve evs reg file fi
              H G0) as (_ & F & _).
  pose proof (get_Forall _ _ _ _ F A0) as Q. simpl in Q.
  destruct Q as (tf & ep & ->). cbn [resolved_slot]. unfold resolution.
  rewrite get_index_all.
  destruct (get tf reg) as [ft|] eqn:GT; [|reflexivity].
  cbn [option_map]. now rewrite (X tf ft GT).
Qed.

End FrameProperties.

(** ** The shape of a rewritten doclet *)

Definition names_shape (item : Typed) : option nat :=
  option_map (@List.length string) (type_names item).

Definition items_shape (field : option (list Typed))
  : option (list (option nat)) :=
  option_map (List.map names_shape) field.

Lemma mapM_length {A B : Type} (f : A -> result B) (xs : list A)
    (ys : list B) :
  mapM f xs = Ok ys -> List.length ys = List.length xs.
Proof.
  intros H. apply mapM_Ok in H. induction H; simpl; congruence.
Qed.

Lemma replaceAllTypes_shape (localNames : JsMap.t string)
    (aliases : JsMap.t slot) (meta : Meta) (item item' : Typed) :
  replaceAllTypes localNames aliases meta item = Ok item' ->
  names_shape item' = names_shape item.
Proof.
  unfold replaceAllTypes, names_shape.
  destruct (type_names item) as [names|] eqn:N.
  - destruct (mapM _ names) as [ys|e] eqn:M; cbn [bind]; [|discriminate].
    intros [= <-]. cbn [type_names option_map].
    now rewrite (mapM_length _ _ _ M).
  - intros [= <-]. now rewrite N.
Qed.

Lemma replace_each_shape {A S : Type} (f : A -> result A) (shape : A -> S)
    (field field' : option (list A)) :
  (forall x y, f x = Ok y -> shape y = shape x) ->
  replace_each f field = Ok field' ->
  option_map (List.map shape) field' = option_map (List.map shape) field.
Proof.
  intros K. destruct field as [xs|]; cbn [replace_each].
  - destruct (mapM f xs) as [ys|e] eqn:M; cbn [bind]; [|discriminate].
    intros [= <-]. cbn [option_map]. f_equal.
    apply mapM_Ok in M. induction M as [|x y xs ys Hxy M IH]; simpl;
      [reflexivity|].
    now rewrite (K x y Hxy), IH.
  - now intros [= <-].
Qed.

Lemma replace_each_length {A : Type} (f : A -> result A)
    (field field' : option (list A)) :
  replace_each f field = Ok field' ->
  option_map (@List.length A) field' = option_map (@List.length A) field.
Proof.
  destruct field as [xs|]; cbn [replace_each].
  - destruct (mapM f xs) as [ys|e] eqn:M; cbn [bind]; [|discriminate].
    intros [= <-]. cbn [option_map]. now rewrite (mapM_length _ _ _ M).
  - now intros [= <-].
Qed.

Section ShapeProperties.
Variable path_resolve : string -> string -> string.

(** X18.  [modifyDoclet] keeps the shape of a doclet.  When it returns,
    the kind, the name, the longname, the scope and [meta] are as before; a
    list that was absent is absent; [augments] has as many entries, and
    [properties], [params] and [returns] have as many items, each with a
    [type] that is absent as before or lists as many names.  A doclet
    without [meta], or of a file without a record, is returned as it is. *)
Theorem modifyDoclet_keeps_shape (reg : Registry) (doclet doclet' : Doclet) :
  modifyDoclet path_resolve reg doclet = Ok doclet' ->
  (d_kind doclet' = d_kind doclet /\
   d_name doclet' = d_name doclet /\
   d_longname doclet' = d_longname doclet /\
   d_scope doclet' = d_scope doclet /\
   d_meta doclet' = d_meta doclet) /\
  (option_map (@List.length string) (d_augments doclet')
   = option_map (@List.length string) (d_augments doclet) /\
   items_shape (d_properties doclet') = items_shape (d_properties doclet) /\
   items_shape (d_params doclet') = items_shape (d_params doclet) /\
   items_shape (d_returns doclet') = items_shape (d_returns doclet)) /\
  ((forall meta, d_meta doclet = Some meta ->
      get (path_resolve (meta_path meta) (meta_filename meta)) reg = None) ->
   doclet' = doclet).
Proof.
  unfold modifyDoclet. destruct (d_meta doclet) as [meta|] eqn:DM.
  2:{ intros [= <-]. repeat split; auto. }
  unfold getFileInfo. cbn [fst negb].
  destruct (get (path_resolve (meta_path meta) (meta_filename meta)) reg)
    as [fi|] eqn:G.
  2:{ cbn [fst]. intros [= <-]. repeat split; auto. }
  cbn [fst]. cbv zeta.
  destruct (replace_each (replaceTypes _ _ meta) (d_augments doclet)) as [a|e] eqn:Ea;
    cbn [bind]; [|discriminate].
  destruct (replace_each (replaceAllTypes _ _ meta) (d_properties doclet)) as [p|e] eqn:Ep;
    cbn [bind]; [|discriminate].
  destruct (replace_each (replaceAllTypes _ _ meta) (d_params doclet)) as [q|e] eqn:Eq;
    cbn [bind]; [|discriminate].
  destruct (replace_each (replaceAllTypes _ _ meta) (d_returns doclet)) as [r|e] eqn:Er;
    cbn [bind]; [|discriminate].
  intros [= <-]. cbn.
  split; [now repeat split|]. split.
  - split; [exact (replace_each_length _ _ _ Ea)|].
    repeat split; unfold items_shape;
      (eapply replace_each_shape; [|eassumption]);
      intros x y; apply replaceAllTypes_shape.
  - intros N. specialize (N meta eq_refl). congruence.
Qed.

End ShapeProperties.

(** * The names of the aliases *)

Module AliasNameFacts.
Import Regex RegexFacts Patterns LanguageFacts.

Lemma trimEnd_idempotent (s : string) : Js.trimEnd (Js.trimEnd s) = Js.trimEnd s.
Proof.
  induction s as [|c s IH]; [reflexivity|].
  cbn [Js.trimEnd]. destruct (Js.trimEnd s) as [|b t] eqn:E.
  - destruct (Js.is_space c) eqn:S; [reflexivity|].
    cbn [Js.trimEnd]. now rewrite S.
  - change (Js.trimEnd (String c (String b t)))
      with (match Js.trimEnd (String b t) with
            | EmptyString =>
                if Js.is_space c then EmptyString else String c EmptyString
            | String b' t' => String c (String b' t')
            end).
    now rewrite IH.
Qed.

Lemma trimStart_head (s : string) :
  match Js.trimStart s with
  | EmptyString => True
  | String c _ => Js.is_space c = false
  end.
Proof.
  induction s as [|c s IH]; [exact I|].
  cbn [Js.trimStart]. destruct (Js.is_space c) eqn:S; [exact IH | exact S].
Qed.

Lemma trim_idempotent (s : string) : Js.trim (Js.trim s) = Js.trim s.
Proof.
  unfold Js.trim. pose proof (trimStart_head s) as H.
  destruct (Js.trimStart s) as [|c u]; [reflexivity|].
  assert (T : Js.trimStart (Js.trimEnd (String c u)) = Js.trimEnd (String c u)).
  { cbn [Js.trimEnd]. destruct (Js.trimEnd u); rewrite ?H; cbn [Js.trimStart];
      now rewrite H. }
  rewrite T. apply trimEnd_idempotent.
Qed.

(** A text without white space at its ends. *)
Definition trimmed (t : string) : Prop := Js.trim t = t.

Lemma word_trimmed (t : string) : matches (Plus w) t -> trimmed t.
Proof.
  intros M. apply matches_Plus_Chr in M as [_ A].
  now apply NameFacts.word_trim.
Qed.

(** The group [i] of the expression, when it is a group around [\w+]
    and no other group has the number. *)
Lemma typedef_group_3 : groups_ok 3 trimmed typedefRegex.
Proof.
  unfold typedefRegex, dotted. cbn [Cat groups_ok Lit Plus].
  repeat split; try discriminate. intros _. apply word_trimmed.
Qed.

Lemma simple_group_1 : groups_ok 1 trimmed simpleRequire.
Proof.
  unfold simpleRequire, dotted. cbn [Cat groups_ok Lit Plus].
  repeat split; try discriminate. intros _. apply word_trimmed.
Qed.

Lemma group_ok (i : nat) (P : string -> Prop) (f : found) :
  P EmptyString -> cap_ok i P (groups f) -> P (group i f).
Proof.
  intros E C. unfold group. destruct (capture i (groups f)) as [t|] eqn:G;
    [now apply C | exact E].
Qed.

(** The groups of the matches of [matchAll]. *)
Lemma matchAll_groups (i : nat) (P : string -> Prop) (r : regex) :
  groups_ok i P r ->
  forall n s, Forall (fun f => cap_ok i P (groups f)) (matchAll_from n r s).
Proof.
  intros G. induction n as [|n IH]; intros s; [constructor|].
  cbn [matchAll_from]. destruct (exec r s) as [f|] eqn:E; [|constructor].
  destruct (exec_matches i P r s f G E) as (_ & _ & C).
  constructor; [exact C|].
  destruct (matched f); destruct (after f); auto.
Qed.

End AliasNameFacts.

Section AliasNames.
Import AliasNameFacts.
Variable path_dirname : string -> string.
Variable path_resolve : string -> string -> string.

(** Every name of an alias of the record is trimmed. *)
Definition names_trimmed (fi : FileInfo) : Prop :=
  Forall (fun kv => trimmed (fst kv)) (localImportAliases fi).

Lemma add_alias_trimmed (localAlias file exported : string) :
  trimmed localAlias ->
  InvariantFacts.keeps names_trimmed (add_alias localAlias file exported).
Proof.
  intros T fi H. unfold names_trimmed. simpl.
  apply Forall_set; [exact H | exact T].
Qed.

Lemma keeps_fold_each {A : Type} (P : FileInfo -> Prop)
    (each : FileInfo -> A -> FileInfo) (xs : list A) :
  Forall (fun x => InvariantFacts.keeps P (fun fi => each fi x)) xs ->
  InvariantFacts.keeps P (fun fi => fold_left each xs fi).
Proof.
  induction 1 as [|x xs Hx F IH]; intros fi U; simpl; [exact U|].
  apply IH. now apply Hx.
Qed.

Lemma keeps_scan_each (P : FileInfo -> Prop) (ms : list Regex.found)
    (each : FileInfo -> Regex.found -> FileInfo) :
  Forall (fun x => InvariantFacts.keeps P (fun fi => each fi x)) ms ->
  Forall (InvariantFacts.keeps P) (scan ms each).
Proof.
  intros H. destruct ms; constructor; [|constructor].
  now apply keeps_fold_each.
Qed.

Lemma beforeParse_names_trimmed (filename source f : string) fs :
  event_updates path_dirname path_resolve (BeforeParse filename source)
  = Ok (f, fs) ->
  Forall (InvariantFacts.keeps names_trimmed) fs.
Proof.
  cbn [event_updates]. intros [= _ <-].
  apply Forall_app; split; [|apply Forall_app; split]; apply keeps_scan_each.
  - pose proof (matchAll_groups 3 trimmed _ typedef_group_3
                  (S (String.length source)) source) as G.
    revert G. apply Forall_impl. intros m C. unfold typedef_alias.
    apply add_alias_trimmed. now apply group_ok.
  - match goal with
    | |- Forall _ (Regex.matchAll _ ?src) =>
        pose proof (matchAll_groups 1 trimmed _ simple_group_1
                      (S (String.length src)) src) as G
    end.
    revert G. apply Forall_impl. intros m C. unfold simple_alias.
    apply add_alias_trimmed. now apply group_ok.
  - apply Forall_forall. intros m _. unfold destruct_aliases.
    apply (keeps_fold_each names_trimmed
             (fun fi name => add_alias name _ _ fi)).
    apply Forall_forall. intros name I. apply add_alias_trimmed.
    apply in_map_iff in I as (x & <- & _). apply trim_idempotent.
Qed.

(** X19.  The names of the aliases are stored in the form in which
    [replaceTypes] looks a name up.  In every registry of a run, the name
    of every alias is trimmed: the names bound by a typedef or by a plain
    [require] are words, and the names between the braces of a
    destructuring [require] are trimmed by the scanner. *)
Theorem alias_names_are_trimmed (evs : list event) (reg : Registry)
    (file : string) (fi : FileInfo) (name : string) :
  registry_after path_dirname path_resolve evs = Ok reg ->
  get file reg = Some fi ->
  In name (keys (localImportAliases fi)) ->
  Js.trim name = name.
Proof.
  intros H G I.
  assert (T : names_trimmed fi).
  { apply (InvariantFacts.invariant_registry_after path_dirname path_resolve
             names_trimmed evs reg file fi); auto.
    - intros filename. constructor.
    - intros [filename source|doclet] f fs _ E.
      + exact (beforeParse_names_trimmed filename source f fs E).
      + apply (InvariantFacts.newDoclet_keeps path_dirname path_resolve
                 names_trimmed doclet f fs); [|exact E].
        intros meta _ fi0 T0. unfold names_trimmed.
        now rewrite (proj1 (index_doclet_aliases doclet meta fi0)). }
  unfold keys in I. apply in_map_iff in I as (kv & <- & I).
  exact (proj1 (Forall_forall _ _) T kv I).
Qed.

End AliasNames.

(** * The properties on concrete runs *)

Module Runs.

(** The registry after the events and the barrier, empty if either threw. *)
Definition barrier_of (evs : list event) : Registry :=
  match barrier (registry_of evs) with
  | Ok reg => reg
  | Err _ => []
  end.

(** File A rebinding the export object: [self = exports;
    self.Foo = Foo; exports.Bar = Bar;]. *)
Definition a_Bar : Doclet :=
  function_doclet "a.js" 2 "Bar" "pkg.Bar" "static" None.
Definition a_self : Doclet :=
  assignment_doclet "a.js" 3 "self" "self" "self" "exports".
Definition a_self_Foo : Doclet :=
  assignment_doclet "a.js" 4 "Foo" "self.Foo" "self.Foo" "Foo".
Definition a_exports_Bar : Doclet :=
  assignment_doclet "a.js" 5 "Bar" "Bar" "exports.Bar" "Bar".
Definition a_rebound_events : list event :=
  [BeforeParse a_js "function Foo(){}
function Bar(){}
self = exports;
self.Foo = Foo;
exports.Bar = Bar;";
   NewDoclet a_Foo; NewDoclet a_Bar; NewDoclet a_self; NewDoclet a_self_Foo;
   NewDoclet a_exports_Bar].

(** File A whose function is a plain global: its longname is its name. *)
Definition a_global_Widget : Doclet :=
  function_doclet "a.js" 1 "Widget" "Widget" "global" None.
Definition a_global_events : list event :=
  [BeforeParse a_js a_source; NewDoclet a_global_Widget; NewDoclet a_exports].

(** File B binding two names between braces, with spaces around them. *)
Definition b_spaced_events : list event :=
  [BeforeParse b_js "const { Widget , Gadget } = require('./a');"].

(** A function of file B whose parameter has a type that the expression
    of [replaceTypes] does not match. *)
Definition b_star : Doclet :=
  function_doclet "b.js" 3 "f" "f" "global" (Some [typed ["*"]]).

End Runs.

Import Runs.

Lemma request_targets_end_with_js_witness :
  Js.endsWith "/proj/a.js" ".js" = true.
Proof.
  apply (request_targets_end_with_js Posix.dirname Posix.resolve
           b_simple_events (registry_of b_simple_events) b_js
           (record b_js (registry_of b_simple_events))
           "Widget" "/proj/a.js" "");
    vm_compute; reflexivity.
Defined.

Lemma full_run_errors_witness :
  exists doclet meta,
    In doclet [b_star] /\ d_meta doclet = Some meta /\
    ParseError "Error parsing b.js:3."
    = ParseError ("Error parsing " ++ meta_filename meta ++ ":"
                  ++ Js.of_number (meta_lineno meta) ++ ".").
Proof.
  destruct (full_run_errors Posix.dirname Posix.resolve b_simple_events
              [b_star] (ParseError "Error parsing b.js:3."))
    as [[E _]|H]; [vm_compute; reflexivity | discriminate E | exact H].
Defined.

Lemma barrier_frame_witness :
  exists reg',
    barrier (registry_of (a_events ++ b_simple_events)) = Ok reg' /\
    keys reg' = [a_js; b_js].
Proof.
  destruct (barrier_frame Posix.dirname Posix.resolve
              (a_events ++ b_simple_events)
              (registry_of (a_events ++ b_simple_events)))
    as (reg' & B & K & _); [vm_compute; reflexivity|].
  exists reg'. split; [exact B|]. rewrite K. vm_compute. reflexivity.
Defined.

Lemma exports_are_declared_witness :
  "pkg.Widget" <> "" /\
  exists V,
    get V (longnamesByDeclaration (record a_js (barrier_of a_events)))
    = Some "pkg.Widget" /\
    (("*" = "*" /\
      get "module.exports" (mappings (record a_js (barrier_of a_events)))
      = Some V) \/
     get (exportsAlias_final (record a_js (barrier_of a_events)) ++ "." ++ "*")
       (mappings (record a_js (barrier_of a_events))) = Some V).
Proof.
  apply (exports_are_declared Posix.dirname Posix.resolve a_events
           (registry_of a_events) (barrier_of a_events) a_js
           (record a_js (barrier_of a_events)) "*" "pkg.Widget");
    vm_compute; reflexivity.
Defined.

Lemma resolved_alias_is_declared_witness :
  "pkg.Widget" <> "" /\
  exists target ft V,
    get target (barrier_of (a_events ++ b_simple_events)) = Some ft /\
    Js.endsWith target ".js" = true /\
    get V (longnamesByDeclaration ft) = Some "pkg.Widget".
Proof.
  apply (resolved_alias_is_declared Posix.dirname Posix.resolve
           (a_events ++ b_simple_events)
           (registry_of (a_events ++ b_simple_events))
           (barrier_of (a_events ++ b_simple_events)) b_js
           (record b_js (barrier_of (a_events ++ b_simple_events)))
           "Widget" "pkg.Widget");
    vm_compute; reflexivity.
Defined.

Lemma rebound_alias_wins_witness :
  let table :=
    exports (indexExports (record a_js (registry_of a_rebound_events))) in
  get "Foo" table = Some "pkg.Foo" /\ get "Bar" table = None.
Proof.
  destruct (rebound_alias_wins Posix.dirname Posix.resolve a_rebound_events
              (registry_of a_rebound_events) a_js
              (record a_js (registry_of a_rebound_events))
              [] [("self.Foo", "Foo"); ("exports.Bar", "Bar")] "self")
    as [_ T].
  - vm_compute; reflexivity.
  - vm_compute; reflexivity.
  - vm_compute; reflexivity.
  - intros k v [I|[I|[]]]; inversion I; discriminate.
  - split; (rewrite T; [vm_compute; reflexivity | discriminate]).
Defined.

Lemma default_export_alias_witness :
  get "Foo" (exports (indexExports (record a_js (registry_of a_named_events))))
  = Some "pkg.Foo".
Proof.
  destruct (default_export_alias Posix.dirname Posix.resolve a_named_events
              (registry_of a_named_events) a_js
              (record a_js (registry_of a_named_events)))
    as [_ T].
  - vm_compute; reflexivity.
  - vm_compute; reflexivity.
  - vm_compute; reflexivity.
  - intros k v [I|[]]; inversion I; discriminate.
  - rewrite T. vm_compute. reflexivity.
Defined.

Lemma second_barrier_throws_witness :
  barrier (barrier_of b_missing_events) = Err TypeError /\
  processingComplete Posix.resolve (barrier_of b_missing_events) [b_g]
  = Err TypeError.
Proof.
  apply (second_barrier_throws Posix.resolve (barrier_of b_missing_events)
           b_js (record b_js (barrier_of b_missing_events)) "Foo" [b_g]);
    vm_compute; reflexivity.
Defined.

Lemma qualifier_is_dropped_witness :
  replaceTypes [] [("Foo", Resolved "pkg.Foo")] meta_b "module:Foo"
  = Ok "pkg.Foo".
Proof.
  apply (qualifier_is_dropped [] [("Foo", Resolved "pkg.Foo")] meta_b
           "module" ":" "Foo"); [reflexivity | discriminate | reflexivity].
Defined.

Lemma bare_name_precedence_witness :
  replaceTypes [("Foo", "pkg.Foo")] [("Foo", Resolved "lib.Foo")] meta_b "Foo"
  = Ok "pkg.Foo".
Proof.
  apply (proj1 (bare_name_precedence [("Foo", "pkg.Foo")]
                  [("Foo", Resolved "lib.Foo")] meta_b "Foo"
                  ltac:(discriminate) eq_refl)).
  reflexivity.
Defined.

Lemma empty_generic_is_dropped_witness :
  replaceTypes [] [("Foo", Resolved "pkg.Foo")] meta_b "Foo.<>"
  = Ok "pkg.Foo".
Proof.
  apply (empty_generic_is_dropped [] [("Foo", Resolved "pkg.Foo")] meta_b
           "Foo"); [discriminate | reflexivity].
Defined.

Lemma separator_becomes_dot_witness :
  replaceTypes [] [("Foo", Resolved "pkg.Foo")] meta_b "Array~<Foo>"
  = Ok "Array.<pkg.Foo>".
Proof.
  change (replaceTypes [] [("Foo", Resolved "pkg.Foo")] meta_b
            ("Array" ++ String "~" ("<" ++ "Foo" ++ ">"))
          = Ok "Array.<pkg.Foo>").
  rewrite (separator_becomes_dot [] [("Foo", Resolved "pkg.Foo")] meta_b
             "Array" "Foo" "~");
    [ vm_compute; reflexivity | discriminate | reflexivity | reflexivity
    | reflexivity | discriminate | reflexivity ].
Defined.

Lemma modifyDoclet_keeps_shape_witness :
  items_shape
    (d_params (function_doclet "b.js" 3 "f" "f" "global"
                 (Some [typed ["pkg.Widget"]])))
  = items_shape (d_params b_f).
Proof.
  apply (modifyDoclet_keeps_shape Posix.resolve
           (barrier_of (a_events ++ b_simple_events)) b_f
           (function_doclet "b.js" 3 "f" "f" "global"
              (Some [typed ["pkg.Widget"]]))).
  vm_compute. reflexivity.
Defined.

Lemma undotted_declarations_export_nothing_witness :
  exists reg',
    barrier (registry_of (a_global_events ++ b_simple_events)) = Ok reg' /\
    localImportAliases (record b_js reg') = [("Widget", Failed)].
Proof.
  destruct (undotted_declarations_export_nothing Posix.dirname Posix.resolve
              (a_global_events ++ b_simple_events)
              (registry_of (a_global_events ++ b_simple_events)))
    as (reg' & B & _).
  - vm_compute; reflexivity.
  - intros doclet I K. vm_compute in I.
    repeat (destruct I as [I|I];
            [try discriminate I; injection I as <-;
             destruct K as [K|K]; try discriminate K; reflexivity|]).
    destruct I.
  - exists reg'. split; [exact B|].
    vm_compute in B. injection B as <-. reflexivity.
Defined.

Lemma alias_names_are_trimmed_witness :
  Js.trim "Widget" = "Widget" /\ Js.trim "Gadget" = "Gadget".
Proof.
  split;
    [ apply (alias_names_are_trimmed Posix.dirname Posix.resolve
               b_spaced_events (registry_of b_spaced_events) b_js
               (record b_js (registry_of b_spaced_events)) "Widget")
    | apply (alias_names_are_trimmed Posix.dirname Posix.resolve
               b_spaced_events (registry_of b_spaced_events) b_js
               (record b_js (registry_of b_spaced_events)) "Gadget") ];
    try (vm_compute; reflexivity); vm_compute; tauto.
Defined.

Lemma handlers_frame_witness :
  get a_js (registry_of (a_events ++ [BeforeParse b_js b_simple_source]))
  = get a_js (registry_of a_events).
Proof.
  apply (handlers_frame Posix.dirname Posix.resolve (registry_of a_events)
           (registry_of (a_events ++ [BeforeParse b_js b_simple_source]))
           (BeforeParse b_js b_simple_source)).
  - vm_compute; reflexivity.
  - discriminate.
Defined.

(** * Name lists and the shape of a type expression *)

(** ** The parts of a name list *)

Module NameListFacts.
Import Regex RegexFacts Patterns LanguageFacts.

(** A text of white space. *)
Definition blank (s : string) : bool := all Js.is_space s.

Definition no_comma (s : string) : bool :=
  all (fun c => negb (Ascii.eqb c ",")) s.

(** A text that neither begins nor ends with white space. *)
Definition starts_clean (s : string) : bool :=
  match s with
  | EmptyString => true
  | String c _ => negb (Js.is_space c)
  end.

Definition ends_clean (s : string) : bool := negb (last_is Js.is_space s).

(** One part of a name list: a text between white space. *)
Record part : Type := {
  lead : string;
  text : string;
  trail : string
}.

Definition piece (p : part) : string := lead p ++ text p ++ trail p.

(** The parts with commas between them. *)
Definition render (parts : list part) : string :=
  Js.join "," (List.map piece parts).

(** The white space is white space, and the text is free of commas and of
    white space at its ends. *)
Definition padded (p : part) : Prop :=
  blank (lead p) = true /\ blank (trail p) = true /\
  no_comma (text p) = true /\
  starts_clean (text p) = true /\ ends_clean (text p) = true.

(** *** [split] *)

Lemma join_cons (sep x : string) (y : string) (ys : list string) :
  Js.join sep (x :: y :: ys) = x ++ sep ++ Js.join sep (y :: ys).
Proof. reflexivity. Qed.

Lemma split_piece (p rest : string) :
  no_comma p = true ->
  Js.split "," (p ++ "," ++ rest) = p :: Js.split "," rest.
Proof.
  induction p as [|c p IH]; intros N; [reflexivity|].
  simpl in N. apply andb_prop in N as [Nc Np].
  change (String c p ++ "," ++ rest) with (String c (p ++ "," ++ rest)).
  cbn [Js.split]. apply negb_true_iff in Nc. rewrite Nc.
  now rewrite (IH Np).
Qed.

Lemma split_last (p : string) : no_comma p = true -> Js.split "," p = [p].
Proof.
  induction p as [|c p IH]; intros N; [reflexivity|].
  simpl in N. apply andb_prop in N as [Nc Np].
  cbn [Js.split]. apply negb_true_iff in Nc. rewrite Nc.
  now rewrite (IH Np).
Qed.

Lemma split_join (ps : list string) :
  ps <> [] -> Forall (fun p => no_comma p = true) ps ->
  Js.split "," (Js.join "," ps) = ps.
Proof.
  intros N F. induction F as [|p ps Hp F IH]; [congruence|].
  destruct ps as [|q ps]; [exact (split_last p Hp)|].
  rewrite join_cons, (split_piece _ _ Hp), IH by discriminate.
  reflexivity.
Qed.

(** *** [trim] *)

Lemma trimStart_blank (l s : string) :
  blank l = true -> Js.trimStart (l ++ s) = Js.trimStart s.
Proof.
  induction l as [|c l IH]; intros B; [reflexivity|].
  simpl in B. apply andb_prop in B as [Bc Bl].
  cbn [append Js.trimStart]. rewrite Bc. now apply IH.
Qed.

Lemma trimStart_clean (s : string) :
  starts_clean s = true -> Js.trimStart s = s.
Proof.
  destruct s as [|c s]; [reflexivity|]. simpl. intros C.
  apply negb_true_iff in C. now rewrite C.
Qed.

Lemma trimStart_all_blank (r : string) :
  blank r = true -> Js.trimStart r = EmptyString.
Proof.
  induction r as [|c r IH]; intros B; [reflexivity|].
  simpl in B. apply andb_prop in B as [Bc Br].
  cbn [Js.trimStart]. rewrite Bc. now apply IH.
Qed.

Lemma trimEnd_all_blank (r : string) :
  blank r = true -> Js.trimEnd r = EmptyString.
Proof.
  induction r as [|c r IH]; intros B; [reflexivity|].
  simpl in B. apply andb_prop in B as [Bc Br].
  cbn [Js.trimEnd]. now rewrite (IH Br), Bc.
Qed.

Lemma trimEnd_clean (n r : string) :
  ends_clean n = true -> blank r = true -> Js.trimEnd (n ++ r) = n.
Proof.
  intros C B. induction n as [|c n IH]; [now apply trimEnd_all_blank|].
  cbn [append Js.trimEnd]. destruct n as [|b n].
  - cbn [append]. rewrite (trimEnd_all_blank r B).
    unfold ends_clean in C. simpl in C. apply negb_true_iff in C.
    now rewrite C.
  - rewrite IH by exact C. reflexivity.
Qed.

(** The text of a padded part is what [trim] makes of the part. *)
Lemma trim_piece (p : part) : padded p -> Js.trim (piece p) = text p.
Proof.
  intros (Bl & Br & _ & S & E). unfold Js.trim, piece.
  rewrite (trimStart_blank _ _ Bl).
  destruct (text p) as [|c n] eqn:T.
  - cbn [append]. now rewrite (trimStart_all_blank _ Br).
  - rewrite trimStart_clean by exact S. now apply trimEnd_clean.
Qed.

Lemma no_comma_blank (s : string) : blank s = true -> no_comma s = true.
Proof.
  unfold blank, no_comma.
  induction s as [|c s IH]; [reflexivity|]. simpl. intros B.
  apply andb_prop in B as [Bc Bs]. rewrite (IH Bs), andb_true_r.
  destruct (Ascii.eqb c ",") eqn:E; [|reflexivity].
  apply Ascii.eqb_eq in E. subst c. discriminate Bc.
Qed.

Lemma no_comma_piece (p : part) : padded p -> no_comma (piece p) = true.
Proof.
  intros (Bl & Br & N & _). unfold piece, no_comma.
  rewrite !all_app. fold (no_comma (lead p)) (no_comma (text p))
    (no_comma (trail p)).
  now rewrite (no_comma_blank _ Bl), (no_comma_blank _ Br), N.
Qed.

(** [split] and [trim] give the texts of the parts back. *)
Lemma trimmed_parts (parts : list part) :
  parts <> [] -> Forall padded parts ->
  List.map Js.trim (Js.split "," (render parts)) = List.map text parts.
Proof.
  intros N F. unfold render. rewrite split_join.
  - rewrite List.map_map. apply List.map_ext_in. intros p I.
    apply trim_piece. exact (proj1 (Forall_forall _ _) F p I).
  - destruct parts; [congruence | discriminate].
  - apply Forall_map. revert F. apply Forall_impl. exact no_comma_piece.
Qed.

(** *** Every text is a list of padded parts *)

(** The white space in front of a text, and behind it. *)
Fixpoint leading (s : string) : string :=
  match s with
  | EmptyString => EmptyString
  | String c s' => if Js.is_space c then String c (leading s') else EmptyString
  end.

Fixpoint trailing (s : string) : string :=
  match s with
  | EmptyString => EmptyString
  | String c s' =>
      match Js.trimEnd (String c s') with
      | EmptyString => String c s'
      | String _ _ => trailing s'
      end
  end.

Lemma leading_trimStart (s : string) :
  s = leading s ++ Js.trimStart s /\ blank (leading s) = true /\
  starts_clean (Js.trimStart s) = true.
Proof.
  induction s as [|c s (E & B & C)]; [repeat split|].
  cbn [leading Js.trimStart]. destruct (Js.is_space c) eqn:S.
  - cbn [append]. repeat split; [now rewrite <- E | | exact C].
    unfold blank. simpl. now rewrite S.
  - repeat split. simpl. now rewrite S.
Qed.

Lemma trailing_trimEnd (s : string) :
  s = Js.trimEnd s ++ trailing s /\ blank (trailing s) = true /\
  ends_clean (Js.trimEnd s) = true /\
  (starts_clean s = true -> starts_clean (Js.trimEnd s) = true).
Proof.
  induction s as [|c s (E & B & C & _)];
    [split; [|split; [|split]]; auto|].
  cbn [trailing]. cbn [Js.trimEnd]. destruct (Js.trimEnd s) as [|b t] eqn:T.
  - cbn [append] in E. destruct (Js.is_space c) eqn:S.
    + split; [|split; [|split]].
      * reflexivity.
      * unfold blank. simpl. rewrite S. rewrite E. exact B.
      * reflexivity.
      * simpl. rewrite S. discriminate.
    + split; [|split; [|split]].
      * cbn [append]. now rewrite <- E.
      * exact B.
      * unfold ends_clean. simpl. now rewrite S.
      * auto.
  - split; [|split; [|split]].
    + cbn [append]. cbn [append] in E. now rewrite <- E.
    + exact B.
    + exact C.
    + auto.
Qed.

Definition part_of (s : string) : part :=
  {| lead := leading s; text := Js.trim s;
     trail := trailing (Js.trimStart s) |}.

Lemma piece_part_of (s : string) : piece (part_of s) = s.
Proof.
  unfold piece, part_of, Js.trim. cbn [lead text trail].
  destruct (leading_trimStart s) as (E & _).
  destruct (trailing_trimEnd (Js.trimStart s)) as (E' & _).
  now rewrite <- E', <- E.
Qed.

Lemma part_of_padded (s : string) : no_comma s = true -> padded (part_of s).
Proof.
  intros N. pose proof (piece_part_of s) as P.
  destruct (leading_trimStart s) as (_ & B & C).
  destruct (trailing_trimEnd (Js.trimStart s)) as (_ & B' & C' & S').
  repeat split; cbn [lead text trail part_of]; auto.
  rewrite <- P in N. unfold piece, no_comma in N. rewrite !all_app in N.
  apply andb_prop in N as [_ N]. apply andb_prop in N as [N _]. exact N.
Qed.

Lemma split_pieces (s : string) :
  Js.split "," s <> [] /\
  Forall (fun p => no_comma p = true) (Js.split "," s) /\
  Js.join "," (Js.split "," s) = s.
Proof.
  induction s as [|c s (N & F & J)]; [repeat split; [discriminate | repeat constructor]|].
  cbn [Js.split]. destruct (Ascii.eqb c ",") eqn:E.
  - apply Ascii.eqb_eq in E. subst c. repeat split; [discriminate | |].
    + constructor; [reflexivity | exact F].
    + destruct (Js.split "," s) as [|q qs] eqn:Q; [congruence|].
      rewrite join_cons, J. reflexivity.
  - destruct (Js.split "," s) as [|q qs] eqn:Q; [congruence|].
    inversion_clear F as [|? ? Hq Fq]. repeat split; [discriminate | |].
    + constructor; [|exact Fq]. unfold no_comma. simpl.
      rewrite E. exact Hq.
    + rewrite <- J. destruct qs; reflexivity.
Qed.

(** The parts of a text, as [split] and [trim] find them. *)
Definition parts_of (s : string) : list part :=
  List.map part_of (Js.split "," s).

Lemma parts_of_render (s : string) :
  parts_of s <> [] /\ Forall padded (parts_of s) /\ render (parts_of s) = s.
Proof.
  destruct (split_pieces s) as (N & F & J). unfold parts_of, render.
  repeat split.
  - destruct (Js.split "," s); [congruence | discriminate].
  - apply Forall_map. revert F. apply Forall_impl. exact part_of_padded.
  - rewrite List.map_map.
    rewrite (List.map_ext _ (fun p => p) piece_part_of), List.map_id.
    exact J.
Qed.

End NameListFacts.

(** ** Whitespace around the commas *)

Section NameLists.
Import NameListFacts.
Variable localNames : JsMap.t string.
Variable aliases : JsMap.t slot.
Variable meta : Meta.

(** C10.  A name list is a list of parts with commas between them, each
    part a text between white space; every text is such a list, in the way
    [split] and [trim] find.  For a name list that [typeMatch] takes as a
    whole, the rewriter maps the texts of the parts, without the white
    space around them, and joins the results with a comma and one space, in
    front of the generic argument if there is one; when no text is a key of
    the declared names or of the aliases, the result is the texts joined
    that way: the white space around the commas is normalized, and
    [A , B] as well as [A,B] becomes [A, B].  In every expression that is
    rewritten, the name list of the match is treated that way. *)
Theorem name_list_normalized :
  (forall parts,
      parts <> [] -> Forall padded parts ->
      render parts <> "" -> all name_list_unit (render parts) = true ->
      let names := List.map text parts in
      let list :=
        Js.join ", " (List.map joined
                        (List.map (replace_name localNames aliases) names)) in
      replaceTypes localNames aliases meta (render parts) = Ok list
      /\ ((forall t, In t names ->
             JsMap.has t localNames = false /\ JsMap.has t aliases = false) ->
          replaceTypes localNames aliases meta (render parts)
          = Ok (Js.join ", " names))
      /\ (forall inner r,
             inner <> "" -> all Js.is_dot inner = true ->
             replaceTypes localNames aliases meta inner = Ok r ->
             replaceTypes localNames aliases meta
               (render parts ++ ".<" ++ inner ++ ">")
             = Ok (list ++ ".<" ++ r ++ ">")))
  /\
  (forall name match_ r,
      exec typeMatch name = Some match_ ->
      replaceTypes localNames aliases meta name = Ok r ->
      exists parts,
        parts <> [] /\ Forall padded parts /\
        group 1 match_ = render parts /\
        let list :=
          Js.join ", "
            (List.map joined
               (List.map (replace_name localNames aliases)
                  (List.map text parts))) in
        (r = list \/ exists inner, r = list ++ ".<" ++ inner ++ ">"))
  /\
  (forall name,
      exists parts,
        parts <> [] /\ Forall padded parts /\ name = render parts).
Proof.
  split; [|split].
  - intros parts N F NE U names list.
    assert (A : replace_actual localNames aliases (render parts) = list).
    { unfold replace_actual. now rewrite trimmed_parts. }
    assert (R : replaceTypes localNames aliases meta (render parts) = Ok list).
    { rewrite replaceTypes_names by assumption. now rewrite A. }
    repeat split.
    + exact R.
    + intros K. rewrite R. unfold list.
      now rewrite replace_names_unknown.
    + intros inner r Ni Di Ri.
      rewrite replaceTypes_generic by assumption.
      now rewrite Ri, A.
  - intros name match_ r E R.
    destruct (parts_of_render (group 1 match_)) as (N & F & P).
    exists (parts_of (group 1 match_)).
    split; [exact N|]. split; [exact F|]. split; [now rewrite P|].
    cbv zeta.
    rewrite replaceTypes_unfold, E in R. cbv zeta in R.
    assert (A : replace_actual localNames aliases (group 1 match_)
                = Js.join ", "
                    (List.map joined
                       (List.map (replace_name localNames aliases)
                          (List.map text (parts_of (group 1 match_)))))).
    { unfold replace_actual. rewrite <- P at 1.
      now rewrite trimmed_parts. }
    rewrite A in R.
    destruct (capture 2 (groups match_)) as [extra|].
    + destruct (Js.truthy extra); simpl in R.
      * destruct (replaceTypes localNames aliases meta extra) as [inner|];
          [|discriminate].
        injection R as <-. right. now exists inner.
      * injection R as <-. now left.
    + injection R as <-. now left.
  - intros name. exists (parts_of name).
    destruct (parts_of_render name) as (N & F & R). auto.
Qed.

End NameLists.

Lemma name_list_normalized_witness :
  replaceTypes [] [] meta_b "A , B" = Ok "A, B" /\
  replaceTypes [] [] meta_b "A,B" = Ok "A, B".
Proof.
  split.
  - apply (proj1 (name_list_normalized [] [] meta_b)
             [ {| NameListFacts.lead := ""; NameListFacts.text := "A";
                  NameListFacts.trail := " " |};
               {| NameListFacts.lead := " "; NameListFacts.text := "B";
                  NameListFacts.trail := "" |} ]).
    + discriminate.
    + repeat constructor.
    + discriminate.
    + reflexivity.
    + intros t [<-|[<-|[]]]; split; reflexivity.
  - apply (proj1 (name_list_normalized [] [] meta_b)
             [ {| NameListFacts.lead := ""; NameListFacts.text := "A";
                  NameListFacts.trail := "" |};
               {| NameListFacts.lead := ""; NameListFacts.text := "B";
                  NameListFacts.trail := "" |} ]).
    + discriminate.
    + repeat constructor.
    + discriminate.
    + reflexivity.
    + intros t [<-|[<-|[]]]; split; reflexivity.
Defined.

(** ** The shape of a type expression *)

Module ShapeFacts.
Import Regex RegexFacts Patterns LanguageFacts RewriterEdgeFacts NameListFacts.

(** The shape in the words of the specification: a base, which is a
    comma-separated list of bare names, and an optional trailing generic
    argument in the fixed brackets.  A bare name is a non-empty word; white
    space may stand around the names. *)
Definition bare_name (n : string) : Prop :=
  n <> EmptyString /\ all Js.is_word n = true.

Definition names_part (p : part) : Prop :=
  blank (lead p) = true /\ bare_name (text p) /\ blank (trail p) = true.

Definition spec_base (base : string) : Prop :=
  exists parts,
    parts <> [] /\ Forall names_part parts /\ base = render parts.


(** The shape of an expression whose generic argument, on one line, has
    the shape as well, at every depth. *)
Inductive spec_shape_deep : string -> Prop :=
| deep_base base : spec_base base -> spec_shape_deep base
| deep_generic base arg :
    spec_base base -> spec_shape_deep arg -> all Js.is_dot arg = true ->
    spec_shape_deep (base ++ ".<" ++ arg ++ ">").


Lemma blank_units (s : string) :
  blank s = true -> all name_list_unit s = true.
Proof.
  unfold blank. induction s as [|c s IH]; [reflexivity|]. simpl.
  intros B. apply andb_prop in B as [Bc Bs]. rewrite (IH Bs).
  unfold name_list_unit. now rewrite Bc, orb_true_r.
Qed.

Lemma names_part_piece (p : part) :
  names_part p ->
  piece p <> EmptyString /\ all name_list_unit (piece p) = true.
Proof.
  intros (Bl & (N & W) & Br). unfold piece. split.
  - destruct (text p) as [|c n]; [congruence|].
    destruct (lead p); discriminate.
  - rewrite !all_app, (blank_units _ Bl), (blank_units _ Br).
    now rewrite (NameFacts.word_name_list _ W).
Qed.

Lemma spec_base_units (base : string) :
  spec_base base ->
  base <> EmptyString /\ all name_list_unit base = true.
Proof.
  intros (parts & N & F & ->). unfold render.
  induction F as [|p ps Hp F IH]; [congruence|].
  destruct (names_part_piece p Hp) as [Np Up].
  destruct ps as [|q ps]; [exact (conj Np Up)|].
  cbn [List.map]. rewrite join_cons. split.
  - destruct (piece p); [congruence | discriminate].
  - destruct IH as [_ IH]; [discriminate|].
    rewrite !all_app, Up. exact IH.
Qed.







(** The first unit of a text that is outside the class of the name
    lists. *)
Fixpoint first_outside (s : string) : option ascii :=
  match s with
  | EmptyString => None
  | String c s' => if name_list_unit c then first_outside s' else Some c
  end.

Lemma first_outside_app (s t : string) (a : ascii) :
  all name_list_unit s = true -> name_list_unit a = false ->
  first_outside (s ++ String a t) = Some a.
Proof.
  intros A Ua. induction s as [|c s IH]; simpl.
  - now rewrite Ua.
  - simpl in A. apply andb_prop in A as [Ac As]. rewrite Ac. now apply IH.
Qed.

Lemma first_outside_units (s : string) :
  all name_list_unit s = true -> first_outside s = None.
Proof.
  induction s as [|c s IH]; [reflexivity|]. simpl. intros A.
  apply andb_prop in A as [Ac As]. rewrite Ac. now apply IH.
Qed.

(** In a text of the shape, the name list is followed by nothing or by a
    dot. *)
Lemma spec_shape_deep_first (t : string) :
  spec_shape_deep t ->
  first_outside t = None \/ first_outside t = Some "."%char.
Proof.
  intros [base B|base arg B _ _].
  - left. apply first_outside_units. exact (proj2 (spec_base_units base B)).
  - right. change (base ++ ".<" ++ arg ++ ">")
      with (base ++ String "." ("<" ++ arg ++ ">")).
    apply first_outside_app; [|reflexivity].
    exact (proj2 (spec_base_units base B)).
Qed.

End ShapeFacts.

Section Shapes.
Import NameListFacts ShapeFacts.
Variable localNames : JsMap.t string.
Variable aliases : JsMap.t slot.
Variable meta : Meta.



End Shapes.



(** The expression of [replaceTypes] has no anchor at its start and its
    dot is not escaped: an expression without the shape can be rewritten
    instead of raising, with a unit of the name taken for the dot. *)
Lemma unshaped_expression_rewritten :
  ~ ShapeFacts.spec_shape_deep "Array<Foo>" /\
  replaceTypes [] [] meta_b "Array<Foo>" = Ok "Arra.<Foo>" /\
  ~ ShapeFacts.spec_shape_deep "Foo|Bar" /\
  replaceTypes [] [] meta_b "Foo|Bar" = Ok "Bar".
Proof.
  repeat split; try reflexivity; intros S;
    apply ShapeFacts.spec_shape_deep_first in S; destruct S as [S|S];
    discriminate S.
Qed.
